(** * Sequential and reference-propagated alignment orchestrators

    A shallow embedding of [spateo/alignment/morpho_alignment.py]
    ([morpho_align] and [morpho_align_ref]) together with the part of
    [spateo/external/lack.py] that drives their loops
    ([LoggerManager.progress_logger]).

    Samples are mutable Python objects: they live in a heap of [AnnData]
    records and are passed around by reference.  Calls to the numerical
    collaborators (the pairwise registration engine, the field evaluator, the
    downsampler and the device cache) are recorded in a trace, in call
    order.  Exceptions abort the computation and keep the heap as it was
    when they were raised. *)

From stdpp Require Import base option list strings gmap.
From Stdlib Require Import ZArith Lia Floats DecimalString Ascii.

Open Scope list_scope.

(** ** Data *)

(** The numerical payload the orchestrators never look into: array entries,
    the fitted vector field and the per-iteration record of the engine. *)
Class Data := {
  scalar : Type;
  VecFld : Type;
  IterAdded : Type;
}.

(** A two-dimensional numpy array: its shape and its entries. *)
Record ndarray `{Data} := mk_ndarray {
  shape0 : nat;
  shape1 : nat;
  item : nat -> nat -> scalar;
}.

(** [a.T]: numpy's transposed view. *)
Definition transpose `{Data} (a : ndarray) : ndarray :=
  {| shape0 := shape1 a; shape1 := shape0 a; item := fun i j => item a j i |}.

(** [a.copy()]: a fresh array with the same contents. *)
Definition ndarray_copy `{Data} (a : ndarray) : ndarray := a.

(** What the orchestrators store in [.uns]. *)
Inductive uns_value `{Data} :=
  | UnsIter (it : IterAdded)
  | UnsVecFld (vf : VecFld)
  | UnsOther (payload : string).

(** An [AnnData] sample: the expression matrix with its gene names, the
    [.obsm] coordinate slots and the [.uns] annotation slots, both read and
    written by key like dictionaries. *)
Record AnnData `{Data} := mk_AnnData {
  X : ndarray;
  var_names : list string;
  obsm : gmap string ndarray;
  uns : gmap string uns_value;
}.

Definition n_obs `{Data} (a : AnnData) : nat := shape0 (X a).

Definition set_obsm `{Data} (k : string) (v : ndarray) (a : AnnData) : AnnData :=
  {| X := X a; var_names := var_names a; obsm := <[k:=v]> (obsm a); uns := uns a |}.

Definition set_uns `{Data} (k : string) (v : uns_value) (a : AnnData) : AnnData :=
  {| X := X a; var_names := var_names a; obsm := obsm a; uns := <[k:=v]> (uns a) |}.

(** [Union[str, List[str]]]. *)
Inductive str_or_list :=
  | Str (s : string)
  | StrList (l : list string).

(** The keyword arguments shared by [morpho_align] and [morpho_align_ref]. *)
Record Params := mk_Params {
  rep_layer : str_or_list;
  rep_field : str_or_list;
  genes : option (list string);
  spatial_key : string;
  key_added : string;
  iter_key_added : option string;
  vecfld_key_added : option string;
  mode : string;
  dissimilarity : str_or_list;
  max_iter : Z;
  dtype : string;
  device : string;
  verbose : bool;
  kwargs : list (string * string);
}.

(** The keyword arguments of one [Morpho_pairwise(...)] construction. *)
Record MorphoArgs := mk_MorphoArgs {
  ma_rep_layer : str_or_list;
  ma_rep_field : str_or_list;
  ma_dissimilarity : str_or_list;
  ma_genes : option (list string);
  ma_spatial_key : string;
  ma_key_added : string;
  ma_iter_key_added : option string;
  ma_vecfld_key_added : option string;
  ma_max_iter : Z;
  ma_dtype : string;
  ma_device : string;
  ma_verbose : bool;
  ma_kwargs : list (string * string);
}.

(** The attributes read off a [Morpho_pairwise] object after [run()]:
    the value [run()] returned, and [optimal_RnA], [XAHat], [iter_added]
    and [vecfld]. *)
Record MorphoModel `{Data} := mk_MorphoModel {
  P : ndarray;
  optimal_RnA : ndarray;
  XAHat : ndarray;
  iter_added : IterAdded;
  vecfld : VecFld;
}.

Inductive exn :=
  | KeyError (k : string)
  | IndexError
  | DimensionMismatch
  | EmptyInput
  | NumericalDegeneracy
  | IncompatibleField
  | OtherError (msg : string).

(** ** Collaborators

    [spateo.alignment.methods] ([Morpho_pairwise], [empty_cache]),
    [spateo.alignment.transform] ([BA_transform]) and
    [spateo.alignment.utils] ([downsampling]) are imported by
    [morpho_alignment.py] and are not part of the sources at hand: they are
    parameters, and the orchestrators are verified for every implementation
    of them.  Following the specification (4.1, 4.2 and 5), a collaborator
    is a function of the samples and the configuration it is handed: it
    returns a result or raises, and does not mutate the samples.
    [Morpho_pairwise] stands for the construction of the object followed by
    [run()]. *)
Class Backend `{Data} := {
  Morpho_pairwise : AnnData -> AnnData -> MorphoArgs -> exn + MorphoModel;
  BA_transform : VecFld -> ndarray -> string -> string -> exn + (ndarray * ndarray * ndarray);
  downsampling : list AnnData -> option Z -> string -> string -> exn + list AnnData;
}.

(** ** Heap, trace and the monad of the orchestrators *)

(** References to samples are addresses in the heap. *)
Abbreviation loc := nat.

Inductive event `{Data} :=
  | EvDownsampling (models : list AnnData) (n_sampling : option Z)
      (sampling_method spatial_key : string)
  | EvMorpho (locA locB : loc) (sampleA sampleB : AnnData) (args : MorphoArgs)
  | EvTransform (vf : VecFld) (quary_points : ndarray) (device dtype : string)
  | EvEmptyCache (device : string).

Record State `{Data} := mk_State {
  heap : list AnnData;
  trace : list event;
}.

Definition M `{Data} (A : Type) : Type := State -> State * (exn + A).

Definition ret `{Data} {A} (a : A) : M A := fun st => (st, inr a).

Definition bind `{Data} {A B} (m : M A) (f : A -> M B) : M B :=
  fun st =>
    match m st with
    | (st', inr a) => f a st'
    | (st', inl e) => (st', inl e)
    end.

Definition raise `{Data} {A} (e : exn) : M A := fun st => (st, inl e).

Declare Scope orch_scope.
Delimit Scope orch_scope with orch.
Notation "'let*' x := c1 'in' c2" := (bind c1 (fun x => c2))
  (at level 10, x pattern, c1 at level 100, c2 at level 200) : orch_scope.
Notation "c1 >> c2" := (bind c1 (fun _ => c2))
  (at level 100, c2 at level 200, right associativity) : orch_scope.
Open Scope orch_scope.

Definition lift `{Data} {A} (r : exn + A) : M A := fun st => (st, r).

Definition emit `{Data} (ev : event) : M unit :=
  fun st => ({| heap := heap st; trace := trace st ++ [ev] |}, inr tt).

(** Reading through a reference.  Every reference the orchestrators hold
    points into the heap; a dangling one is reported as [IndexError]. *)
Definition deref `{Data} (l : loc) : M AnnData :=
  fun st => match heap st !! l with
            | Some a => (st, inr a)
            | None => (st, inl IndexError)
            end.

Definition alloc `{Data} (a : AnnData) : M loc :=
  fun st => ({| heap := heap st ++ [a]; trace := trace st |}, inr (length (heap st))).

Definition update `{Data} (l : loc) (f : AnnData -> AnnData) : M unit :=
  fun st => match heap st !! l with
            | Some a => ({| heap := <[l:=f a]> (heap st); trace := trace st |}, inr tt)
            | None => (st, inl IndexError)
            end.

(** [model.copy()]: a new object with the same contents. *)
Definition copy_model `{Data} (l : loc) : M loc :=
  let* a := deref l in alloc a.

(** [m.obsm[k]]. *)
Definition obsm_get `{Data} (l : loc) (k : string) : M ndarray :=
  let* a := deref l in
  match obsm a !! k with
  | Some v => ret v
  | None => raise (KeyError k)
  end.

(** [m.obsm[k] = v]. *)
Definition obsm_set `{Data} (l : loc) (k : string) (v : ndarray) : M unit :=
  update l (set_obsm k v).

(** [m.uns[k] = v]. *)
Definition uns_set `{Data} (l : loc) (k : string) (v : uns_value) : M unit :=
  update l (set_uns k v).

(** [xs[i]] on a Python list, for [i >= 0]. *)
Definition list_get `{Data} {A} (xs : list A) (i : nat) : M A :=
  match xs !! i with
  | Some x => ret x
  | None => raise IndexError
  end.

(** [[f(x) for x in xs]]. *)
Fixpoint traverse `{Data} {A B} (f : A -> M B) (xs : list A) : M (list B) :=
  match xs with
  | [] => ret []
  | x :: xs' => let* y := f x in let* ys := traverse f xs' in ret (y :: ys)
  end.

(** [for x in xs: body(x)], threading the loop-carried locals [acc]. *)
Fixpoint foldM `{Data} {A B} (body : B -> A -> M B) (xs : list A) (acc : B) : M B :=
  match xs with
  | [] => ret acc
  | x :: xs' => let* acc' := body acc x in foldM body xs' acc'
  end.

Definition forM_ `{Data} {A} (xs : list A) (body : A -> M unit) : M unit :=
  foldM (fun _ x => body x) xs tt.

(** ** The loop driver

    [LoggerManager.progress_logger] (lack.py): a generator that yields
    [next(iterator)] once per element of [generator], reporting progress to
    the logger in between. *)
Fixpoint progress_logger_loop {A} (remaining : nat) (iterator : list A) : list A :=
  match remaining, iterator with
  | S n, x :: iterator' => x :: progress_logger_loop n iterator'
  | _, _ => []
  end.

Definition progress_logger {A} (generator : list A) : list A :=
  progress_logger_loop (length generator) generator.

(** Python's [range(n)]: empty when [n <= 0]. *)
Definition range (n : Z) : list nat := seq 0 (Z.to_nat n).

(** Modelled from the spec: [_iteration] of [spateo.alignment.utils] is not
    part of the sources at hand; it walks the pair indices [0 .. n-1] in
    increasing order, through the progress logger. *)
Definition _iteration (n : Z) : list nat := progress_logger (range n).

(** ** Calls to the collaborators *)

(** [Morpho_pairwise(sampleA=..., sampleB=..., ...)] followed by [run()]. *)
Definition run_Morpho_pairwise `{Backend} (sampleA sampleB : loc) (args : MorphoArgs)
    : M MorphoModel :=
  let* a := deref sampleA in
  let* b := deref sampleB in
  emit (EvMorpho sampleA sampleB a b args) >>
  lift (Morpho_pairwise a b args).

Definition empty_cache `{Data} (device : string) : M unit :=
  emit (EvEmptyCache device).

Definition call_BA_transform `{Backend} (vf : VecFld) (quary_points : ndarray)
    (device dtype : string) : M (ndarray * ndarray * ndarray) :=
  emit (EvTransform vf quary_points device dtype) >>
  lift (BA_transform vf quary_points device dtype).

(** [downsampling(models=..., ...)]: the landmark samples it returns are new
    objects. *)
Definition call_downsampling `{Backend} (models : list loc) (n_sampling : option Z)
    (sampling_method spatial_key : string) : M (list loc) :=
  let* samples := traverse deref models in
  emit (EvDownsampling samples n_sampling sampling_method spatial_key) >>
  let* landmarks := lift (downsampling samples n_sampling sampling_method spatial_key) in
  traverse alloc landmarks.

(** ** The orchestrators *)

Definition rigid_key (p : Params) : string := key_added p +:+ "_rigid".
Definition nonrigid_key (p : Params) : string := key_added p +:+ "_nonrigid".

Definition morpho_args (p : Params) : MorphoArgs :=
  {| ma_rep_layer := rep_layer p;
     ma_rep_field := rep_field p;
     ma_dissimilarity := dissimilarity p;
     ma_genes := genes p;
     ma_spatial_key := key_added p;
     ma_key_added := key_added p;
     ma_iter_key_added := iter_key_added p;
     ma_vecfld_key_added := vecfld_key_added p;
     ma_max_iter := max_iter p;
     ma_dtype := dtype p;
     ma_device := device p;
     ma_verbose := verbose p;
     ma_kwargs := kwargs p |}.

(** The body of the initialisation loops: the working, rigid and non-rigid
    slots each receive a copy of the raw spatial coordinates. *)
Definition init_coords `{Data} (p : Params) (m : loc) : M unit :=
  let* s := obsm_get m (spatial_key p) in
  obsm_set m (key_added p) (ndarray_copy s) >>
  let* s := obsm_get m (spatial_key p) in
  obsm_set m (rigid_key p) (ndarray_copy s) >>
  let* s := obsm_get m (spatial_key p) in
  obsm_set m (nonrigid_key p) (ndarray_copy s).

(** [if mode == "SN-S": ... elif mode == "SN-N": ...] (no [else]). *)
Definition select_mode `{Data} (p : Params) (m : loc) : M unit :=
  if String.eqb (mode p) "SN-S" then
    let* v := obsm_get m (rigid_key p) in obsm_set m (key_added p) v
  else if String.eqb (mode p) "SN-N" then
    let* v := obsm_get m (nonrigid_key p) in obsm_set m (key_added p) v
  else ret tt.

(** [if key is not None: m.uns[key] = v]. *)
Definition uns_set_opt `{Data} (m : loc) (key : option string) (v : uns_value) : M unit :=
  match key with
  | Some k => uns_set m k v
  | None => ret tt
  end.

(** One iteration of the loop of [morpho_align]. *)
Definition morpho_align_body `{Backend} (p : Params) (align_models : list loc)
    (pis : list ndarray) (i : nat) : M (list ndarray) :=
  let* modelA := list_get align_models i in
  let* modelB := list_get align_models (i + 1) in
  let* morpho_model := run_Morpho_pairwise modelB modelA (morpho_args p) in
  obsm_set modelB (rigid_key p) (ndarray_copy (optimal_RnA morpho_model)) >>
  obsm_set modelB (nonrigid_key p) (ndarray_copy (XAHat morpho_model)) >>
  select_mode p modelB >>
  uns_set_opt modelB (iter_key_added p) (UnsIter (iter_added morpho_model)) >>
  uns_set_opt modelB (vecfld_key_added p) (UnsVecFld (vecfld morpho_model)) >>
  let pis := pis ++ [transpose (P morpho_model)] in
  empty_cache (device p) >>
  ret pis.

Definition morpho_align `{Backend} (models : list loc) (p : Params)
    : M (list loc * list ndarray) :=
  let* align_models := traverse copy_model models in
  forM_ align_models (init_coords p) >>
  let* pis :=
    foldM (morpho_align_body p align_models)
      (_iteration (Z.of_nat (length align_models) - 1)%Z) [] in
  ret (align_models, pis).

(** One iteration of the loop of [morpho_align_ref]; the loop-carried locals
    are [align_models_ref], [pis] and [pis_ref]. *)
Definition morpho_align_ref_body `{Backend} (p : Params) (align_models : list loc)
    (acc : list loc * list ndarray * list ndarray) (i : nat)
    : M (list loc * list ndarray * list ndarray) :=
  let '(align_models_ref, pis, pis_ref) := acc in
  let* modelA_ref := list_get align_models_ref i in
  let* modelB_ref := list_get align_models_ref (i + 1) in
  let* morpho_model := run_Morpho_pairwise modelB_ref modelA_ref (morpho_args p) in
  obsm_set modelB_ref (rigid_key p) (ndarray_copy (optimal_RnA morpho_model)) >>
  obsm_set modelB_ref (nonrigid_key p) (ndarray_copy (XAHat morpho_model)) >>
  select_mode p modelB_ref >>
  let align_models_ref := <[i + 1 := modelB_ref]> align_models_ref in
  let pis_ref := pis_ref ++ [P morpho_model] in
  let* modelB := list_get align_models (i + 1) in
  let vf := vecfld morpho_model in
  match iter_key_added p with
  | Some k =>
      uns_set modelB_ref k (UnsIter (iter_added morpho_model)) >>
      uns_set modelB k (UnsIter (iter_added morpho_model))
  | None => ret tt
  end >>
  match vecfld_key_added p with
  | Some k =>
      uns_set modelB_ref k (UnsVecFld (vecfld morpho_model)) >>
      uns_set modelB k (UnsVecFld (vecfld morpho_model))
  | None => ret tt
  end >>
  let* quary_points := obsm_get modelB (key_added p) in
  let* (nonrigid, _, rigid) := call_BA_transform vf quary_points (device p) (dtype p) in
  obsm_set modelB (nonrigid_key p) nonrigid >>
  obsm_set modelB (rigid_key p) rigid >>
  select_mode p modelB >>
  let pis := pis ++ [P morpho_model] in
  ret (align_models_ref, pis, pis_ref).

Definition morpho_align_ref `{Backend} (models : list loc) (models_ref : option (list loc))
    (n_sampling : option Z) (sampling_method : string) (p : Params)
    : M (list loc * list loc * list ndarray * list ndarray) :=
  let* models_ref :=
    match models_ref with
    | None =>
        let* models_sampling := traverse copy_model models in
        call_downsampling models_sampling n_sampling sampling_method (spatial_key p)
    | Some models_ref => ret models_ref
    end in
  let* align_models := traverse copy_model models in
  forM_ align_models (init_coords p) >>
  let* align_models_ref := traverse copy_model models_ref in
  forM_ align_models_ref (init_coords p) >>
  let* (align_models_ref, pis, pis_ref) :=
    foldM (morpho_align_ref_body p align_models)
      (_iteration (Z.of_nat (length align_models) - 1)%Z) (align_models_ref, [], []) in
  ret (align_models, align_models_ref, pis, pis_ref).

(** ** What one pair leaves on the samples, as pure record updates

    These functions describe the effect of the straight-line code of the
    loop bodies on a single sample; the lemmas below relate them to the
    orchestrators. *)

(** The sample after the initialisation loop, when it has raw coordinates. *)
Definition init_sample `{Data} (p : Params) (a : AnnData) : option AnnData :=
  match obsm a !! spatial_key p with
  | Some x =>
      Some (set_obsm (nonrigid_key p) x (set_obsm (rigid_key p) x (set_obsm (key_added p) x a)))
  | None => None
  end.

(** The working coordinate chosen by [mode] among the two branches. *)
Definition choose `{Data} (p : Params) (rigid nonrigid : ndarray) (b : AnnData) : AnnData :=
  if String.eqb (mode p) "SN-S" then set_obsm (key_added p) rigid b
  else if String.eqb (mode p) "SN-N" then set_obsm (key_added p) nonrigid b
  else b.

Definition set_uns_opt `{Data} (key : option string) (v : uns_value) (a : AnnData) : AnnData :=
  match key with
  | Some k => set_uns k v a
  | None => a
  end.

Definition annotate `{Data} (p : Params) (r : MorphoModel) (a : AnnData) : AnnData :=
  set_uns_opt (vecfld_key_added p) (UnsVecFld (vecfld r))
    (set_uns_opt (iter_key_added p) (UnsIter (iter_added r)) a).

(** The moving sample of a pair after the engine has run on it. *)
Definition attach `{Data} (p : Params) (r : MorphoModel) (b : AnnData) : AnnData :=
  annotate p r
    (choose p (optimal_RnA r) (XAHat r)
       (set_obsm (nonrigid_key p) (XAHat r) (set_obsm (rigid_key p) (optimal_RnA r) b))).

(** The full-resolution sample of a pair after the field fitted on its
    landmark pair has been evaluated on it. *)
Definition attach_full `{Data} (p : Params) (r : MorphoModel) (nonrigid rigid : ndarray)
    (f : AnnData) : AnnData :=
  choose p rigid nonrigid
    (set_obsm (rigid_key p) rigid (set_obsm (nonrigid_key p) nonrigid (annotate p r f))).

(** One processed pair of the sequential chain: the two samples as the
    engine saw them, and what it returned. *)
Record Step `{Data} := mk_Step {
  fixed : AnnData;
  moving : AnnData;
  model : MorphoModel;
}.

(** One processed pair of the reference chain: the landmark pair, the
    engine's result, the full-resolution sample before the pair, and the
    evaluator's three outputs on it. *)
Record RefStep `{Data} := mk_RefStep {
  rs_step : Step;
  rs_full : AnnData;
  rs_query : ndarray;
  rs_nonrigid : ndarray;
  rs_displacement : ndarray;
  rs_rigid : ndarray;
}.

(** The events of pair [k] of [morpho_align], whose copies start at [base]. *)
Definition pair_events `{Data} (p : Params) (base : nat) (k : nat) (s : Step) : list event :=
  [EvMorpho (base + k + 1) (base + k) (moving s) (fixed s) (morpho_args p);
   EvEmptyCache (device p)].

Definition seq_events `{Data} (p : Params) (base : nat) (steps : list Step) : list event :=
  concat (imap (pair_events p base) steps).

(** The events of pair [k] of [morpho_align_ref], whose landmark copies
    start at [base_ref]. *)
Definition ref_pair_events `{Data} (p : Params) (base_ref : nat) (k : nat) (s : RefStep)
    : list event :=
  [EvMorpho (base_ref + k + 1) (base_ref + k) (moving (rs_step s)) (fixed (rs_step s))
     (morpho_args p);
   EvTransform (vecfld (model (rs_step s))) (rs_query s) (device p) (dtype p)].

Definition ref_events `{Data} (p : Params) (base_ref : nat) (steps : list RefStep) : list event :=
  concat (imap (ref_pair_events p base_ref) steps).

(** The engine calls of a trace, in call order. *)
Definition morpho_calls `{Data} (tr : list event)
    : list (loc * loc * AnnData * AnnData * MorphoArgs) :=
  omap (fun ev => match ev with
                  | EvMorpho la lb a b args => Some (la, lb, a, b, args)
                  | _ => None
                  end) tr.

Definition is_empty_cache `{Data} (ev : event) : bool :=
  match ev with EvEmptyCache _ => true | _ => false end.

(** The events a run added to the trace. *)
Definition new_events `{Data} (st st' : State) : list event :=
  drop (length (trace st)) (trace st').

(** Every reference of [models] points to an object of the heap. *)
Definition resolves `{Data} (st : State) (models : list loc) (samples : list AnnData) : Prop :=
  Forall2 (fun l a => heap st !! l = Some a) models samples.

(** ** The chain of pairs *)
(** The sample a pair leaves behind at the position of its moving sample. *)
Definition final_sample `{Data} (p : Params) (s : Step) : AnnData :=
  attach p (model s) (moving s).

(** [chain p prev rest steps]: the engine succeeded on every sample of
    [rest] in turn, each registered onto the aligned sample before it
    ([prev] for the first one), and [steps] records these pairs. *)
Inductive chain `{Backend} (p : Params) : AnnData -> list AnnData -> list Step -> Prop :=
  | chain_nil prev : chain p prev [] []
  | chain_cons prev b rest r steps :
      Morpho_pairwise b prev (morpho_args p) = inr r ->
      chain p (attach p r b) rest steps ->
      chain p prev (b :: rest) ({| fixed := prev; moving := b; model := r |} :: steps).

(** The chain over all the initialised samples, and the samples it leaves. *)
Definition chain_all `{Backend} (p : Params) (S0 : list AnnData) (steps : list Step) : Prop :=
  match S0 with
  | [] => steps = []
  | s0 :: rest => chain p s0 rest steps
  end.

Definition finals `{Data} (p : Params) (S0 : list AnnData) (steps : list Step) : list AnnData :=
  match S0 with
  | [] => []
  | s0 :: _ => s0 :: map (final_sample p) steps
  end.

(** The outcome of a recorded engine call. *)
Definition call_result `{Backend} (c : loc * loc * AnnData * AnnData * MorphoArgs)
    : exn + MorphoModel :=
  let '(_, _, a, b, args) := c in Morpho_pairwise a b args.

Definition call_ok `{Backend} (c : loc * loc * AnnData * AnnData * MorphoArgs) : Prop :=
  exists r, call_result c = inr r.

(** The full-resolution sample a pair of the reference chain leaves behind. *)
Definition final_full `{Data} (p : Params) (s : RefStep) : AnnData :=
  attach_full p (model (rs_step s)) (rs_nonrigid s) (rs_rigid s) (rs_full s).

(** [chain_ref p prev rest_ref rest_full steps]: for every sample of
    [rest_full] in turn, the engine succeeded on the landmark sample at the
    same position of [rest_ref], registered onto the aligned landmark sample
    before it, and the evaluator succeeded on the field it fitted, queried
    at the working coordinates of the full-resolution sample. *)
Inductive chain_ref `{Backend} (p : Params)
    : AnnData -> list AnnData -> list AnnData -> list RefStep -> Prop :=
  | chain_ref_nil prev rest_ref : chain_ref p prev rest_ref [] []
  | chain_ref_cons prev b rest_ref f rest_full r q nr disp rg steps :
      Morpho_pairwise b prev (morpho_args p) = inr r ->
      obsm f !! key_added p = Some q ->
      BA_transform (vecfld r) q (device p) (dtype p) = inr (nr, disp, rg) ->
      chain_ref p (attach p r b) rest_ref rest_full steps ->
      chain_ref p prev (b :: rest_ref) (f :: rest_full)
        ({| rs_step := {| fixed := prev; moving := b; model := r |};
            rs_full := f; rs_query := q;
            rs_nonrigid := nr; rs_displacement := disp; rs_rigid := rg |} :: steps).

Definition chain_ref_all `{Backend} (p : Params) (R0 F0 : list AnnData)
    (steps : list RefStep) : Prop :=
  match F0 with
  | [] => steps = []
  | _ :: rest_full =>
      match R0 with
      | [] => rest_full = [] /\ steps = []
      | r0 :: rest_ref => chain_ref p r0 rest_ref rest_full steps
      end
  end.

Definition finals_full `{Data} (p : Params) (F0 : list AnnData) (steps : list RefStep)
    : list AnnData :=
  match F0 with
  | [] => []
  | f0 :: _ => f0 :: map (final_full p) steps
  end.

Definition finals_ref `{Data} (p : Params) (R0 : list AnnData) (steps : list RefStep)
    : list AnnData :=
  match R0 with
  | [] => []
  | r0 :: rest_ref =>
      r0 :: map (fun s => final_sample p (rs_step s)) steps ++ drop (length steps) rest_ref
  end.

(** Why the loop of [morpho_align_ref] can raise [e] while [rest_full]
    remains to be processed against the landmark samples [rest_ref]. *)
Definition ref_loop_cause `{Backend} (p : Params) (rest_ref rest_full : list AnnData)
    (e : exn) : Prop :=
  (e = IndexError /\ length rest_ref < length rest_full) \/
  (exists a b, Morpho_pairwise b a (morpho_args p) = inl e) \/
  (exists vf q, BA_transform vf q (device p) (dtype p) = inl e) \/
  (e = KeyError (key_added p) /\ exists f, f ∈ rest_full /\ obsm f !! key_added p = None).

(** Where the landmark samples of [morpho_align_ref] come from: the
    caller's reference samples, or the downsampler applied to (copies of)
    the full-resolution samples [vals]. *)
Definition ref_source `{Backend} (st : State) (models_ref : option (list loc))
    (vals : list AnnData) (n_sampling : option Z) (sampling_method : string) (p : Params)
    (refvals : list AnnData) : Prop :=
  match models_ref with
  | Some refs => resolves st refs refvals
  | None => downsampling vals n_sampling sampling_method (spatial_key p) = inr refvals
  end.

(** The objects allocated while the landmark samples are derived. *)
Definition ref_extra `{Data} (models_ref : option (list loc)) (vals refvals : list AnnData)
    : list AnnData :=
  match models_ref with
  | Some _ => []
  | None => vals ++ refvals
  end.

(** The events recorded while the landmark samples are derived. *)
Definition ref_prelude `{Data} (models_ref : option (list loc)) (vals : list AnnData)
    (n_sampling : option Z) (sampling_method : string) (p : Params) : list event :=
  match models_ref with
  | Some _ => []
  | None => [EvDownsampling vals n_sampling sampling_method (spatial_key p)]
  end.

(** Why [morpho_align_ref] can raise [e]. *)
Definition ref_cause `{Backend} (st : State) (models_ref : option (list loc))
    (vals : list AnnData) (n_sampling : option Z) (sampling_method : string) (p : Params)
    (e : exn) : Prop :=
  (models_ref = None /\
   downsampling vals n_sampling sampling_method (spatial_key p) = inl e) \/
  (e = KeyError (spatial_key p) /\ mapM (init_sample p) vals = None) \/
  (exists refvals,
      ref_source st models_ref vals n_sampling sampling_method p refvals /\
      ((e = KeyError (spatial_key p) /\ mapM (init_sample p) refvals = None) \/
       (e = IndexError /\ length refvals < length vals /\ 2 <= length vals))) \/
  (exists a b, Morpho_pairwise b a (morpho_args p) = inl e) \/
  (exists vf q, BA_transform vf q (device p) (dtype p) = inl e).

Definition not_empty_cache `{Data} (ev : event) : Prop := is_empty_cache ev = false.

(** ** What a run establishes *)

(** [morpho_align] returned [res] in state [st']: the samples [vals] all had
    raw coordinates, the engine succeeded along the chain, and the heap has
    grown by the aligned copies. *)
Definition seq_ok `{Backend} (p : Params) (st : State) (vals : list AnnData)
    (res : list loc * list ndarray) (st' : State) : Prop :=
  exists S0 steps,
    mapM (init_sample p) vals = Some S0 /\
    chain_all p S0 steps /\
    res = (seq (length (heap st)) (length vals),
           map (fun s => transpose (P (model s))) steps) /\
    heap st' = heap st ++ finals p S0 steps /\
    trace st' = trace st ++ seq_events p (length (heap st)) steps.

(** [morpho_align] raised [e] in state [st']: a sample had no raw
    coordinates, or the last engine call recorded raised [e] after all
    earlier ones had succeeded. *)
Definition seq_err `{Backend} (p : Params) (st : State) (vals : list AnnData)
    (e : exn) (st' : State) : Prop :=
  (exists ext, heap st' = heap st ++ ext) /\
  ((e = KeyError (spatial_key p) /\ mapM (init_sample p) vals = None /\
    trace st' = trace st) \/
   (exists evs la lb a b,
       trace st' = trace st ++ evs ++ [EvMorpho la lb b a (morpho_args p)] /\
       Forall call_ok (morpho_calls evs) /\
       Morpho_pairwise b a (morpho_args p) = inl e)).

(** [morpho_align_ref] returned [res] in state [st']. *)
Definition ref_ok `{Backend} (p : Params) (st : State) (models_ref : option (list loc))
    (vals : list AnnData) (n_sampling : option Z) (sampling_method : string)
    (res : list loc * list loc * list ndarray * list ndarray) (st' : State) : Prop :=
  exists refvals F0 R0 steps,
    ref_source st models_ref vals n_sampling sampling_method p refvals /\
    mapM (init_sample p) vals = Some F0 /\
    mapM (init_sample p) refvals = Some R0 /\
    chain_ref_all p R0 F0 steps /\
    let extra := ref_extra models_ref vals refvals in
    let baseF := length (heap st) + length extra in
    let baseR := baseF + length vals in
    res = (seq baseF (length vals), seq baseR (length refvals),
           map (fun s => P (model (rs_step s))) steps,
           map (fun s => P (model (rs_step s))) steps) /\
    heap st' = heap st ++ extra ++ finals_full p F0 steps ++ finals_ref p R0 steps /\
    trace st' = trace st ++
      ref_prelude models_ref vals n_sampling sampling_method p ++
      ref_events p baseR steps.

(** [morpho_align_ref] raised [e] in state [st']. *)
Definition ref_err `{Backend} (p : Params) (st : State) (models_ref : option (list loc))
    (vals : list AnnData) (n_sampling : option Z) (sampling_method : string)
    (e : exn) (st' : State) : Prop :=
  (exists ext, heap st' = heap st ++ ext) /\
  (exists evs, trace st' = trace st ++ evs /\ Forall not_empty_cache evs) /\
  ref_cause st models_ref vals n_sampling sampling_method p e.

(** The caller's reference samples, when given, point into the heap. *)
Definition refs_resolve `{Data} (st : State) (models_ref : option (list loc)) : Prop :=
  match models_ref with
  | Some refs => exists rv, resolves st refs rv
  | None => True
  end.

(** [m[key] = v] when [key] is not [None], nothing otherwise. *)
Definition write_opt `{Data} (key : option string) (v : uns_value)
    (m : gmap string uns_value) : gmap string uns_value :=
  match key with
  | Some k => <[k := v]> m
  | None => m
  end.

(** A sample carries the three coordinate variants: working, rigid and
    non-rigid. *)
Definition has_variants `{Data} (p : Params) (b : AnnData) : Prop :=
  is_Some (obsm b !! key_added p) /\
  is_Some (obsm b !! rigid_key p) /\
  is_Some (obsm b !! nonrigid_key p).

(** Reassociating the segments of a heap. *)
Ltac list_assoc := repeat first [rewrite <- app_assoc | progress simpl]; try done.

(** ** Weakest preconditions

    [wp m Q E st]: running [m] from [st] ends in a state satisfying [Q] with
    the value returned, or [E] with the exception raised. *)
Definition wp `{Data} {A} (m : M A) (Q : A -> State -> Prop) (E : exn -> State -> Prop)
    (st : State) : Prop :=
  match m st with
  | (st', inr a) => Q a st'
  | (st', inl e) => E e st'
  end.

(** ** Frames and calls, for the edge cases of the orchestrators *)

(** [b] is [a] up to the three coordinate slots and the annotations. *)
Definition same_outside_coords `{Data} (p : Params) (a b : AnnData) : Prop :=
  X b = X a /\ var_names b = var_names a /\
  forall key,
    key <> key_added p -> key <> rigid_key p -> key <> nonrigid_key p ->
    obsm b !! key = obsm a !! key.

(** The two samples of a recorded engine call, the moving one first. *)
Definition call_samples `{Data} (c : loc * loc * AnnData * AnnData * MorphoArgs)
    : AnnData * AnnData :=
  let '(_, _, a, b, _) := c in (a, b).

(** * The logger of [spateo/external/lack.py]

    [Logger] wraps a logger of Python's [logging] module that writes to
    [sys.stdout] through one stream handler, and keeps a timestamp for
    [log_time]; [LoggerManager] owns a main logger and a timer logger and
    provides [progress_logger], the generator that drives the loops of the
    orchestrators.  What is written to [sys.stdout] and what [time.time()]
    returns are kept in a [World]. *)

(** ** Python values the logger computes with *)

Inductive pyexn :=
  | AssertionError
  | ZeroDivisionError
  | OverflowError
  | NotImplementedError
  | RuntimeError (msg : string)
  | TypeError (msg : string).

(** ["\r"] and ["\n"]. *)
Definition CR : string := String "013"%char EmptyString.
Definition LF : string := String "010"%char EmptyString.

(** A Python [int] as a number to divide: an integer with exponent 0. *)
Definition spec_of_int (z : Z) : spec_float :=
  match z with
  | Z0 => S754_zero false
  | Zpos m => S754_finite false m 0
  | Zneg m => S754_finite true m 0
  end.

(** The double nearest to the quotient of the integers [a] and [b], ties
    to even, whatever their size: [0 / b] has the sign of [b]. *)
Definition quotient (a b : Z) : float :=
  SF2Prim (SFdiv prec emax (spec_of_int a) (spec_of_int b)).

(** The quotient of [a] and [b] rounds to a double beyond the largest one,
    [2^1024 - 2^971]: it is at least half a unit in the last place above
    it. *)
Definition overflows (a b : Z) : bool :=
  ((2 ^ 1024 - 2 ^ 970) * Z.abs b <=? Z.abs a)%Z.

(** [a / b] on two Python [int]s: the correctly rounded quotient;
    [ZeroDivisionError] for a zero divisor, [OverflowError] ("integer
    division result too large for a float") when no double is large
    enough. *)
Definition truediv (a b : Z) : pyexn + float :=
  if (b =? 0)%Z then inl ZeroDivisionError
  else if overflows a b then inl OverflowError
  else inr (quotient a b).

(** [str(n)] for [n >= 0]. *)
Definition decimal (n : Z) : string := NilEmpty.string_of_uint (N.to_uint (Z.to_N n)).

Definition pad4 (n : Z) : string :=
  let s := decimal n in
  String.concat "" (replicate (4 - String.length s) "0") +:+ s.

Definition round_half_even (num den : Z) : Z :=
  let q := (num / den)%Z in
  let r := (num mod den)%Z in
  if (2 * r <? den)%Z then q
  else if (den <? 2 * r)%Z then (q + 1)%Z
  else if Z.even q then q else (q + 1)%Z.

(** ["%.4f" % x]: the decimal expansion of the exact value of [x], rounded
    to four places. *)
Definition format_4f (x : float) : string :=
  match Prim2SF x with
  | S754_nan => "nan"
  | S754_infinity s => if s then "-inf" else "inf"
  | S754_zero s => if s then "-0.0000" else "0.0000"
  | S754_finite s m e =>
      let num := (Z.pos m * 10000 * 2 ^ Z.max e 0)%Z in
      let den := (2 ^ Z.max (- e) 0)%Z in
      let q := round_half_even num den in
      (if s then "-" else "") +:+ decimal (q / 10000) +:+ "." +:+ pad4 (q mod 10000)
  end.

(** [s * n] on a string: empty when [n <= 0]. *)
Definition str_mul (s : string) (n : Z) : string :=
  String.concat "" (replicate (Z.to_nat n) s).

(** [s[1:]]. *)
Definition str_tail (s : string) : string :=
  match s with
  | EmptyString => EmptyString
  | String _ s' => s'
  end.

(** The levels of Python's [logging] module. *)
Module _logging.
Definition NOTSET : Z := 0.
Definition DEBUG : Z := 10.
Definition INFO : Z := 20.
Definition WARNING : Z := 30.
Definition ERROR : Z := 40.
Definition CRITICAL : Z := 50.
End _logging.

(** ** [format_logging_message] *)

Definition format_logging_message (msg : string) (logging_level : Z)
    (indent_level : Z) (indent_space_num : Z) : string :=
  let indent_str := str_mul "-" indent_space_num in
  let prefix := str_mul indent_str indent_level in
  let prefix := "|" +:+ str_tail prefix in
  let prefix :=
    if (logging_level =? _logging.INFO)%Z then prefix +:+ ">"
    else if (logging_level =? _logging.WARNING)%Z then prefix +:+ "?"
    else if (logging_level =? _logging.CRITICAL)%Z then prefix +:+ "!!"
    else if (logging_level =? _logging.DEBUG)%Z then prefix +:+ ">>>"
    else prefix in
  let new_msg := prefix +:+ " " +:+ msg in
  new_msg.

(** ** The world, and the monad of the logger *)

(** [stdout]: the chunks written to [sys.stdout], oldest first.  [clock]
    and [ticks]: the [k]-th call of [time.time()] returns [clock k], and
    [ticks] calls have been made.  [parent_levels]: the hierarchy of
    [logging] as the loggers find it, namely, for the name of a logger, the
    effective level of its parent; for a name without dots the parent is
    the root logger, which [logging] creates at [WARNING]. *)
Record World := mk_World {
  stdout : list string;
  clock : nat -> float;
  ticks : nat;
  parent_levels : string -> Z;
}.

Definition write (chunk : string) (w : World) : World :=
  {| stdout := stdout w ++ [chunk]; clock := clock w; ticks := ticks w;
     parent_levels := parent_levels w |}.

Definition tick (w : World) : World :=
  {| stdout := stdout w; clock := clock w; ticks := S (ticks w);
     parent_levels := parent_levels w |}.

(** Computations on an object of type [S] in the world, which return or
    raise. *)
Definition LM (S A : Type) : Type := S * World -> S * World * (pyexn + A).

Definition lm_ret {S A} (a : A) : LM S A := fun sw => (sw, inr a).

Definition lm_bind {S A B} (m : LM S A) (f : A -> LM S B) : LM S B :=
  fun sw =>
    match m sw with
    | (sw', inr a) => f a sw'
    | (sw', inl e) => (sw', inl e)
    end.

Definition lm_raise {S A} (e : pyexn) : LM S A := fun sw => (sw, inl e).

Definition lm_lift {S A} (r : pyexn + A) : LM S A := fun sw => (sw, r).

Definition lm_get {S} : LM S S := fun sw => (sw, inr sw.1).

Definition lm_modify {S} (f : S -> S) : LM S unit := fun sw => ((f sw.1, sw.2), inr tt).

(** [time.time()]. *)
Definition time_time {S} : LM S float :=
  fun sw => ((sw.1, tick sw.2), inr (clock sw.2 (ticks sw.2))).

Declare Scope lack_scope.
Delimit Scope lack_scope with lack.
Notation "'let*' x := c1 'in' c2" := (lm_bind c1 (fun x => c2))
  (at level 10, x pattern, c1 at level 100, c2 at level 200) : lack_scope.
Notation "c1 >> c2" := (lm_bind c1 (fun _ => c2))
  (at level 100, c2 at level 200, right associativity) : lack_scope.

(** ** Calls with positional and keyword arguments

    The helpers that report an insertion pass their arguments on by
    position and by keyword; which parameter receives which value is
    decided by Python's binding of arguments, modelled here for functions
    declared as [def f(self, p1, ..., pn=dn, *args, **kwargs)]. *)

(** The values these helpers are called with: strings, integers, and other
    objects, of which only what [str()] returns matters. *)
Inductive pyval :=
  | PStr (s : string)
  | PInt (n : Z)
  | PObj (repr : string).

(** [str(v)]. *)
Definition py_str (v : pyval) : string :=
  match v with
  | PStr s => s
  | PInt n => if (n <? 0)%Z then "-" +:+ decimal (- n) else decimal n
  | PObj repr => repr
  end.

(** The parameters of a function after [self], each with its default
    value if it has one. *)
Definition parameters : Type := list (string * option pyval).

(** Look-up and update in a list of named values. *)
Fixpoint named_get {V} (name : string) (l : list (string * V)) : option V :=
  match l with
  | [] => None
  | (k, v) :: l => if String.eqb k name then Some v else named_get name l
  end.

(** The arguments of a call once bound: the values of the parameters, the
    surplus positional arguments ([*args]) and the surplus keyword
    arguments ([**kwargs]). *)
Record bound_arguments := mk_bound {
  bound : list (string * pyval);
  star_args : list pyval;
  star_kwargs : list (string * pyval);
}.

(** Positional arguments fill the parameters from the left; what is left
    over goes to [*args]. *)
Fixpoint bind_positional (params : parameters) (positional : list pyval)
    (acc : list (string * pyval)) : list (string * pyval) * list pyval :=
  match params, positional with
  | (name, _) :: params, v :: positional =>
      bind_positional params positional (acc ++ [(name, v)])
  | _, _ => (acc, positional)
  end.

(** Keyword arguments, in the order of the call: one that names a
    parameter which already has a value is refused, one that names no
    parameter goes to [**kwargs]. *)
Fixpoint bind_keywords (params : parameters) (keywords : list (string * pyval))
    (acc : list (string * pyval)) (kwargs : list (string * pyval))
    : pyexn + (list (string * pyval) * list (string * pyval)) :=
  match keywords with
  | [] => inr (acc, kwargs)
  | (name, v) :: keywords =>
      match named_get name params with
      | Some _ =>
          match named_get name acc with
          | Some _ =>
              inl (TypeError ("got multiple values for argument '" +:+ name +:+ "'"))
          | None => bind_keywords params keywords (acc ++ [(name, v)]) kwargs
          end
      | None => bind_keywords params keywords acc (kwargs ++ [(name, v)])
      end
  end.

(** Parameters without a value take their default; one that has none is
    missing. *)
Fixpoint bind_defaults (params : parameters) (acc : list (string * pyval))
    : pyexn + list (string * pyval) :=
  match params with
  | [] => inr acc
  | (name, dflt) :: params =>
      match named_get name acc, dflt with
      | Some _, _ => bind_defaults params acc
      | None, Some d => bind_defaults params (acc ++ [(name, d)])
      | None, None =>
          inl (TypeError ("missing 1 required positional argument: '" +:+ name +:+ "'"))
      end
  end.

Definition bind_arguments (params : parameters) (positional : list pyval)
    (keywords : list (string * pyval)) : pyexn + bound_arguments :=
  let '(acc, args) := bind_positional params positional [] in
  match bind_keywords params keywords acc [] with
  | inl e => inl e
  | inr (acc, kwargs) =>
      match bind_defaults params acc with
      | inl e => inl e
      | inr acc => inr (mk_bound acc args kwargs)
      end
  end.

(** The value of a bound parameter. *)
Definition argument (name : string) (b : bound_arguments) : pyval :=
  default (PObj "") (named_get name (bound b)).

(** [(key, adata_attr="obsm", indent_level=1, *args, **kwargs)]: the
    parameters of [Logger.info_insert_adata] and of
    [LoggerManager.main_info_insert_adata]. *)
Definition info_insert_adata_params : parameters :=
  [("key", None); ("adata_attr", Some (PStr "obsm")); ("indent_level", Some (PInt 1))].

(** ** [class Logger] *)

Module Logger.
Local Open Scope lack_scope.

(** [level] and [terminator] are those of the [logging] logger of the
    namespace and of its stream handler ([self.logger] and
    [self.logger_stream_handler]), and [parent_level] is the effective
    level of the parent of that logger, which no method here changes; the
    other fields are the attributes of the object. *)
Record t := mk {
  namespace : string;
  level : Z;
  parent_level : Z;
  terminator : string;
  previous_timestamp : float;
  time_passed : float;
  report_hook_percent_state : option float;
}.

Definition set_namespace (v : string) (self : t) : t :=
  mk v (level self) (parent_level self) (terminator self) (previous_timestamp self)
    (time_passed self) (report_hook_percent_state self).

Definition set_level (v : Z) (self : t) : t :=
  mk (namespace self) v (parent_level self) (terminator self) (previous_timestamp self)
    (time_passed self) (report_hook_percent_state self).

Definition set_terminator (v : string) (self : t) : t :=
  mk (namespace self) (level self) (parent_level self) v (previous_timestamp self)
    (time_passed self) (report_hook_percent_state self).

Definition set_time (now passed : float) (self : t) : t :=
  mk (namespace self) (level self) (parent_level self) (terminator self) now passed
    (report_hook_percent_state self).

Definition set_report_hook_percent_state (v : option float) (self : t) : t :=
  mk (namespace self) (level self) (parent_level self) (terminator self)
    (previous_timestamp self) (time_passed self) v.

(** [self.logger.getEffectiveLevel()]: the level of the logger, or that
    of its parent when its own is [NOTSET]. *)
Definition getEffectiveLevel (self : t) : Z :=
  if (level self =? _logging.NOTSET)%Z then parent_level self else level self.

(** [self.logger.isEnabledFor(lvl)], [logging.disable] being left at its
    default. *)
Definition isEnabledFor (self : t) (lvl : Z) : bool :=
  (getEffectiveLevel self <=? lvl)%Z.

(** [self.logger.log(lvl, msg)]: when the logger is enabled for [lvl], the
    handler writes the message, formatted as ["%(message)s"], and its
    terminator. *)
Definition log (lvl : Z) (msg : string) : LM t unit :=
  fun sw =>
    if isEnabledFor sw.1 lvl
    then ((sw.1, write (msg +:+ terminator sw.1) sw.2), inr tt)
    else (sw, inr tt).

(** [namespaced(namespace)(func)(...)]: the namespace is restored in a
    [finally] clause. *)
Definition namespaced {A} (namespace' : string) (func : LM t A) : LM t A :=
  fun sw =>
    let previous := namespace sw.1 in
    let '((self, w), r) := func (set_namespace namespace' sw.1, sw.2) in
    ((set_namespace previous self, w), r).

(** [with self.namespaced_context(namespace): body]: the generator behind
    the context manager has no [try]; an exception of the body is thrown
    into it at its [yield] and leaves it at once. *)
Definition namespaced_context {A} (namespace' : string) (body : LM t A) : LM t A :=
  fun sw =>
    let previous := namespace sw.1 in
    match body (set_namespace namespace' sw.1, sw.2) with
    | ((self, w), inr a) => ((set_namespace previous self, w), inr a)
    | ((self, w), inl e) => ((self, w), inl e)
    end.

Definition namespace_message (message : string) : LM t string :=
  let* self := lm_get in
  lm_ret ("[" +:+ namespace self +:+ "] " +:+ message).

Definition setLevel (lvl : Z) : LM t unit := lm_modify (set_level lvl).

Definition debug (message : string) (indent_level : Z) : LM t unit :=
  let message := format_logging_message message _logging.DEBUG indent_level 6 in
  log _logging.DEBUG message.

Definition info (message : string) (indent_level : Z) : LM t unit :=
  let message := format_logging_message message _logging.INFO indent_level 6 in
  log _logging.INFO message.

Definition warning (message : string) (indent_level : Z) : LM t unit :=
  let message := format_logging_message message _logging.WARNING indent_level 6 in
  log _logging.WARNING message.

Definition critical (message : string) (indent_level : Z) : LM t unit :=
  let message := format_logging_message message _logging.CRITICAL indent_level 6 in
  log _logging.CRITICAL message.

Definition error (message : string) (indent_level : Z) : LM t unit :=
  let message := format_logging_message message _logging.ERROR indent_level 6 in
  log _logging.ERROR message.

Definition info_insert_adata (key adata_attr : string) (indent_level : Z) : LM t unit :=
  let message := "<insert> " +:+ key +:+ " to " +:+ adata_attr +:+ " in AnnData Object." in
  let message := format_logging_message message _logging.INFO indent_level 6 in
  log _logging.INFO message.

(** A call of [self.info_insert_adata] with the arguments [positional]
    and [keywords].  The message is
    built and formatted before the [logging] logger is called, so that an
    [indent_level] that is not an integer is refused first; surplus
    arguments would be handed to the [logging] logger, whose treatment of
    them is outside this model: the result is [None] then. *)
Definition call_info_insert_adata (positional : list pyval)
    (keywords : list (string * pyval)) : LM t (option unit) :=
  let* b := lm_lift (bind_arguments info_insert_adata_params positional keywords) in
  match argument "indent_level" b with
  | PInt indent_level =>
      match star_args b, star_kwargs b with
      | [], [] =>
          info_insert_adata (py_str (argument "key" b)) (py_str (argument "adata_attr" b))
            indent_level >>
          lm_ret (Some tt)
      | _, _ => lm_ret None
      end
  | _ => lm_raise (TypeError "can't multiply sequence by non-int")
  end.

(** What [str(self)] returns for the logger. *)
Definition self_repr : string := "<Logger object>".

(** [info_insert_adata_var(key, indent_level)] and its siblings: [self] is
    passed a second time, by position, and the indentation is the
    constant [1]. *)
Definition info_insert_adata_var (key indent_level : pyval) : LM t (option unit) :=
  call_info_insert_adata [PObj self_repr; key]
    [("adata_attr", PStr "var"); ("indent_level", PInt 1)].

Definition info_insert_adata_obsm (key indent_level : pyval) : LM t (option unit) :=
  call_info_insert_adata [PObj self_repr; key]
    [("adata_attr", PStr "obsm"); ("indent_level", PInt 1)].

Definition info_insert_adata_uns (key indent_level : pyval) : LM t (option unit) :=
  call_info_insert_adata [PObj self_repr; key]
    [("adata_attr", PStr "uns"); ("indent_level", PInt 1)].

Definition log_time : LM t float :=
  let* now := time_time in
  let* self := lm_get in
  let passed := PrimFloat.sub now (previous_timestamp self) in
  lm_modify (set_time now passed) >>
  lm_ret passed.

Definition report_progress (percent : option float) (count total : option Z)
    (progress_name : string) (indent_level : Z) : LM t unit :=
  let* percent :=
    match percent with
    | Some percent => lm_ret percent
    | None =>
        match count, total with
        | Some count, Some total =>
            let* ratio := lm_lift (truediv count total) in
            lm_ret (PrimFloat.mul ratio (100%float))
        | _, _ => lm_raise AssertionError
        end
    end in
  let* self := lm_get in
  let saved_terminator := terminator self in
  lm_modify (set_terminator "") >>
  let progress_name :=
    if String.eqb progress_name "" then progress_name
    else "[" +:+ progress_name +:+ "] " in
  let message :=
    CR +:+ format_logging_message
             (progress_name +:+ "in progress: " +:+ format_4f percent +:+ "%")
             _logging.INFO indent_level 6 in
  log _logging.INFO message >>
  lm_modify (set_terminator saved_terminator).

Definition finish_progress (progress_name time_unit : string) (indent_level : Z)
    : LM t unit :=
  log_time >>
  report_progress (Some (100%float)) None None progress_name 1 >>
  let* self := lm_get in
  let saved_terminator := terminator self in
  lm_modify (set_terminator "") >>
  log _logging.INFO LF >>
  lm_modify (set_terminator saved_terminator) >>
  let* self := lm_get in
  if String.eqb time_unit "s" then
    info ("[" +:+ progress_name +:+ "] finished [" +:+ format_4f (time_passed self) +:+ "s]")
      indent_level
  else if String.eqb time_unit "ms" then
    info ("[" +:+ progress_name +:+ "] finished ["
          +:+ format_4f (PrimFloat.mul (time_passed self) (1000%float)) +:+ "ms]")
      indent_level
  else lm_raise NotImplementedError.

Definition request_report_hook (bn rs ts : Z) : LM t unit :=
  let* self := lm_get in
  match report_hook_percent_state self with
  | None => lm_modify (set_report_hook_percent_state (Some (0%float)))
  | Some _ => lm_ret tt
  end >>
  let* cur_percent := lm_lift (truediv (rs * bn) ts) in
  let* self := lm_get in
  let state := default (0%float) (report_hook_percent_state self) in
  (if PrimFloat.ltb 0x1.47ae147ae147bp-7 (PrimFloat.sub cur_percent state) then
     report_progress None (Some (rs * bn)%Z) (Some ts) "" 1 >>
     lm_modify (set_report_hook_percent_state (Some cur_percent))
   else lm_ret tt) >>
  if (ts <=? rs * bn)%Z then
    lm_modify (set_report_hook_percent_state None) >>
    finish_progress "download" "s" 1
  else lm_ret tt.

(** [Logger(namespace, level)], for a namespace whose [logging] logger has
    no handler yet: the new stream handler has the terminator ["\n"], and
    the logger has the level [NOTSET] until the last statement sets it. *)
Definition __init__ (namespace' : string) (level' : option Z) (w : World) : t * World :=
  let self := mk namespace' _logging.NOTSET (parent_levels w namespace') LF
                (clock w (ticks w)) 0%float None in
  let '(sw, _) := log_time (self, tick w) in
  (set_level (default _logging.INFO level') sw.1, sw.2).
End Logger.

(** ** [class LoggerManager] *)

Module LoggerManager.
Local Open Scope lack_scope.

Record t := mk {
  main_logger : Logger.t;
  temp_timer_logger : Logger.t;
  namespace : string;
}.

(** A reference to one of the two loggers the manager owns. *)
Inductive logger_ref :=
  | MainLogger
  | TempTimerLogger.

Definition get_logger (r : logger_ref) (self : t) : Logger.t :=
  match r with
  | MainLogger => main_logger self
  | TempTimerLogger => temp_timer_logger self
  end.

Definition set_logger (r : logger_ref) (lg : Logger.t) (self : t) : t :=
  match r with
  | MainLogger => mk lg (temp_timer_logger self) (namespace self)
  | TempTimerLogger => mk (main_logger self) lg (namespace self)
  end.

(** A method call on one of the loggers. *)
Definition on {A} (r : logger_ref) (m : LM Logger.t A) : LM t A :=
  fun sw =>
    let '((lg, w), res) := m (get_logger r sw.1, sw.2) in
    ((set_logger r lg sw.1, w), res).

Definition __init__ (namespace' temp_timer_logger' : string) (w : World) : t * World :=
  let '(main, w) := Logger.__init__ namespace' None w in
  let '(temp, w) := Logger.__init__ temp_timer_logger' None w in
  (mk main temp namespace', w).

(** The frame of the generator [progress_logger]: not started, suspended
    at its [yield], or finished. *)
Inductive frame (A : Type) :=
  | Created
  | Suspended (logger : logger_ref) (iterator : list A) (i : nat)
      (prev_progress_percent : float)
  | Closed.
Arguments Created {A}.
Arguments Suspended {A} logger iterator i prev_progress_percent.
Arguments Closed {A}.

(** The generator object: the arguments of the call and the frame. *)
Record gen (A : Type) := mk_gen {
  generator : list A;
  logger : option logger_ref;
  progress_name : string;
  indent_level : Z;
  state : frame A;
}.
Arguments mk_gen {A} generator logger progress_name indent_level state.
Arguments generator {A} g.
Arguments logger {A} g.
Arguments progress_name {A} g.
Arguments indent_level {A} g.
Arguments state {A} g.

Definition set_state {A} (f : frame A) (g : gen A) : gen A :=
  mk_gen (generator g) (logger g) (progress_name g) (indent_level g) f.

(** [progress_logger(generator, logger, progress_name, indent_level)]:
    calling a generator function runs none of its body. *)
Definition progress_logger {A} (generator : list A) (logger : option logger_ref)
    (progress_name : string) (indent_level : Z) : gen A :=
  mk_gen generator logger progress_name indent_level Created.

(** The body from the test of the [while] loop to the next [yield], or to
    the end. *)
Definition resume {A} (g : gen A) (logger : logger_ref) (iterator : list A) (i : nat)
    (prev_progress_percent : float) : LM t (option A * gen A) :=
  if i <? length (generator g) then
    let i := i + 1 in
    let* ratio := lm_lift (truediv (Z.of_nat i) (Z.of_nat (length (generator g)))) in
    let new_progress_percent := PrimFloat.mul ratio (100%float) in
    let* prev_progress_percent :=
      if PrimFloat.ltb (1%float)
           (PrimFloat.sub new_progress_percent prev_progress_percent)
         || PrimFloat.leb (100%float) new_progress_percent
      then
        on logger
          (Logger.report_progress None (Some (Z.of_nat i))
             (Some (Z.of_nat (length (generator g))))
             (progress_name g) (indent_level g)) >>
        lm_ret new_progress_percent
      else lm_ret prev_progress_percent in
    match iterator with
    | x :: iterator =>
        lm_ret (Some x, set_state (Suspended logger iterator i prev_progress_percent) g)
    | [] => lm_raise (RuntimeError "generator raised StopIteration")
    end
  else
    on logger (Logger.finish_progress (progress_name g) "s" (indent_level g)) >>
    lm_ret (None, set_state Closed g).

(** [next(g)]: the item yielded, or [None] for [StopIteration]. *)
Definition next {A} (g : gen A) : LM t (option A * gen A) :=
  match state g with
  | Created =>
      let logger := default TempTimerLogger (logger g) in
      let iterator := generator g in
      on logger Logger.log_time >>
      resume g logger iterator 0 (0%float)
  | Suspended logger iterator i prev_progress_percent =>
      resume g logger iterator i prev_progress_percent
  | Closed => lm_ret (None, g)
  end.

(** [list(g)], by at most [fuel] calls of [next]; [None] when the fuel
    runs out first. *)
Fixpoint collect {A} (fuel : nat) (g : gen A) : LM t (option (list A)) :=
  match fuel with
  | 0 => lm_ret None
  | S fuel =>
      let* (item, g) := next g in
      match item with
      | None => lm_ret (Some [])
      | Some x =>
          let* rest := collect fuel g in
          lm_ret (cons x <$> rest)
      end
  end.

(** [k] calls of [next], as a loop left by [break] after [k] items
    would make; the items they yielded and the generator as it is then. *)
Fixpoint advance {A} (k : nat) (g : gen A) : LM t (list A * gen A) :=
  match k with
  | 0 => lm_ret ([], g)
  | S k =>
      let* (item, g) := next g in
      match item with
      | None => lm_ret ([], g)
      | Some x =>
          let* (rest, g) := advance k g in
          lm_ret (x :: rest, g)
      end
  end.

Definition main_set_level (lvl : Z) : LM t unit := on MainLogger (Logger.setLevel lvl).

Definition main_info (message : string) (indent_level : Z) : LM t unit :=
  on MainLogger (Logger.info message indent_level).

Definition main_debug (message : string) (indent_level : Z) : LM t unit :=
  on MainLogger (Logger.debug message indent_level).

Definition main_warning (message : string) (indent_level : Z) : LM t unit :=
  on MainLogger (Logger.warning message indent_level).

Definition main_critical (message : string) (indent_level : Z) : LM t unit :=
  on MainLogger (Logger.critical message indent_level).

Definition main_tqdm {A} (generator : list A) (desc : string) (indent_level : Z)
    (logger : option logger_ref) : gen A :=
  let logger := default MainLogger logger in
  progress_logger generator (Some logger) desc indent_level.

Definition main_log_time : LM t unit := on MainLogger Logger.log_time >> lm_ret tt.

Definition main_silence : LM t unit :=
  on MainLogger (Logger.setLevel (_logging.CRITICAL + 100)).

Definition main_finish_progress (progress_name : string) : LM t unit :=
  on MainLogger (Logger.finish_progress progress_name "s" 1).

(** What [str(self)] returns for the manager. *)
Definition self_repr : string := "<LoggerManager object>".

(** A call of [self.main_info_insert_adata] with the arguments
    [positional] and [keywords]: the key and
    the surplus positional arguments are passed on by position, the
    attribute and the indentation by keyword. *)
Definition main_info_insert_adata (positional : list pyval)
    (keywords : list (string * pyval)) : LM t (option unit) :=
  let* b := lm_lift (bind_arguments info_insert_adata_params positional keywords) in
  on MainLogger
    (Logger.call_info_insert_adata
       (argument "key" b :: star_args b)
       ([("adata_attr", argument "adata_attr" b);
         ("indent_level", argument "indent_level" b)] ++ star_kwargs b)).

(** [main_info_insert_adata_var(key, indent_level)]: [self] is passed a
    second time, by position. *)
Definition main_info_insert_adata_var (key indent_level : pyval) : LM t (option unit) :=
  main_info_insert_adata [PObj self_repr; key; PStr "var"; indent_level] [].

Definition main_info_insert_adata_uns (key indent_level : pyval) : LM t (option unit) :=
  main_info_insert_adata [key; PStr "uns"; indent_level] [].

Definition main_info_insert_adata_obsm (key indent_level : pyval) : LM t (option unit) :=
  main_info_insert_adata [key; PStr "obsm"; indent_level] [].

Definition main_info_insert_adata_obs (key indent_level : pyval) : LM t (option unit) :=
  main_info_insert_adata [key; PStr "obs"; indent_level] [].

Definition main_info_insert_adata_layer (key indent_level : pyval) : LM t (option unit) :=
  main_info_insert_adata [key; PStr "layers"; indent_level] [].

Definition main_info_verbose_timeit (msg : string) : LM t unit :=
  on MainLogger (Logger.info msg 1).
End LoggerManager.

(** ** What the logger wrote and read *)

(** The chunks written between two worlds, and the clock readings made. *)
Definition written (w w' : World) : list string := drop (length (stdout w)) (stdout w').

Definition readings (w w' : World) : nat := ticks w' - ticks w.

(** The chunk [report_progress] writes for [percent]: it returns to the
    start of the line and does not end it. *)
Definition progress_line (percent : float) (progress_name : string) (indent_level : Z)
    : string :=
  CR +:+ format_logging_message
           ((if String.eqb progress_name "" then progress_name
             else "[" +:+ progress_name +:+ "] ")
            +:+ "in progress: " +:+ format_4f percent +:+ "%")
           _logging.INFO indent_level 6.

(** The line [finish_progress] writes last, for the time unit ["s"]. *)
Definition finished_line (progress_name : string) (passed : float) (indent_level : Z)
    (terminator : string) : string :=
  format_logging_message
    ("[" +:+ progress_name +:+ "] finished [" +:+ format_4f passed +:+ "s]")
    _logging.INFO indent_level 6 +:+ terminator.

(** The line that reports the insertion of [key] into [adata_attr]. *)
Definition insert_line (key adata_attr : string) (indent_level : Z) (terminator : string)
    : string :=
  format_logging_message
    ("<insert> " +:+ key +:+ " to " +:+ adata_attr +:+ " in AnnData Object.")
    _logging.INFO indent_level 6 +:+ terminator.

(** A logger writes [chunk] when it is enabled for [lvl]. *)
Definition write_if (lg : Logger.t) (lvl : Z) (chunk : string) (w : World) : World :=
  if Logger.isEnabledFor lg lvl then write chunk w else w.

(** What a logger enabled for [lvl] writes, and a silent one does not. *)
Definition written_if (lg : Logger.t) (lvl : Z) (chunks : list string) : list string :=
  if Logger.isEnabledFor lg lvl then chunks else [].

(** The same logger up to its timestamp and the time it measured. *)
Definition same_but_time (lg lg' : Logger.t) : Prop :=
  Logger.namespace lg' = Logger.namespace lg /\
  Logger.level lg' = Logger.level lg /\
  Logger.parent_level lg' = Logger.parent_level lg /\
  Logger.terminator lg' = Logger.terminator lg /\
  Logger.report_hook_percent_state lg' = Logger.report_hook_percent_state lg.

(** A progress line: it starts with a carriage return and the bar of the
    message prefix. *)
Definition is_progress_line (chunk : string) : Prop :=
  exists rest, chunk = CR +:+ "|" +:+ rest.

(** The markers [format_logging_message] knows. *)
Definition level_marker (logging_level : Z) : string :=
  if (logging_level =? _logging.INFO)%Z then ">"
  else if (logging_level =? _logging.WARNING)%Z then "?"
  else if (logging_level =? _logging.CRITICAL)%Z then "!!"
  else if (logging_level =? _logging.DEBUG)%Z then ">>>"
  else "".

(** * The vector-field models of
      [spateo/tdr/models/models_migration/morphofield_model.py]

    [construct_field] and [construct_field_plain] turn a point cloud that
    carries a vector per point (the field fitted by the alignment, under
    [vf_key]) into the arguments of the mesh builders [construct_arrows],
    [construct_lines] and [merge_models].  The builders, and the sampler of
    [dynamo], are collaborators outside the sources at hand: they are
    parameters.  The rows of the arrays are abstract, with the three
    operations the code applies to them; the arrays stored on a model have
    rows as wide as its points, as the field fitted by the alignment has.
    [construct_field_streams] works on [pyvista] objects throughout and is
    not modelled. *)

Module Field.

(** The rows of an array and the numbers that scale them; [one] is a row
    of [np.ones].  [color], [Mesh] and [Cmap] are what the builders take
    and return. *)
Class Geometry := {
  vec : Type;
  scalar : Type;
  vadd : vec -> vec -> vec;
  vsub : vec -> vec -> vec;
  vscale : vec -> scalar -> vec;
  one : vec;
  color : Type;
  Mesh : Type;
  Cmap : Type;
}.

Inductive exn :=
  | KeyError (key : string)
  | IndexError
  | ValueError (msg : string)
  | Raised (msg : string).

(** A [pyvista.PolyData]: its points, and the arrays [model[key]] finds. *)
Record PolyData `{Geometry} := mk_PolyData {
  points : list vec;
  arrays : gmap string (list vec);
}.

Definition n_points `{Geometry} (model : PolyData) : nat := length (points model).

(** [model[key]]. *)
Definition get_array `{Geometry} (model : PolyData) (key : string) : exn + list vec :=
  match arrays model !! key with
  | Some a => inr a
  | None => inl (KeyError key)
  end.

(** The value of a label: a [str], an [int] or a [float]. *)
Inductive label_value :=
  | LabelStr (s : string)
  | LabelInt (n : Z)
  | LabelFloat (x : float).

(** The argument [label]: one value, [None], a [list] or an array of
    values, or anything else. *)
Inductive label_arg :=
  | LabelValue (v : label_value)
  | LabelNone
  | LabelSeq (l : list label_value)
  | LabelOther.

(** The argument [n_sampling]: [None], an [int], an array of indices, or
    anything else. *)
Inductive sampling_arg :=
  | SamplingNone
  | SamplingInt (n : Z)
  | SamplingArray (indices : list Z)
  | SamplingOther.

(** The arguments of one call of [construct_arrows]; [None] stands for an
    argument the call does not pass. *)
Record arrows_args `{Geometry} := mk_arrows_args {
  aa_start_points : list vec;
  aa_direction : list vec;
  aa_arrows_scale : list vec;
  aa_n_sampling : option sampling_arg;
  aa_sampling_method : option string;
  aa_factor : scalar;
  aa_tip_length : option Z;
  aa_tip_radius : option scalar;
  aa_key_added : string;
  aa_label : label_arg;
  aa_color : color;
  aa_alpha : scalar;
  aa_kwargs : list (string * string);
}.

(** The arguments of one call of [construct_lines]. *)
Record lines_args `{Geometry} := mk_lines_args {
  la_points : list vec;
  la_edges : list (nat * nat);
  la_key_added : string;
  la_label : list label_value;
  la_color : color;
  la_alpha : scalar;
}.

(** The collaborators: [dynamo.tools.sampling.sample], which
    [construct_field_plain] imports when it is called and which is taken
    to be installed, and [construct_lines], [construct_arrows] and
    [merge_models] of the package. *)
Class Backend `{Geometry} := {
  sample : list Z -> Z -> string -> list vec -> exn + list Z;
  construct_lines : lines_args -> exn + (Mesh * Cmap);
  construct_arrows : arrows_args -> exn + (Mesh * Cmap);
  merge_models : list Mesh -> exn + Mesh;
}.

(** [a[i]] for an integer [i], on a list or on the rows of an array: a
    negative index counts from the end. *)
Definition index {A} (a : list A) (i : Z) : exn + A :=
  let n := Z.of_nat (length a) in
  let j := if (i <? 0)%Z then (i + n)%Z else i in
  if (j <? 0)%Z then inl IndexError
  else match a !! Z.to_nat j with
       | Some x => inr x
       | None => inl IndexError
       end.

(** [np.concatenate(arrays, axis=0)]. *)
Definition np_concatenate {A} (arrays : list (list A)) : exn + list A :=
  match arrays with
  | [] => inl (ValueError "need at least one array to concatenate")
  | _ => inr (concat arrays)
  end.

(** ** [construct_field] *)

Definition construct_field `{Backend} (model : PolyData) (vf_key : string)
    (arrows_scale_key : option string) (n_sampling : sampling_arg)
    (sampling_method : string) (factor : scalar) (key_added : string) (label : label_arg)
    (color' : color) (alpha : scalar) (kwargs : list (string * string))
    : exn + (Mesh * Cmap) :=
  match get_array model vf_key with
  | inl e => inl e
  | inr direction =>
      match
        match arrows_scale_key with
        | None => inr (replicate (n_points model) one)
        | Some key => get_array model key
        end
      with
      | inl e => inl e
      | inr arrows_scale =>
          construct_arrows
            {| aa_start_points := points model;
               aa_direction := direction;
               aa_arrows_scale := arrows_scale;
               aa_n_sampling := Some n_sampling;
               aa_sampling_method := Some sampling_method;
               aa_factor := factor;
               aa_tip_length := None;
               aa_tip_radius := None;
               aa_key_added := key_added;
               aa_label := label;
               aa_color := color';
               aa_alpha := alpha;
               aa_kwargs := kwargs |}
      end
  end.

(** ** [construct_field_plain] *)

(** The default label. *)
Definition vector_field : label_value := LabelStr "vector field".

(** One label per point of the model, from the argument [label]. *)
Definition point_labels (label : label_arg) (n : nat) : exn + list label_value :=
  match label with
  | LabelValue v => inr (replicate n v)
  | LabelNone => inr (replicate n vector_field)
  | LabelSeq l =>
      if Nat.eqb (length l) n then inr l else inl (ValueError "`label` value is wrong.")
  | LabelOther => inl (ValueError "`label` value is wrong.")
  end.

(** The message of the warning for a dense field. *)
Definition dense_warning : string :=
  "The number of cells is more than 500. You may want to lower the max number of arrows to draw.".

(** The indices of the points to draw, and the warnings sent to the
    logger on the way. *)
Definition drawn_indices `{Backend} (n_sampling : sampling_arg) (sampling_method : string)
    (start_points : list vec) : list string * (exn + list Z) :=
  let index_arr := map Z.of_nat (seq 0 (length start_points)) in
  match n_sampling with
  | SamplingInt n => ([], sample index_arr n sampling_method start_points)
  | SamplingArray indices => ([], inr indices)
  | SamplingNone | SamplingOther =>
      (if 500 <? length index_arr then [dense_warning] else [], inr index_arr)
  end.

(** The locals the loop over [index_arr] carries. *)
Record loop_state `{Geometry} := mk_loop_state {
  se_ind : nat;
  trajectories_points : list (list vec);
  trajectories_edges : list (list (nat * nat));
  trajectories_labels : list label_value;
  tips_points : list vec;
  tips_vectors : list vec;
  tips_labels : list label_value;
}.

Definition loop_start `{Geometry} : loop_state :=
  {| se_ind := 0;
     trajectories_points := [];
     trajectories_edges := [];
     trajectories_labels := [];
     tips_points := [];
     tips_vectors := [];
     tips_labels := [] |}.

(** [t[-1]] and [t[-2]] on a trajectory. *)
Definition from_end {A} (t : list A) (k : Z) : exn + A := index t (- k).

(** The body of the loop, for the index [ind]. *)
Definition loop_body `{Geometry} (start_points direction : list vec)
    (labels : list label_value) (st : loop_state) (ind : Z) : exn + loop_state :=
  match index start_points ind with
  | inl e => inl e
  | inr p =>
      match index direction ind with
      | inl e => inl e
      | inr v =>
          let trajectory_points := [p; vadd p v] in
          let n_states := length trajectory_points in
          let trajectory_edges :=
            zip (seq (se_ind st) (n_states - 1)) (seq (se_ind st + 1) (n_states - 1)) in
          match index labels ind with
          | inl e => inl e
          | inr l =>
              match from_end trajectory_points 1, from_end trajectory_points 2 with
              | inr last, inr before =>
                  inr {| se_ind := se_ind st + n_states;
                         trajectories_points :=
                           trajectories_points st ++ [trajectory_points];
                         trajectories_edges := trajectories_edges st ++ [trajectory_edges];
                         trajectories_labels :=
                           trajectories_labels st ++ replicate n_states l;
                         tips_points := tips_points st ++ [last];
                         tips_vectors := tips_vectors st ++ [vsub last before];
                         tips_labels := tips_labels st ++ [l] |}
              | inl e, _ => inl e
              | _, inl e => inl e
              end
          end
      end
  end.

(** [for ind in index_arr: ...]. *)
Fixpoint loop `{Geometry} (start_points direction : list vec) (labels : list label_value)
    (index_arr : list Z) (st : loop_state) : exn + loop_state :=
  match index_arr with
  | [] => inr st
  | ind :: index_arr =>
      match loop_body start_points direction labels st ind with
      | inl e => inl e
      | inr st => loop start_points direction labels index_arr st
      end
  end.

(** What the function has computed when it calls the builders. *)
Record geometry `{Geometry} := mk_geometry {
  g_lines : lines_args;
  g_arrows : arrows_args;
}.

(** From the model to the arguments of the two builders. *)
Definition plain_geometry `{Backend} (model : PolyData) (vf_key : string)
    (n_sampling : sampling_arg) (sampling_method : string) (factor : scalar)
    (key_added : string) (label : label_arg) (color' : color) (alpha : scalar)
    (tip_factor : scalar) (tip_radius : scalar) (kwargs : list (string * string))
    : list string * (exn + geometry) :=
  let start_points := points model in
  match get_array model vf_key with
  | inl e => ([], inl e)
  | inr rows =>
      let direction := map (fun v => vscale v factor) rows in
      match point_labels label (length start_points) with
      | inl e => ([], inl e)
      | inr labels =>
          let '(warnings, indices) := drawn_indices n_sampling sampling_method start_points in
          (warnings,
           match indices with
           | inl e => inl e
           | inr index_arr =>
               match loop start_points direction labels index_arr loop_start with
               | inl e => inl e
               | inr st =>
                   match np_concatenate (trajectories_points st),
                         np_concatenate (trajectories_edges st) with
                   | inr pts, inr edges =>
                       inr {| g_lines :=
                                {| la_points := pts;
                                   la_edges := edges;
                                   la_key_added := key_added;
                                   la_label := trajectories_labels st;
                                   la_color := color';
                                   la_alpha := alpha |};
                              g_arrows :=
                                {| aa_start_points := tips_points st;
                                   aa_direction := tips_vectors st;
                                   aa_arrows_scale := replicate (length (tips_points st)) one;
                                   aa_n_sampling := None;
                                   aa_sampling_method := None;
                                   aa_factor := tip_factor;
                                   aa_tip_length := Some 1%Z;
                                   aa_tip_radius := Some tip_radius;
                                   aa_key_added := key_added;
                                   aa_label := LabelSeq (tips_labels st);
                                   aa_color := color';
                                   aa_alpha := alpha;
                                   aa_kwargs := kwargs |} |}
                   | inl e, _ => inl e
                   | _, inl e => inl e
                   end
               end
           end)
      end
  end.

(** [construct_field_plain]: the warnings sent to the logger, and the
    model and colormap returned, or the exception raised. *)
Definition construct_field_plain `{Backend} (model : PolyData) (vf_key : string)
    (n_sampling : sampling_arg) (sampling_method : string) (factor : scalar)
    (key_added : string) (label : label_arg) (color' : color) (alpha : scalar)
    (tip_factor : scalar) (tip_radius : scalar) (kwargs : list (string * string))
    : list string * (exn + (Mesh * Cmap)) :=
  let '(warnings, g) :=
    plain_geometry model vf_key n_sampling sampling_method factor key_added label color'
      alpha tip_factor tip_radius kwargs in
  (warnings,
   match g with
   | inl e => inl e
   | inr g =>
       match construct_lines (g_lines g) with
       | inl e => inl e
       | inr (streamlines, _) =>
           match construct_arrows (g_arrows g) with
           | inl e => inl e
           | inr (arrows, plot_cmap) =>
               match merge_models [streamlines; arrows] with
               | inl e => inl e
               | inr lines_model => inr (lines_model, plot_cmap)
               end
           end
       end
   end).
(** ** What is drawn *)

(** The point, the vector and the label the loop reads for [ind]. *)
Definition drawn `{Geometry} (start_points direction : list vec)
    (labels : list label_value) (ind : Z) : option (vec * vec * label_value) :=
  match index start_points ind, index direction ind, index labels ind with
  | inr p, inr v, inr l => Some (p, v, l)
  | _, _, _ => None
  end.

(** The segment drawn for a point [p] with the vector [v]. *)
Definition segment `{Geometry} (r : vec * vec * label_value) : list vec :=
  [r.1.1; vadd r.1.1 r.1.2].

Definition tip `{Geometry} (r : vec * vec * label_value) : vec := vadd r.1.1 r.1.2.

(** The state of the loop after the rows [rows] have been drawn from the
    state [st]. *)
Definition extend `{Geometry} (st : loop_state) (rows : list (vec * vec * label_value))
    : loop_state :=
  {| se_ind := se_ind st + 2 * length rows;
     trajectories_points := trajectories_points st ++ map segment rows;
     trajectories_edges :=
       trajectories_edges st ++
       imap (fun k _ => [(se_ind st + 2 * k, se_ind st + 2 * k + 1)]) rows;
     trajectories_labels :=
       trajectories_labels st ++ concat (map (fun r => [r.2; r.2]) rows);
     tips_points := tips_points st ++ map tip rows;
     tips_vectors := tips_vectors st ++ map (fun r => vsub (tip r) r.1.1) rows;
     tips_labels := tips_labels st ++ map snd rows |}.

(** The arguments the builders get when the rows [rows] were drawn. *)
Definition drew `{Geometry} (g : geometry) (rows : list (vec * vec * label_value)) : Prop :=
  la_points (g_lines g) = concat (map segment rows) /\
  la_edges (g_lines g) = imap (fun k _ => (2 * k, 2 * k + 1)) rows /\
  la_label (g_lines g) = concat (map (fun r => [r.2; r.2]) rows) /\
  aa_start_points (g_arrows g) = map tip rows /\
  aa_direction (g_arrows g) = map (fun r => vsub (tip r) r.1.1) rows /\
  aa_arrows_scale (g_arrows g) = replicate (length rows) one /\
  aa_label (g_arrows g) = LabelSeq (map snd rows).

(** The builders are given [m] segments: two points and two labels per
    segment, one edge, one tip with its vector, its label and a scale
    of ones. *)
Definition segments `{Geometry} (g : geometry) (m : nat) : Prop :=
  length (la_points (g_lines g)) = 2 * m /\
  length (la_edges (g_lines g)) = m /\
  length (la_label (g_lines g)) = 2 * m /\
  length (aa_start_points (g_arrows g)) = m /\
  length (aa_direction (g_arrows g)) = m /\
  aa_arrows_scale (g_arrows g) = replicate m one /\
  exists tips_labels,
    aa_label (g_arrows g) = LabelSeq tips_labels /\ length tips_labels = m.

(** The [k]-th segment goes from [p] to [q] under the label [l]: its edge
    joins the points [2k] and [2k+1], and the [k]-th arrow sits at [q] and
    points along [q - p]. *)
Definition segment_at `{Geometry} (g : geometry) (k : nat) (p q : vec) (l : label_value)
    : Prop :=
  la_points (g_lines g) !! (2 * k) = Some p /\
  la_points (g_lines g) !! (2 * k + 1) = Some q /\
  la_edges (g_lines g) !! k = Some (2 * k, 2 * k + 1) /\
  la_label (g_lines g) !! (2 * k) = Some l /\
  la_label (g_lines g) !! (2 * k + 1) = Some l /\
  aa_start_points (g_arrows g) !! k = Some q /\
  aa_direction (g_arrows g) !! k = Some (vsub q p) /\
  exists tips_labels,
    aa_label (g_arrows g) = LabelSeq tips_labels /\ tips_labels !! k = Some l.

(** The message of [np.concatenate] on an empty list. *)
Definition nothing_to_concatenate : exn :=
  ValueError "need at least one array to concatenate".
End Field.

(** ** A small instance, to run the orchestrators on

    Integer coordinates; an engine that translates the moving sample by the
    first working coordinate of the fixed one (by one more for the non-rigid
    result) and returns an [N_moving x N_fixed] matrix; an evaluator that
    translates its query by the field; a downsampler that keeps the first
    points of every sample. *)

Definition toy_data : Data := {| scalar := Z; VecFld := Z; IterAdded := list nat |}.

Definition toy_array (n d : nat) (v : Z) : @ndarray toy_data :=
  @mk_ndarray toy_data n d (fun _ _ => v).

Definition toy_corner (a : @ndarray toy_data) : Z := @item toy_data a 0 0.

Definition toy_shift (a : @ndarray toy_data) (t : Z) : @ndarray toy_data :=
  toy_array (@shape0 toy_data a) (@shape1 toy_data a) (toy_corner a + t)%Z.

Definition toy_sample (n : nat) (v : Z) : @AnnData toy_data :=
  @mk_AnnData toy_data (toy_array n 3 0) ["g1"; "g2"; "g3"]
    {[ "spatial" := toy_array n 2 v ]} ∅.

Definition toy_working (a : @AnnData toy_data) (key : string) : @ndarray toy_data :=
  default (toy_array (@n_obs toy_data a) 2 0) (@obsm toy_data a !! key).

Definition toy_model (a b : @AnnData toy_data) (args : MorphoArgs) : @MorphoModel toy_data :=
  let xa := toy_working a (ma_spatial_key args) in
  let xb := toy_working b (ma_spatial_key args) in
  @mk_MorphoModel toy_data
    (toy_array (@n_obs toy_data a) (@n_obs toy_data b) 1)
    (toy_shift xa (toy_corner xb))
    (toy_shift xa (toy_corner xb + 1)%Z)
    [@n_obs toy_data a; @n_obs toy_data b]
    (toy_corner xb).

Definition toy_transform (vf : Z) (q : @ndarray toy_data) (device dtype : string)
    : exn + (@ndarray toy_data * @ndarray toy_data * @ndarray toy_data) :=
  inr (toy_shift q (vf + 1)%Z,
       toy_array (@shape0 toy_data q) (@shape1 toy_data q) (vf + 1)%Z,
       toy_shift q vf).

Definition toy_truncate (k : nat) (a : @ndarray toy_data) : @ndarray toy_data :=
  @mk_ndarray toy_data (Nat.min k (@shape0 toy_data a)) (@shape1 toy_data a)
    (@item toy_data a).

Definition toy_downsampling (ms : list (@AnnData toy_data)) (n_sampling : option Z)
    (sampling_method spatial_key : string) : exn + list (@AnnData toy_data) :=
  let k := match n_sampling with Some n => Z.to_nat n | None => 0 end in
  inr (map (fun a => @mk_AnnData toy_data (toy_truncate k (@X toy_data a))
                       (@var_names toy_data a)
                       (toy_truncate k <$> @obsm toy_data a)
                       (@uns toy_data a)) ms).

(** An engine that always succeeds. *)
Definition toy_backend : @Backend toy_data :=
  {| Morpho_pairwise := fun a b args => inr (toy_model a b args);
     BA_transform := toy_transform;
     downsampling := toy_downsampling |}.

(** An engine that refuses a moving sample without points. *)
Definition strict_backend : @Backend toy_data :=
  {| Morpho_pairwise := fun a b args =>
       if Nat.eqb (@n_obs toy_data a) 0 then inl EmptyInput else inr (toy_model a b args);
     BA_transform := toy_transform;
     downsampling := toy_downsampling |}.

Definition toy_params (m : string) (ik vk : option string) : Params :=
  {| rep_layer := Str "X"; rep_field := Str "layer"; genes := None;
     spatial_key := "spatial"; key_added := "align_spatial";
     iter_key_added := ik; vecfld_key_added := vk;
     mode := m; dissimilarity := Str "kl"; max_iter := 200; dtype := "float32";
     device := "cpu"; verbose := true; kwargs := [] |}.

Definition default_params (m : string) : Params :=
  toy_params m (Some "iter_spatial") (Some "VecFld_morpho").

(** Three sections of two, one and three points. *)
Definition toy_heap : list (@AnnData toy_data) :=
  [toy_sample 2 100; toy_sample 1 200; toy_sample 3 300].

Definition toy_state : @State toy_data := @mk_State toy_data toy_heap [].

Definition toy_models : list nat := [0; 1; 2].

(** Whether a run returned (rather than raised). *)
Definition returned {A} (r : exn + A) : bool :=
  match r with inr _ => true | inl _ => false end.

(** Three sections, the last one without points. *)
Definition empty_tail_state : @State toy_data :=
  @mk_State toy_data [toy_sample 2 100; toy_sample 1 200; toy_sample 0 300] [].

(** The matrices a run returned (none when it raised), and the shape of the
    first one. *)
Definition seq_matrices (r : exn + (list nat * list (@ndarray toy_data)))
    : list (@ndarray toy_data) :=
  match r with inr (_, pis) => pis | inl _ => [] end.

Definition ref_matrices
    (r : exn + (list nat * list nat * list (@ndarray toy_data) * list (@ndarray toy_data)))
    : list (@ndarray toy_data) * list (@ndarray toy_data) :=
  match r with inr (_, _, pis, pis_ref) => (pis, pis_ref) | inl _ => ([], []) end.

Definition first_shape (pis : list (@ndarray toy_data)) : option (nat * nat) :=
  (fun M => (@shape0 toy_data M, @shape1 toy_data M)) <$> pis !! 0.

(** ** Further small instances *)

(** A section without coordinates, after one that has them. *)
Definition bare_sample : @AnnData toy_data :=
  @mk_AnnData toy_data (toy_array 2 3 0) ["g1"; "g2"; "g3"] ∅ ∅.

Definition bare_state : @State toy_data :=
  @mk_State toy_data [toy_sample 2 100; bare_sample] [].

(** Whether a run raised. *)
Definition raised {A} (r : exn + A) : bool :=
  match r with inl _ => true | inr _ => false end.

(** A clock that advances by ten seconds at every reading, in a fresh
    interpreter, where the root logger is at [WARNING]; and the manager
    [LoggerManager()] creates there. *)
Definition toy_world : World :=
  mk_World [] (fun k => PrimFloat.of_uint63 (Uint63.of_Z (Z.of_nat (10 * k)))) 0
    (fun _ => _logging.WARNING).

Definition toy_manager : LoggerManager.t :=
  (LoggerManager.__init__ "lack" "lack-temp-timer-logger" toy_world).1.

Definition toy_manager_world : World :=
  (LoggerManager.__init__ "lack" "lack-temp-timer-logger" toy_world).2.

(** A field on a line: points and vectors are integers, a mesh is the list
    of its points, and the builders return what they were given to draw. *)
Definition line_geometry : Field.Geometry :=
  {| Field.vec := Z;
     Field.scalar := Z;
     Field.vadd := Z.add;
     Field.vsub := Z.sub;
     Field.vscale := Z.mul;
     Field.one := 1%Z;
     Field.color := string;
     Field.Mesh := list Z;
     Field.Cmap := string |}.

Definition line_backend : @Field.Backend line_geometry :=
  {| Field.sample := fun arr n _ _ => inr (take (Z.to_nat n) arr);
     Field.construct_lines := fun args => inr (@Field.la_points line_geometry args, "lines");
     Field.construct_arrows :=
       fun args => inr (@Field.aa_start_points line_geometry args, "arrows");
     Field.merge_models := fun models => inr (concat models) |}.

(** Three points with their vectors under the default key. *)
Definition line_model : @Field.PolyData line_geometry :=
  @Field.mk_PolyData line_geometry [0; 10; 20]%Z {["VecFld_morpho" := [1; 2; 3]%Z]}.

(** [construct_field_plain(model, n_sampling=..., factor=2, label=...)]
    on the line. *)
Definition line_field (n_sampling : Field.sampling_arg) (label : Field.label_arg)
    : list string * (Field.exn + (list Z * string)) :=
  @Field.construct_field_plain line_geometry line_backend line_model "VecFld_morpho"
    n_sampling "trn" 2%Z "v_arrows" label "gainsboro" 1%Z 5%Z 1%Z [].

Definition line_segments (n_sampling : Field.sampling_arg) (label : Field.label_arg)
    : list string * (Field.exn + @Field.geometry line_geometry) :=
  @Field.plain_geometry line_geometry line_backend line_model "VecFld_morpho"
    n_sampling "trn" 2%Z "v_arrows" label "gainsboro" 1%Z 5%Z 1%Z [].

(** * Reasoning rules *)

Section Rules.
Context {D : Data}.

Lemma wp_ret {A} (a : A) Q E st : Q a st -> wp (ret a) Q E st.
Proof. done. Qed.

Lemma wp_raise {A} e (Q : A -> State -> Prop) E st : E e st -> wp (raise e) Q E st.
Proof. done. Qed.

Lemma wp_bind {A B} (m : M A) (f : A -> M B) Q E st :
  wp m (fun a st' => wp (f a) Q E st') E st -> wp (bind m f) Q E st.
Proof.
  unfold wp, bind. destruct (m st) as [st' [e|a]]; done.
Qed.

Lemma wp_mono {A} (m : M A) (Q Q' : A -> State -> Prop) (E E' : exn -> State -> Prop) st :
  wp m Q E st ->
  (forall a st', Q a st' -> Q' a st') ->
  (forall e st', E e st' -> E' e st') ->
  wp m Q' E' st.
Proof.
  unfold wp. destruct (m st) as [st' [e|a]]; auto.
Qed.

Lemma wp_run_ok {A} (m : M A) Q E st st' a :
  wp m Q E st -> m st = (st', inr a) -> Q a st'.
Proof. unfold wp. intros Hwp Hrun. by rewrite Hrun in Hwp. Qed.

Lemma wp_run_err {A} (m : M A) Q E st st' e :
  wp m Q E st -> m st = (st', inl e) -> E e st'.
Proof. unfold wp. intros Hwp Hrun. by rewrite Hrun in Hwp. Qed.

Lemma wp_lift {A} (r : exn + A) (Q : A -> State -> Prop) E st :
  match r with inr a => Q a st | inl e => E e st end -> wp (lift r) Q E st.
Proof. unfold wp, lift. by destruct r. Qed.

Lemma wp_emit ev (Q : unit -> State -> Prop) E st :
  Q tt {| heap := heap st; trace := trace st ++ [ev] |} -> wp (emit ev) Q E st.
Proof. done. Qed.

Lemma wp_deref l (Q : AnnData -> State -> Prop) E st :
  match heap st !! l with Some a => Q a st | None => E IndexError st end ->
  wp (deref l) Q E st.
Proof. unfold wp, deref. by destruct (heap st !! l). Qed.

Lemma wp_alloc a (Q : loc -> State -> Prop) E st :
  Q (length (heap st)) {| heap := heap st ++ [a]; trace := trace st |} ->
  wp (alloc a) Q E st.
Proof. done. Qed.

Lemma wp_update l f (Q : unit -> State -> Prop) E st :
  match heap st !! l with
  | Some a => Q tt {| heap := <[l:=f a]> (heap st); trace := trace st |}
  | None => E IndexError st
  end ->
  wp (update l f) Q E st.
Proof. unfold wp, update. by destruct (heap st !! l). Qed.

Lemma wp_obsm_get l k (Q : ndarray -> State -> Prop) E st :
  match heap st !! l with
  | Some a => match obsm a !! k with Some v => Q v st | None => E (KeyError k) st end
  | None => E IndexError st
  end ->
  wp (obsm_get l k) Q E st.
Proof.
  intros Hpre. unfold obsm_get. apply wp_bind, wp_deref.
  destruct (heap st !! l) as [a|]; [|done]. by destruct (obsm a !! k).
Qed.

Lemma wp_list_get {A} (xs : list A) i (Q : A -> State -> Prop) E st :
  match xs !! i with Some x => Q x st | None => E IndexError st end ->
  wp (list_get xs i) Q E st.
Proof. unfold list_get. by destruct (xs !! i). Qed.

(** Loops, by an invariant over the elements already visited. *)
Lemma wp_foldM {A B} (body : B -> A -> M B) (Inv : list A -> B -> State -> Prop) E :
  forall (xs done : list A) (acc : B) (st : State),
    (forall done' x rest acc' st',
        done ++ xs = done' ++ x :: rest -> Inv done' acc' st' ->
        wp (body acc' x) (fun acc'' st'' => Inv (done' ++ [x]) acc'' st'') E st') ->
    Inv done acc st ->
    wp (foldM body xs acc) (fun acc' st' => Inv (done ++ xs) acc' st') E st.
Proof.
  induction xs as [|x xs IH]; intros done acc st Hbody Hinv; simpl.
  - rewrite app_nil_r. by apply wp_ret.
  - apply wp_bind. eapply wp_mono; [apply (Hbody done x xs acc st eq_refl Hinv) | | done].
    intros acc' st' Hinv'. cbv beta.
    replace (done ++ x :: xs) with ((done ++ [x]) ++ xs) by by rewrite <- app_assoc.
    apply IH; [|done].
    intros done' y rest acc'' st'' Heq. apply (Hbody done' y rest). by rewrite <- app_assoc in Heq.
Qed.

Lemma wp_traverse {A B} (f : A -> M B) (Inv : list A -> list B -> State -> Prop) E :
  forall (xs done : list A) (ys : list B) (st : State),
    (forall done' x rest ys' st',
        done ++ xs = done' ++ x :: rest -> Inv done' ys' st' ->
        wp (f x) (fun y st'' => Inv (done' ++ [x]) (ys' ++ [y]) st'') E st') ->
    Inv done ys st ->
    wp (traverse f xs) (fun zs st' => Inv (done ++ xs) (ys ++ zs) st') E st.
Proof.
  induction xs as [|x xs IH]; intros done ys st Hf Hinv; simpl.
  - apply wp_ret. by rewrite !app_nil_r.
  - apply wp_bind. eapply wp_mono; [apply (Hf done x xs ys st eq_refl Hinv) | | done].
    intros y st' Hinv'. cbv beta. apply wp_bind.
    assert (Hrest : wp (traverse f xs)
              (fun zs st'' => Inv ((done ++ [x]) ++ xs) ((ys ++ [y]) ++ zs) st'') E st').
    { apply IH; [|done].
      intros done' z rest ys' st'' Heq. apply (Hf done' z rest).
      by rewrite <- app_assoc in Heq. }
    eapply wp_mono; [exact Hrest | | done].
    intros zs st'' Hinv''. apply wp_ret.
    by rewrite <- !app_assoc in Hinv''.
Qed.

Lemma progress_logger_loop_id {A} (l : list A) :
  progress_logger_loop (length l) l = l.
Proof. induction l as [|x l IH]; simpl; congruence. Qed.

Lemma iteration_pairs (n : nat) :
  _iteration (Z.of_nat n - 1)%Z = seq 0 (n - 1).
Proof.
  unfold _iteration, progress_logger, range.
  rewrite progress_logger_loop_id. f_equal. lia.
Qed.
End Rules.

(** * The slots of a sample *)

Lemma string_length_app (s1 s2 : string) :
  String.length (s1 +:+ s2) = String.length s1 + String.length s2.
Proof. induction s1 as [|c s1 IH]; simpl; [done | by rewrite IH]. Qed.

Lemma key_ne_rigid p : key_added p <> rigid_key p.
Proof.
  unfold rigid_key. intros Heq. apply (f_equal String.length) in Heq.
  rewrite string_length_app in Heq. simpl in Heq. lia.
Qed.

Lemma key_ne_nonrigid p : key_added p <> nonrigid_key p.
Proof.
  unfold nonrigid_key. intros Heq. apply (f_equal String.length) in Heq.
  rewrite string_length_app in Heq. simpl in Heq. lia.
Qed.

Lemma rigid_ne_nonrigid p : rigid_key p <> nonrigid_key p.
Proof.
  unfold rigid_key, nonrigid_key. intros Heq. apply (f_equal String.length) in Heq.
  rewrite !string_length_app in Heq. simpl in Heq. lia.
Qed.

Section Slots.
Context {D : Data}.
Implicit Types (a b : AnnData) (p : Params).

Lemma obsm_set_obsm k v a k' :
  obsm (set_obsm k v a) !! k' = if decide (k = k') then Some v else obsm a !! k'.
Proof. simpl. apply lookup_insert. Qed.

Lemma obsm_set_uns_opt key v a : obsm (set_uns_opt key v a) = obsm a.
Proof. by destruct key. Qed.

Lemma obsm_annotate p r a : obsm (annotate p r a) = obsm a.
Proof. unfold annotate. by rewrite !obsm_set_uns_opt. Qed.

Lemma uns_choose p rg nr a : uns (choose p rg nr a) = uns a.
Proof. unfold choose. by repeat case_match. Qed.

Lemma X_set_uns_opt key v a : X (set_uns_opt key v a) = X a.
Proof. by destruct key. Qed.

Lemma X_choose p rg nr a : X (choose p rg nr a) = X a.
Proof. unfold choose. by repeat case_match. Qed.

Lemma n_obs_attach p r b : n_obs (attach p r b) = n_obs b.
Proof.
  unfold n_obs, attach, annotate. by rewrite !X_set_uns_opt, X_choose.
Qed.

(** The rigid and non-rigid slots after a pair hold the engine's two
    coordinate sets, whatever the mode. *)
Lemma attach_rigid p r b : obsm (attach p r b) !! rigid_key p = Some (optimal_RnA r).
Proof.
  unfold attach. rewrite obsm_annotate. unfold choose.
  pose proof (key_ne_rigid p). pose proof (rigid_ne_nonrigid p).
  repeat case_match; simpl; by simplify_map_eq.
Qed.

Lemma attach_nonrigid p r b : obsm (attach p r b) !! nonrigid_key p = Some (XAHat r).
Proof.
  unfold attach. rewrite obsm_annotate. unfold choose.
  pose proof (key_ne_nonrigid p).
  repeat case_match; simpl; by simplify_map_eq.
Qed.

Lemma attach_working_rigid p r b :
  mode p = "SN-S" -> obsm (attach p r b) !! key_added p = Some (optimal_RnA r).
Proof.
  intros Hm. unfold attach. rewrite obsm_annotate. unfold choose. rewrite Hm. simpl.
  by simplify_map_eq.
Qed.

Lemma attach_working_nonrigid p r b :
  mode p = "SN-N" -> obsm (attach p r b) !! key_added p = Some (XAHat r).
Proof.
  intros Hm. unfold attach. rewrite obsm_annotate. unfold choose. rewrite Hm. simpl.
  by simplify_map_eq.
Qed.


Lemma attach_uns p r b :
  uns (attach p r b) =
  match vecfld_key_added p with
  | Some vk => <[vk := UnsVecFld (vecfld r)]>
  | None => fun m => m
  end (match iter_key_added p with
       | Some ik => <[ik := UnsIter (iter_added r)]>
       | None => fun m => m
       end (uns b)).
Proof.
  unfold attach, annotate, set_uns_opt.
  destruct (vecfld_key_added p), (iter_key_added p); simpl; by rewrite uns_choose.
Qed.

Lemma init_sample_lookup p a s :
  init_sample p a = Some s ->
  exists x, obsm a !! spatial_key p = Some x /\
    obsm s !! spatial_key p = Some x /\
    obsm s !! key_added p = Some x /\
    obsm s !! rigid_key p = Some x /\
    obsm s !! nonrigid_key p = Some x /\
    uns s = uns a /\ X s = X a.
Proof.
  unfold init_sample. destruct (obsm a !! spatial_key p) as [x|] eqn:Hx; [|done].
  intros [= <-]. exists x.
  pose proof (key_ne_rigid p). pose proof (key_ne_nonrigid p).
  pose proof (rigid_ne_nonrigid p).
  rewrite !obsm_set_obsm. repeat case_decide; simplify_eq; done.
Qed.
End Slots.

(** * Operations on one object of the heap *)

Lemma insert_middle {A} (l1 l2 : list A) (x y : A) :
  <[length l1 := y]> (l1 ++ x :: l2) = l1 ++ y :: l2.
Proof. induction l1 as [|z l1 IH]; simpl; [done | by rewrite IH]. Qed.

Section Objects.
Context {D : Data}.
Implicit Types (A B : list AnnData) (a b : AnnData) (p : Params).

Lemma wp_deref_at A b B l (Q : AnnData -> State -> Prop) E st :
  heap st = A ++ b :: B -> l = length A -> Q b st -> wp (deref l) Q E st.
Proof.
  intros Hh -> HQ. apply wp_deref. by rewrite Hh, list_lookup_middle.
Qed.

Lemma wp_update_at A b B l f (Q : unit -> State -> Prop) E st :
  heap st = A ++ b :: B -> l = length A ->
  Q tt {| heap := A ++ f b :: B; trace := trace st |} ->
  wp (update l f) Q E st.
Proof.
  intros Hh -> HQ. apply wp_update.
  rewrite Hh, list_lookup_middle by done. by rewrite insert_middle.
Qed.

Lemma wp_obsm_get_at A b B l k (Q : ndarray -> State -> Prop) E st :
  heap st = A ++ b :: B -> l = length A ->
  match obsm b !! k with Some v => Q v st | None => E (KeyError k) st end ->
  wp (obsm_get l k) Q E st.
Proof.
  intros Hh -> HQ. apply wp_obsm_get. by rewrite Hh, list_lookup_middle.
Qed.

Lemma wp_uns_set_opt_at A b B l key v (Q : unit -> State -> Prop) E st :
  heap st = A ++ b :: B -> l = length A ->
  Q tt {| heap := A ++ set_uns_opt key v b :: B; trace := trace st |} ->
  wp (uns_set_opt l key v) Q E st.
Proof.
  intros Hh -> HQ. destruct key as [k|]; simpl in *.
  - by eapply wp_update_at.
  - apply wp_ret. rewrite <- Hh in HQ. by destruct st.
Qed.

Lemma wp_select_mode_at A b B l p rg nr (Q : unit -> State -> Prop) E st :
  heap st = A ++ b :: B -> l = length A ->
  obsm b !! rigid_key p = Some rg -> obsm b !! nonrigid_key p = Some nr ->
  Q tt {| heap := A ++ choose p rg nr b :: B; trace := trace st |} ->
  wp (select_mode p l) Q E st.
Proof.
  intros Hh -> Hrg Hnr HQ. unfold select_mode, choose in *.
  destruct (String.eqb (mode p) "SN-S"); [|destruct (String.eqb (mode p) "SN-N")].
  - apply wp_bind. eapply wp_obsm_get_at; [done..|]. rewrite Hrg.
    by eapply wp_update_at.
  - apply wp_bind. eapply wp_obsm_get_at; [done..|]. rewrite Hnr.
    by eapply wp_update_at.
  - apply wp_ret. rewrite <- Hh in HQ. by destruct st.
Qed.

Lemma wp_init_coords_at A a B l p (Q : unit -> State -> Prop) E st :
  heap st = A ++ a :: B -> l = length A ->
  match init_sample p a with
  | Some s => Q tt {| heap := A ++ s :: B; trace := trace st |}
  | None => E (KeyError (spatial_key p)) st
  end ->
  wp (init_coords p l) Q E st.
Proof.
  intros Hh -> HQ. unfold init_coords, init_sample, ndarray_copy in *.
  apply wp_bind. eapply wp_obsm_get_at; [done..|].
  destruct (obsm a !! spatial_key p) as [x|] eqn:Hx; [|done].
  apply wp_bind. eapply wp_update_at; [done..|].
  apply wp_bind. eapply wp_obsm_get_at; [done..|].
  rewrite obsm_set_obsm.
  replace (if decide (key_added p = spatial_key p) then Some x
           else obsm a !! spatial_key p) with (Some x) by (by case_decide).
  apply wp_bind. eapply wp_update_at; [done..|].
  apply wp_bind. eapply wp_obsm_get_at; [done..|].
  rewrite !obsm_set_obsm.
  replace (if decide (rigid_key p = spatial_key p) then Some x
           else if decide (key_added p = spatial_key p) then Some x
                else obsm a !! spatial_key p) with (Some x)
    by (by repeat case_decide).
  by eapply wp_update_at.
Qed.

(** The initialisation loop over a block of freshly copied samples. *)
Lemma wp_init_all p E : forall S pre post (Q : unit -> State -> Prop) st,
  heap st = pre ++ S ++ post ->
  match mapM (init_sample p) S with
  | Some S0 => Q tt {| heap := pre ++ S0 ++ post; trace := trace st |}
  | None =>
      forall ext,
        E (KeyError (spatial_key p)) {| heap := pre ++ ext ++ post; trace := trace st |}
  end ->
  wp (forM_ (seq (length pre) (length S)) (init_coords p)) Q E st.
Proof.
  unfold forM_. induction S as [|a S IH]; intros pre post Q st Hh HQ; simpl in *.
  - apply wp_ret. rewrite <- Hh in HQ. by destruct st.
  - apply wp_bind. eapply wp_init_coords_at; [done..|].
    destruct (init_sample p a) as [s|]; simpl in HQ.
    2:{ specialize (HQ (a :: S)). simpl in HQ. rewrite <- Hh in HQ. by destruct st. }
    replace (Datatypes.S (length pre)) with (length (pre ++ [s]))
      by (rewrite length_app; simpl; lia).
    apply (IH (pre ++ [s]) post); simpl; [by rewrite <- app_assoc|].
    destruct (mapM (init_sample p) S) as [S0|]; simpl in *.
    + by rewrite <- app_assoc.
    + intros ext. specialize (HQ (s :: ext)). by rewrite <- app_assoc.
Qed.

(** Copying a list of samples appends their contents to the heap. *)
Lemma wp_copy_models E : forall models vals h0 ext (Q : list loc -> State -> Prop) st,
  Forall2 (fun l a => h0 !! l = Some a) models vals ->
  heap st = h0 ++ ext ->
  Q (seq (length (heap st)) (length models))
    {| heap := heap st ++ vals; trace := trace st |} ->
  wp (traverse copy_model models) Q E st.
Proof.
  induction models as [|l models IH]; intros vals h0 ext Q st Hres Hh HQ.
  - apply Forall2_nil_inv_l in Hres as ->. simpl in *. apply wp_ret.
    rewrite app_nil_r in HQ. by destruct st.
  - apply Forall2_cons_inv_l in Hres as (a & vals' & Ha & Hres & ->). simpl.
    apply wp_bind. unfold copy_model at 1. apply wp_bind, wp_deref.
    rewrite Hh, (lookup_app_l_Some _ _ _ _ Ha). apply wp_alloc.
    apply wp_bind.
    eapply (IH vals' h0 (ext ++ [a])); [done | by simpl; rewrite Hh, <- app_assoc |].
    apply wp_ret. simpl. rewrite length_app, Nat.add_1_r, <- app_assoc. simpl.
    exact HQ.
Qed.
End Objects.

(** * The sequential orchestrator *)

Section Sequential.
Context {D : Data} {Bk : Backend}.
Implicit Types (a b : AnnData) (p : Params).

(** One iteration, on a heap where the fixed sample [a] sits right before
    the moving sample [b]. *)
Lemma wp_seq_body p (locs : list loc) pis i A a b Bt (Q : list ndarray -> State -> Prop) E st :
  heap st = A ++ a :: b :: Bt ->
  locs !! i = Some (length A) ->
  locs !! (i + 1) = Some (S (length A)) ->
  match Morpho_pairwise b a (morpho_args p) with
  | inr r =>
      Q (pis ++ [transpose (P r)])
        {| heap := A ++ a :: attach p r b :: Bt;
           trace := trace st ++
             [EvMorpho (S (length A)) (length A) b a (morpho_args p);
              EvEmptyCache (device p)] |}
  | inl e =>
      E e {| heap := heap st;
             trace := trace st ++
               [EvMorpho (S (length A)) (length A) b a (morpho_args p)] |}
  end ->
  wp (morpho_align_body p locs pis i) Q E st.
Proof.
  intros Hh Hi Hi1 HQ. unfold morpho_align_body.
  apply wp_bind, wp_list_get. rewrite Hi.
  apply wp_bind, wp_list_get. rewrite Hi1.
  assert (Hh' : heap st = (A ++ [a]) ++ b :: Bt) by (by rewrite <- app_assoc).
  assert (Hl : S (length A) = length (A ++ [a])) by (rewrite length_app; simpl; lia).
  apply wp_bind. unfold run_Morpho_pairwise.
  apply wp_bind. eapply (wp_deref_at (A ++ [a]) b Bt); [exact Hh' | exact Hl |].
  apply wp_bind. eapply (wp_deref_at A a (b :: Bt)); [exact Hh | done |].
  apply wp_bind, wp_emit. apply wp_lift.
  destruct (Morpho_pairwise b a (morpho_args p)) as [e|r]; [apply HQ|].
  unfold obsm_set, ndarray_copy.
  apply wp_bind. eapply (wp_update_at (A ++ [a]) b Bt); [exact Hh' | exact Hl |].
  apply wp_bind. eapply (wp_update_at (A ++ [a]) _ Bt); [reflexivity | exact Hl |].
  apply wp_bind.
  eapply (wp_select_mode_at (A ++ [a]) _ Bt _ p (optimal_RnA r) (XAHat r));
    [reflexivity | exact Hl | | |].
  { rewrite !obsm_set_obsm. pose proof (rigid_ne_nonrigid p).
    by repeat case_decide. }
  { rewrite !obsm_set_obsm. by case_decide. }
  apply wp_bind. eapply (wp_uns_set_opt_at (A ++ [a]) _ Bt); [reflexivity | exact Hl |].
  apply wp_bind. eapply (wp_uns_set_opt_at (A ++ [a]) _ Bt); [reflexivity | exact Hl |].
  apply wp_bind, wp_emit. apply wp_ret. simpl.
  rewrite <- !app_assoc. exact HQ.
Qed.

(** The loop, from pair [length pre] on: [pre] holds the samples that are
    final already, [prev] the last aligned one and [rest] those still to
    be registered. *)
Lemma wp_seq_loop p h0 (locs : list loc) E :
  forall rest pre prev pis (Q : list ndarray -> State -> Prop) st,
    heap st = h0 ++ pre ++ prev :: rest ->
    locs = seq (length h0) (length pre + 1 + length rest) ->
    (forall e ext evs la lb a b,
        Morpho_pairwise b a (morpho_args p) = inl e ->
        Forall call_ok (morpho_calls evs) ->
        E e {| heap := h0 ++ ext;
               trace := trace st ++ evs ++ [EvMorpho la lb b a (morpho_args p)] |}) ->
    (forall steps, chain p prev rest steps ->
       Q (pis ++ map (fun s => transpose (P (model s))) steps)
         {| heap := h0 ++ pre ++ prev :: map (final_sample p) steps;
            trace := trace st ++
              concat (imap (fun k => pair_events p (length h0) (length pre + k)) steps) |}) ->
    wp (foldM (morpho_align_body p locs) (seq (length pre) (length rest)) pis) Q E st.
Proof.
  induction rest as [|b rest IH]; intros pre prev pis Q st Hh Hlocs HE HQ.
  - simpl. apply wp_ret. specialize (HQ [] (chain_nil p prev)). simpl in HQ.
    rewrite !app_nil_r in HQ. rewrite <- Hh in HQ. by destruct st.
  - simpl. apply wp_bind.
    eapply (wp_seq_body p locs pis (length pre) (h0 ++ pre) prev b rest).
    { by rewrite <- app_assoc. }
    { subst locs. rewrite length_app. apply lookup_seq_lt. simpl. lia. }
    { subst locs. rewrite length_app. rewrite lookup_seq_lt by (simpl; lia).
      f_equal. lia. }
    destruct (Morpho_pairwise b prev (morpho_args p)) as [e|r] eqn:Hr.
    { specialize (HE e (pre ++ prev :: b :: rest) [] (S (length (h0 ++ pre)))
                   (length (h0 ++ pre)) _ _ Hr (Forall_nil_2 _)).
      simpl in HE. by rewrite Hh. }
    replace (S (length pre)) with (length (pre ++ [prev]))
      by (rewrite length_app; simpl; lia).
    apply (IH (pre ++ [prev]) (attach p r b)).
    + simpl. by rewrite <- !app_assoc.
    + subst locs. f_equal. rewrite length_app. simpl. lia.
    + intros e ext evs la lb a' b' He Hok. simpl.
      specialize (HE e ext
        (EvMorpho (S (length (h0 ++ pre))) (length (h0 ++ pre)) b prev (morpho_args p)
         :: EvEmptyCache (device p) :: evs) la lb a' b' He).
      simpl in HE. rewrite <- app_assoc. simpl. apply HE.
      constructor; [|done]. by exists r.
    + intros steps Hchain.
      specialize (HQ _ (chain_cons p prev b rest r steps Hr Hchain)).
      simpl in HQ. simpl.
      rewrite <- !app_assoc. simpl.
      replace (length h0 + (length pre + 0) + 1) with (S (length (h0 ++ pre))) in HQ
        by (rewrite length_app; lia).
      replace (length h0 + (length pre + 0)) with (length (h0 ++ pre)) in HQ
        by (rewrite length_app; lia).
      erewrite imap_ext; [exact HQ|].
      intros k s _. simpl. f_equal. rewrite length_app. simpl. lia.
Qed.

(** [morpho_align], run on references that point into the heap. *)
Lemma wp_morpho_align p models vals (Q : list loc * list ndarray -> State -> Prop) E st :
  resolves st models vals ->
  (forall ext,
      mapM (init_sample p) vals = None ->
      E (KeyError (spatial_key p)) {| heap := heap st ++ ext; trace := trace st |}) ->
  (forall e ext evs la lb a b,
      Morpho_pairwise b a (morpho_args p) = inl e ->
      Forall call_ok (morpho_calls evs) ->
      E e {| heap := heap st ++ ext;
             trace := trace st ++ evs ++ [EvMorpho la lb b a (morpho_args p)] |}) ->
  (forall S0 steps,
      mapM (init_sample p) vals = Some S0 -> chain_all p S0 steps ->
      Q (seq (length (heap st)) (length models),
         map (fun s => transpose (P (model s))) steps)
        {| heap := heap st ++ finals p S0 steps;
           trace := trace st ++ seq_events p (length (heap st)) steps |}) ->
  wp (morpho_align models p) Q E st.
Proof.
  intros Hres HEk HE HQ. unfold morpho_align.
  pose proof (Forall2_length _ _ _ Hres) as Hlen.
  apply wp_bind.
  eapply (wp_copy_models _ models vals (heap st) []); [exact Hres | by rewrite app_nil_r |].
  apply wp_bind. rewrite Hlen.
  eapply (wp_init_all p _ vals (heap st) []); [by simpl; rewrite app_nil_r|].
  destruct (mapM (init_sample p) vals) as [S0|] eqn:Hinit.
  2:{ intros ext. simpl. rewrite app_nil_r. by apply HEk. }
  specialize (HQ S0). simpl. rewrite app_nil_r.
  apply mapM_Some in Hinit. apply Forall2_length in Hinit.
  apply wp_bind. rewrite length_seq, iteration_pairs.
  destruct S0 as [|s0 rest].
  - simpl in Hinit. rewrite Hinit. simpl. apply wp_ret, wp_ret.
    specialize (HQ [] eq_refl eq_refl). rewrite Hlen, Hinit in HQ. simpl in HQ.
    rewrite !app_nil_r in HQ. rewrite app_nil_r. exact HQ.
  - simpl in Hinit. rewrite Hinit. simpl. rewrite Nat.sub_0_r.
    eapply (wp_seq_loop p (heap st) _ E rest [] s0 []); [done | simpl; f_equal; lia | |].
    { intros e ext evs la lb a b He Hok. by apply HE. }
    intros steps Hchain. apply wp_ret. simpl.
    specialize (HQ steps eq_refl Hchain). by rewrite Hlen, Hinit in HQ.
Qed.
End Sequential.

(** * The reference orchestrator *)

Section Reference.
Context {D : Data} {Bk : Backend}.
Implicit Types (a b f : AnnData) (p : Params).

Lemma two_objects A f Mid a b Bt :
  A ++ f :: Mid ++ a :: b :: Bt = (A ++ f :: Mid ++ [a]) ++ b :: Bt.
Proof. rewrite <- app_assoc. simpl. by rewrite <- app_assoc. Qed.

Lemma two_objects_length A f Mid a :
  length (A ++ f :: Mid ++ [a]) = length A + 1 + length Mid + 1.
Proof. rewrite length_app. simpl. rewrite length_app. simpl. lia. Qed.

Lemma wp_update_second A f Mid a b Bt l g (Q : unit -> State -> Prop) E st :
  heap st = A ++ f :: Mid ++ a :: b :: Bt ->
  l = length A + 1 + length Mid + 1 ->
  Q tt {| heap := A ++ f :: Mid ++ a :: g b :: Bt; trace := trace st |} ->
  wp (update l g) Q E st.
Proof.
  intros Hh -> HQ. rewrite two_objects in Hh, HQ.
  eapply wp_update_at; [exact Hh | by rewrite two_objects_length | exact HQ].
Qed.

Lemma wp_select_mode_second A f Mid a b Bt l p rg nr (Q : unit -> State -> Prop) E st :
  heap st = A ++ f :: Mid ++ a :: b :: Bt ->
  l = length A + 1 + length Mid + 1 ->
  obsm b !! rigid_key p = Some rg -> obsm b !! nonrigid_key p = Some nr ->
  Q tt {| heap := A ++ f :: Mid ++ a :: choose p rg nr b :: Bt; trace := trace st |} ->
  wp (select_mode p l) Q E st.
Proof.
  intros Hh -> Hrg Hnr HQ. rewrite two_objects in Hh, HQ.
  eapply wp_select_mode_at;
    [exact Hh | by rewrite two_objects_length | exact Hrg | exact Hnr | exact HQ].
Qed.

(** One iteration: [f] is the full-resolution sample of the pair, [a] and
    [b] its fixed and moving landmark samples. *)
Lemma wp_ref_body p (locsF locsR : list loc) pis pis_ref i A f Mid a b Bt
    (Q : list loc * list ndarray * list ndarray -> State -> Prop) E st :
  heap st = A ++ f :: Mid ++ a :: b :: Bt ->
  locsF !! (i + 1) = Some (length A) ->
  locsR !! i = Some (length A + 1 + length Mid) ->
  locsR !! (i + 1) = Some (length A + 1 + length Mid + 1) ->
  match Morpho_pairwise b a (morpho_args p) with
  | inr r =>
      match obsm f !! key_added p with
      | Some q =>
          match BA_transform (vecfld r) q (device p) (dtype p) with
          | inr (nr, _, rg) =>
              Q (locsR, pis ++ [P r], pis_ref ++ [P r])
                {| heap := A ++ attach_full p r nr rg f :: Mid ++ a :: attach p r b :: Bt;
                   trace := trace st ++
                     [EvMorpho (length A + 1 + length Mid + 1) (length A + 1 + length Mid)
                        b a (morpho_args p);
                      EvTransform (vecfld r) q (device p) (dtype p)] |}
          | inl e =>
              forall ext evs, Forall not_empty_cache evs ->
                E e {| heap := A ++ ext; trace := trace st ++ evs |}
          end
      | None =>
          forall ext evs, Forall not_empty_cache evs ->
            E (KeyError (key_added p)) {| heap := A ++ ext; trace := trace st ++ evs |}
      end
  | inl e =>
      forall ext evs, Forall not_empty_cache evs ->
        E e {| heap := A ++ ext; trace := trace st ++ evs |}
  end ->
  wp (morpho_align_ref_body p locsF (locsR, pis, pis_ref) i) Q E st.
Proof.
  intros Hh HiF Hi Hi1 HQ. unfold morpho_align_ref_body.
  set (lb := length A + 1 + length Mid + 1) in *.
  apply wp_bind, wp_list_get. rewrite Hi.
  apply wp_bind, wp_list_get. rewrite Hi1.
  apply wp_bind. unfold run_Morpho_pairwise.
  apply wp_bind.
  eapply (wp_deref_at (A ++ f :: Mid ++ [a]) b Bt);
    [by rewrite <- two_objects | by rewrite two_objects_length |].
  apply wp_bind.
  eapply (wp_deref_at (A ++ f :: Mid) a (b :: Bt)).
  { rewrite Hh. rewrite <- app_assoc. done. }
  { rewrite length_app. simpl. lia. }
  apply wp_bind, wp_emit. apply wp_lift.
  destruct (Morpho_pairwise b a (morpho_args p)) as [e|r].
  { specialize (HQ (f :: Mid ++ a :: b :: Bt)
                   [EvMorpho lb (length A + 1 + length Mid) b a (morpho_args p)]).
    simpl in HQ. rewrite Hh. apply HQ. by repeat constructor. }
  unfold obsm_set, uns_set, ndarray_copy.
  apply wp_bind. eapply (wp_update_second A f Mid a b Bt); [exact Hh | done |].
  apply wp_bind. eapply (wp_update_second A f Mid a _ Bt); [reflexivity | done |].
  apply wp_bind.
  eapply (wp_select_mode_second A f Mid a _ Bt _ p (optimal_RnA r) (XAHat r));
    [reflexivity | done | | |].
  { rewrite !obsm_set_obsm. pose proof (rigid_ne_nonrigid p).
    by repeat case_decide. }
  { rewrite !obsm_set_obsm. by case_decide. }
  rewrite (list_insert_id _ _ _ Hi1).
  apply wp_bind, wp_list_get. rewrite HiF.
  set (b1 := choose p _ _ _).
  (* the two annotation blocks, on the landmark sample and then on the
     full-resolution one *)
  apply wp_bind.
  assert (Hiter : forall (Q' : unit -> State -> Prop) st1 fx bx,
    heap st1 = A ++ fx :: Mid ++ a :: bx :: Bt ->
    Q' tt {| heap := A ++ set_uns_opt (iter_key_added p) (UnsIter (iter_added r)) fx
                      :: Mid ++ a
                      :: set_uns_opt (iter_key_added p) (UnsIter (iter_added r)) bx :: Bt;
             trace := trace st1 |} ->
    wp (match iter_key_added p with
        | Some k =>
            update lb (set_uns k (UnsIter (iter_added r))) >>
            update (length A) (set_uns k (UnsIter (iter_added r)))
        | None => ret tt
        end) Q' E st1).
  { intros Q' st1 fx bx Hh1 HQ'. destruct (iter_key_added p) as [k|]; simpl in *.
    - apply wp_bind. eapply (wp_update_second A fx Mid a bx Bt); [exact Hh1 | done |].
      eapply (wp_update_at A fx); [reflexivity | done | exact HQ'].
    - apply wp_ret. rewrite <- Hh1 in HQ'. by destruct st1. }
  assert (Hvf : forall (Q' : unit -> State -> Prop) st1 fx bx,
    heap st1 = A ++ fx :: Mid ++ a :: bx :: Bt ->
    Q' tt {| heap := A ++ set_uns_opt (vecfld_key_added p) (UnsVecFld (vecfld r)) fx
                      :: Mid ++ a
                      :: set_uns_opt (vecfld_key_added p) (UnsVecFld (vecfld r)) bx :: Bt;
             trace := trace st1 |} ->
    wp (match vecfld_key_added p with
        | Some k =>
            update lb (set_uns k (UnsVecFld (vecfld r))) >>
            update (length A) (set_uns k (UnsVecFld (vecfld r)))
        | None => ret tt
        end) Q' E st1).
  { intros Q' st1 fx bx Hh1 HQ'. destruct (vecfld_key_added p) as [k|]; simpl in *.
    - apply wp_bind. eapply (wp_update_second A fx Mid a bx Bt); [exact Hh1 | done |].
      eapply (wp_update_at A fx); [reflexivity | done | exact HQ'].
    - apply wp_ret. rewrite <- Hh1 in HQ'. by destruct st1. }
  eapply (Hiter _ _ f b1); [reflexivity|].
  apply wp_bind. eapply (Hvf _ _ _ _); [reflexivity|]. simpl.
  fold (annotate p r f). fold (annotate p r b1).
  apply wp_bind. eapply (wp_obsm_get_at A (annotate p r f)); [reflexivity | done |].
  rewrite obsm_annotate.
  destruct (obsm f !! key_added p) as [q|].
  2:{ specialize (HQ (annotate p r f :: Mid ++ a :: annotate p r b1 :: Bt)
                     [EvMorpho lb (length A + 1 + length Mid) b a (morpho_args p)]).
      apply HQ. by repeat constructor. }
  apply wp_bind. unfold call_BA_transform. apply wp_bind, wp_emit. apply wp_lift.
  destruct (BA_transform (vecfld r) q (device p) (dtype p)) as [e|[[nr disp] rg]].
  { specialize (HQ (annotate p r f :: Mid ++ a :: annotate p r b1 :: Bt)
                   [EvMorpho lb (length A + 1 + length Mid) b a (morpho_args p);
                    EvTransform (vecfld r) q (device p) (dtype p)]).
    simpl in *. rewrite <- app_assoc. apply HQ. by repeat constructor. }
  apply wp_bind. eapply (wp_update_at A (annotate p r f)); [reflexivity | done |].
  apply wp_bind. eapply (wp_update_at A _); [reflexivity | done |].
  apply wp_bind.
  eapply (wp_select_mode_at A _ _ _ p rg nr); [reflexivity | done | | |].
  { rewrite !obsm_set_obsm. by case_decide. }
  { rewrite !obsm_set_obsm. pose proof (rigid_ne_nonrigid p).
    by repeat case_decide. }
  apply wp_ret. simpl. rewrite <- app_assoc. exact HQ.
Qed.
End Reference.

Section ReferenceLoop.
Context {D : Data} {Bk : Backend}.
Implicit Types (a b f : AnnData) (p : Params).

Lemma ref_loop_cause_cons p b rest_ref f rest_full e :
  ref_loop_cause p rest_ref rest_full e ->
  ref_loop_cause p (b :: rest_ref) (f :: rest_full) e.
Proof.
  intros [[-> Hlt]|[Hm|[Ht|[-> (f' & Hin & Hk)]]]].
  - left. split; [done|]. simpl. lia.
  - right. by left.
  - right. right. by left.
  - right. right. right. split; [done|]. exists f'. split; [by right | done].
Qed.

(** The loop, from pair [length preF] on.  The full-resolution copies
    occupy the heap from [length h0], the landmark copies follow them. *)
Lemma wp_ref_loop p h0 n (locsF locsR : list loc) E :
  forall restF preF fcur restR preR prev pis pis_ref
         (Q : list loc * list ndarray * list ndarray -> State -> Prop) st,
    heap st = h0 ++ (preF ++ fcur :: restF) ++ (preR ++ prev :: restR) ->
    length preR = length preF ->
    n = length preF + 1 + length restF ->
    locsF = seq (length h0) n ->
    locsR = seq (length h0 + n) (length preR + 1 + length restR) ->
    (forall e ext evs,
        ref_loop_cause p restR restF e -> Forall not_empty_cache evs ->
        E e {| heap := h0 ++ ext; trace := trace st ++ evs |}) ->
    (forall steps, chain_ref p prev restR restF steps ->
       Q (locsR,
          pis ++ map (fun s => P (model (rs_step s))) steps,
          pis_ref ++ map (fun s => P (model (rs_step s))) steps)
         {| heap := h0 ++ (preF ++ fcur :: map (final_full p) steps) ++
              (preR ++ prev :: map (fun s => final_sample p (rs_step s)) steps
                 ++ drop (length steps) restR);
            trace := trace st ++
              concat (imap (fun k => ref_pair_events p (length h0 + n) (length preR + k))
                        steps) |}) ->
    wp (foldM (morpho_align_ref_body p locsF) (seq (length preF) (length restF))
          (locsR, pis, pis_ref)) Q E st.
Proof.
  induction restF as [|f restF IH];
    intros preF fcur restR preR prev pis pis_ref Q st Hh Hpre Hn HlF HlR HE HQ.
  - simpl. apply wp_ret. specialize (HQ [] (chain_ref_nil p prev restR)). simpl in HQ.
    rewrite !app_nil_r, drop_0 in HQ. rewrite <- Hh in HQ. by destruct st.
  - simpl. apply wp_bind. destruct restR as [|b restR].
    { (* no landmark sample is left for this pair *)
      unfold morpho_align_ref_body.
      apply wp_bind, wp_list_get. subst locsR.
      rewrite lookup_seq_lt by (simpl; lia).
      apply wp_bind, wp_list_get. rewrite lookup_seq_ge by (simpl; lia).
      specialize (HE IndexError ((preF ++ fcur :: f :: restF) ++ preR ++ [prev]) []).
      simpl in HE. rewrite app_nil_r, <- Hh in HE. destruct st. apply HE; [|done].
      left. split; [done|]. simpl. lia. }
    simpl in Hn.
    eapply (wp_ref_body p locsF locsR pis pis_ref (length preF)
              (h0 ++ preF ++ [fcur]) f (restF ++ preR) prev b restR).
    { rewrite Hh. list_assoc. }
    { subst locsF. rewrite !length_app. simpl.
      rewrite lookup_seq_lt by lia; f_equal; lia. }
    { subst locsR. rewrite !length_app. simpl.
      rewrite Hpre, lookup_seq_lt by lia; f_equal; lia. }
    { subst locsR. rewrite !length_app. simpl.
      rewrite Hpre, lookup_seq_lt by lia; f_equal; lia. }
    assert (HE' : forall e ext evs,
      ref_loop_cause p (b :: restR) (f :: restF) e -> Forall not_empty_cache evs ->
      E e {| heap := (h0 ++ preF ++ [fcur]) ++ ext; trace := trace st ++ evs |}).
    { intros e ext evs Hc Hev. rewrite <- app_assoc. by apply HE. }
    destruct (Morpho_pairwise b prev (morpho_args p)) as [e|r] eqn:Hr.
    { intros ext evs. apply HE'. right. left. eauto. }
    destruct (obsm f !! key_added p) as [q|] eqn:Hq.
    2:{ intros ext evs. apply HE'. right. right. right. split; [done|].
        exists f. split; [by left | done]. }
    destruct (BA_transform (vecfld r) q (device p) (dtype p)) as [e|[[nr disp] rg]] eqn:Ht.
    { intros ext evs. apply HE'. right. right. left. eauto. }
    replace (S (length preF)) with (length (preF ++ [fcur]))
      by (rewrite length_app; simpl; lia).
    apply (IH (preF ++ [fcur]) (attach_full p r nr rg f) restR (preR ++ [prev])
              (attach p r b)).
    + list_assoc.
    + rewrite !length_app. simpl. lia.
    + rewrite length_app. simpl. lia.
    + exact HlF.
    + subst locsR. f_equal. rewrite length_app. simpl. lia.
    + intros e ext evs Hc Hev. simpl. rewrite <- app_assoc. apply HE.
      * by apply ref_loop_cause_cons.
      * simpl. by repeat constructor.
    + intros steps Hchain.
      specialize (HQ _ (chain_ref_cons p prev b restR f restF r q nr disp rg steps
                          Hr Hq Ht Hchain)).
      simpl in HQ. simpl. rewrite <- !app_assoc. simpl.
      rewrite <- !app_assoc in HQ. simpl in HQ.
      replace (length h0 + n + (length preR + 0) + 1)
        with (length (h0 ++ preF ++ [fcur]) + 1 + length (restF ++ preR) + 1) in HQ
        by (rewrite !length_app; simpl; lia).
      replace (length h0 + n + (length preR + 0))
        with (length (h0 ++ preF ++ [fcur]) + 1 + length (restF ++ preR)) in HQ
        by (rewrite !length_app; simpl; lia).
      erewrite imap_ext; [exact HQ|].
      intros k s _. simpl. unfold ref_pair_events. rewrite length_app. simpl.
      by replace (length preR + 1 + k) with (length preR + S k) by lia.
Qed.
End ReferenceLoop.

Section ReferenceRun.
Context {D : Data} {Bk : Backend}.
Implicit Types (a b f : AnnData) (p : Params).

Lemma resolves_seq (pre S post : list AnnData) :
  Forall2 (fun l a => (pre ++ S ++ post) !! l = Some a) (seq (length pre) (length S)) S.
Proof.
  revert pre. induction S as [|a S IH]; intros pre; simpl; constructor.
  - by apply list_lookup_middle.
  - specialize (IH (pre ++ [a])). rewrite <- app_assoc in IH. simpl in IH.
    by rewrite length_app, Nat.add_1_r in IH.
Qed.

Lemma wp_deref_all E : forall S pre post (Q : list AnnData -> State -> Prop) st,
  heap st = pre ++ S ++ post ->
  Q S st ->
  wp (traverse deref (seq (length pre) (length S))) Q E st.
Proof.
  induction S as [|a S IH]; intros pre post Q st Hh HQ; simpl.
  - by apply wp_ret.
  - apply wp_bind. eapply (wp_deref_at pre a (S ++ post)); [done..|].
    apply wp_bind.
    replace (Datatypes.S (length pre)) with (length (pre ++ [a]))
      by (rewrite length_app; simpl; lia).
    apply (IH (pre ++ [a]) post); [by rewrite <- app_assoc|].
    by apply wp_ret.
Qed.

Lemma wp_alloc_all E : forall (ls : list AnnData) (Q : list loc -> State -> Prop) st,
  Q (seq (length (heap st)) (length ls)) {| heap := heap st ++ ls; trace := trace st |} ->
  wp (traverse alloc ls) Q E st.
Proof.
  induction ls as [|a ls IH]; intros Q st HQ; simpl in *.
  - apply wp_ret. rewrite app_nil_r in HQ. by destruct st.
  - apply wp_bind, wp_alloc. apply wp_bind. apply IH. apply wp_ret. simpl.
    rewrite length_app, Nat.add_1_r, <- app_assoc. exact HQ.
Qed.

Lemma init_all_working p vals F0 f :
  mapM (init_sample p) vals = Some F0 -> f ∈ F0 -> is_Some (obsm f !! key_added p).
Proof.
  intros Hinit Hin. apply mapM_Some in Hinit.
  apply list_elem_of_lookup in Hin as [i Hi].
  destruct (Forall2_lookup_r _ _ _ _ _ Hinit Hi) as (a & _ & Ha).
  apply init_sample_lookup in Ha as (x & _ & _ & Hk & _). eauto.
Qed.

(** Deriving the landmark samples. *)
Lemma wp_ref_source p models vals models_ref n_sampling sampling_method
    (Q : list loc -> State -> Prop) E st :
  resolves st models vals ->
  match models_ref with Some refs => exists rv, resolves st refs rv | None => True end ->
  (forall e ext evs,
      models_ref = None ->
      downsampling vals n_sampling sampling_method (spatial_key p) = inl e ->
      Forall not_empty_cache evs ->
      E e {| heap := heap st ++ ext; trace := trace st ++ evs |}) ->
  (forall refvals locs,
      ref_source st models_ref vals n_sampling sampling_method p refvals ->
      Forall2 (fun l a => (heap st ++ ref_extra models_ref vals refvals) !! l = Some a)
        locs refvals ->
      Q locs {| heap := heap st ++ ref_extra models_ref vals refvals;
                trace := trace st ++ ref_prelude models_ref vals n_sampling sampling_method p |}) ->
  wp (match models_ref with
      | None =>
          let* models_sampling := traverse copy_model models in
          call_downsampling models_sampling n_sampling sampling_method (spatial_key p)
      | Some models_ref => ret models_ref
      end) Q E st.
Proof.
  intros Hres Hwf HE HQ. destruct models_ref as [refs|]; simpl in *.
  - destruct Hwf as [rv Hrv]. apply wp_ret.
    specialize (HQ rv refs Hrv). rewrite !app_nil_r in HQ.
    destruct st. apply HQ. exact Hrv.
  - apply wp_bind.
    eapply (wp_copy_models _ models vals (heap st) []); [exact Hres | by rewrite app_nil_r |].
    unfold call_downsampling. apply wp_bind.
    rewrite (Forall2_length _ _ _ Hres).
    eapply (wp_deref_all _ vals (heap st) []); [by simpl; rewrite app_nil_r|].
    apply wp_bind, wp_emit. apply wp_bind, wp_lift.
    destruct (downsampling vals n_sampling sampling_method (spatial_key p))
      as [e|refvals] eqn:Hds.
    { apply HE; [done..|]. by repeat constructor. }
    apply wp_alloc_all. simpl. rewrite <- app_assoc.
    apply HQ; [done|].
    pose proof (resolves_seq (heap st ++ vals) refvals []) as Hseq.
    by rewrite app_nil_r, <- app_assoc in Hseq.
Qed.
End ReferenceRun.

Section ReferenceMaster.
Context {D : Data} {Bk : Backend}.
Implicit Types (a b f : AnnData) (p : Params).

Lemma finals_ref_nil p R0 : finals_ref p R0 [] = R0.
Proof. destruct R0; simpl; [done | by rewrite drop_0]. Qed.

(** [morpho_align_ref], run on references that point into the heap. *)
Lemma wp_morpho_align_ref p models vals models_ref n_sampling sampling_method
    (Q : list loc * list loc * list ndarray * list ndarray -> State -> Prop) E st :
  resolves st models vals ->
  match models_ref with Some refs => exists rv, resolves st refs rv | None => True end ->
  (forall e ext evs,
      ref_cause st models_ref vals n_sampling sampling_method p e ->
      Forall not_empty_cache evs ->
      E e {| heap := heap st ++ ext; trace := trace st ++ evs |}) ->
  (forall refvals F0 R0 steps,
      ref_source st models_ref vals n_sampling sampling_method p refvals ->
      mapM (init_sample p) vals = Some F0 ->
      mapM (init_sample p) refvals = Some R0 ->
      chain_ref_all p R0 F0 steps ->
      let extra := ref_extra models_ref vals refvals in
      let baseF := length (heap st) + length extra in
      let baseR := baseF + length vals in
      Q (seq baseF (length vals), seq baseR (length refvals),
         map (fun s => P (model (rs_step s))) steps,
         map (fun s => P (model (rs_step s))) steps)
        {| heap := heap st ++ extra ++ finals_full p F0 steps ++ finals_ref p R0 steps;
           trace := trace st ++
             ref_prelude models_ref vals n_sampling sampling_method p ++
             ref_events p baseR steps |}) ->
  wp (morpho_align_ref models models_ref n_sampling sampling_method p) Q E st.
Proof.
  intros Hres Hwf HE HQ. unfold morpho_align_ref.
  pose proof (Forall2_length _ _ _ Hres) as Hlen.
  apply wp_bind.
  eapply (wp_ref_source p models vals models_ref); [exact Hres | exact Hwf | |].
  { intros e ext evs Hnone Hds Hev. apply HE; [|done]. left. done. }
  intros refvals locsR0 Hsrc HlocsR0.
  set (extra := ref_extra models_ref vals refvals) in *.
  set (prelude := ref_prelude models_ref vals n_sampling sampling_method p) in *.
  specialize (HQ refvals).
  assert (Hprel : Forall not_empty_cache prelude).
  { unfold prelude, ref_prelude. destruct models_ref; by repeat constructor. }
  (* the copies of the full-resolution samples *)
  apply wp_bind.
  eapply (wp_copy_models _ models vals (heap st) extra); [exact Hres | done |].
  simpl. apply wp_bind. rewrite Hlen.
  eapply (wp_init_all p _ vals (heap st ++ extra) []); [by simpl; rewrite app_nil_r|].
  destruct (mapM (init_sample p) vals) as [F0|] eqn:HF0.
  2:{ intros ext. specialize (HE (KeyError (spatial_key p)) (extra ++ ext ++ []) prelude).
      simpl. rewrite <- app_assoc. apply HE; [|done]. right. left. done. }
  specialize (HQ F0). simpl. rewrite app_nil_r.
  (* the copies of the landmark samples *)
  pose proof (Forall2_length _ _ _ HlocsR0) as HlenR.
  apply wp_bind.
  eapply (wp_copy_models _ locsR0 refvals (heap st ++ extra) F0);
    [exact HlocsR0 | done |].
  simpl. apply wp_bind. rewrite HlenR.
  eapply (wp_init_all p _ refvals ((heap st ++ extra) ++ F0) []);
    [by simpl; rewrite app_nil_r|].
  destruct (mapM (init_sample p) refvals) as [R0|] eqn:HR0.
  2:{ intros ext.
      specialize (HE (KeyError (spatial_key p)) (extra ++ F0 ++ ext ++ []) prelude).
      simpl. rewrite <- !app_assoc. apply HE; [|done].
      right. right. left. exists refvals. split; [done|]. by left. }
  specialize (HQ R0). simpl. rewrite app_nil_r.
  pose proof (mapM_Some_1 _ _ _ HF0) as HF0'. apply Forall2_length in HF0'.
  pose proof (mapM_Some_1 _ _ _ HR0) as HR0'. apply Forall2_length in HR0'.
  rewrite !length_app, !length_seq.
  apply wp_bind. rewrite iteration_pairs.
  pose proof (fun steps => HQ steps Hsrc eq_refl eq_refl) as HQ'.
  clear HQ. rename HQ' into HQ. simpl in HQ.
  rewrite HF0' in *. rewrite HR0' in *.
  destruct F0 as [|f0 restF].
  { simpl. apply wp_ret, wp_ret. simpl.
    specialize (HQ [] eq_refl). simpl in HQ.
    rewrite finals_ref_nil in HQ.
    rewrite !app_nil_r in *. rewrite <- app_assoc. exact HQ. }
  simpl length. replace (S (length restF) - 1) with (length restF) by lia.
  destruct R0 as [|r0 restR].
  { (* no landmark sample at all *)
    destruct restF as [|f1 restF].
    - simpl. apply wp_ret, wp_ret.
      specialize (HQ [] (conj eq_refl eq_refl)). simpl in HQ.
      rewrite !app_nil_r in *. rewrite <- !app_assoc. exact HQ.
    - simpl. apply wp_bind. unfold morpho_align_ref_body.
      apply wp_bind, wp_list_get. simpl.
      specialize (HE IndexError (extra ++ (f0 :: f1 :: restF) ++ []) prelude).
      simpl in HE. simpl. rewrite <- !app_assoc. simpl. apply HE; [|done].
      right. right. left. exists refvals. split; [done|]. right.
      rewrite HF0', HR0'. simpl. split; [done|]. lia. }
  eapply (wp_ref_loop p (heap st ++ extra) (S (length restF)) _ _ E restF [] f0 restR [] r0 [] []).
  { simpl. by rewrite <- !app_assoc. }
  { done. }
  { simpl. lia. }
  { by rewrite length_app. }
  { simpl. rewrite length_app. f_equal; lia. }
  { intros e ext evs Hc Hev. simpl. rewrite <- !app_assoc.
    apply HE; [|by apply Forall_app].
    destruct Hc as [[-> Hlt]|[Hm|[Ht|[-> (f & Hin & Hk)]]]].
    - right. right. left. exists refvals. split; [done|]. right.
      rewrite HF0', HR0'. simpl. split; [done|]. lia.
    - right. right. right. by left.
    - right. right. right. by right.
    - exfalso. assert (is_Some (obsm f !! key_added p)) as [x Hx].
      { eapply init_all_working; [exact HF0 | by right]. }
      congruence. }
  intros steps Hchain. apply wp_ret. simpl.
  specialize (HQ steps Hchain). simpl in HQ.
  rewrite <- !app_assoc. simpl.
  rewrite length_app in *.
  exact HQ.
Qed.
End ReferenceMaster.

(** * Runs of the orchestrators *)

Section Runs.
Context {D : Data} {Bk : Backend}.
Implicit Types (a b f : AnnData) (p : Params).

Lemma morpho_align_spec p models vals st :
  resolves st models vals ->
  wp (morpho_align models p) (seq_ok p st vals) (seq_err p st vals) st.
Proof.
  intros Hres. pose proof (Forall2_length _ _ _ Hres) as Hlen.
  apply (wp_morpho_align p models vals); [done | | |].
  - intros ext Hnone. split; [by exists ext|]. left. done.
  - intros e ext evs la lb a b He Hok. split; [by exists ext|]. right.
    exists evs, la, lb, a, b. done.
  - intros S0 steps Hinit Hchain. exists S0, steps. by rewrite Hlen.
Qed.

Lemma morpho_align_ref_spec p models vals models_ref n_sampling sampling_method st :
  resolves st models vals ->
  refs_resolve st models_ref ->
  wp (morpho_align_ref models models_ref n_sampling sampling_method p)
     (ref_ok p st models_ref vals n_sampling sampling_method)
     (ref_err p st models_ref vals n_sampling sampling_method) st.
Proof.
  intros Hres Hwf.
  apply (wp_morpho_align_ref p models vals); [done | done | |].
  - intros e ext evs Hc Hev. split; [by exists ext|]. split; [by exists evs|]. done.
  - intros refvals F0 R0 steps Hsrc HF0 HR0 Hchain. simpl.
    by exists refvals, F0, R0, steps.
Qed.

(** Every path of either orchestrator only extends the heap. *)
Lemma morpho_align_frame p models vals st :
  resolves st models vals ->
  exists ext, heap (morpho_align models p st).1 = heap st ++ ext.
Proof.
  intros Hres. pose proof (morpho_align_spec p models vals st Hres) as Hwp.
  unfold wp in Hwp. destruct (morpho_align models p st) as [st' [e|res]]; simpl.
  - by destruct Hwp as [Hf _].
  - destruct Hwp as (S0 & steps & _ & _ & _ & Hh & _). eauto.
Qed.

Lemma morpho_align_ref_frame p models vals models_ref n_sampling sampling_method st :
  resolves st models vals ->
  refs_resolve st models_ref ->
  exists ext,
    heap (morpho_align_ref models models_ref n_sampling sampling_method p st).1
    = heap st ++ ext.
Proof.
  intros Hres Hwf.
  pose proof (morpho_align_ref_spec p models vals models_ref n_sampling sampling_method
                st Hres Hwf) as Hwp.
  unfold wp in Hwp.
  destruct (morpho_align_ref models models_ref n_sampling sampling_method p st)
    as [st' [e|res]]; simpl.
  - by destruct Hwp as [Hf _].
  - destruct Hwp as (rv & F0 & R0 & steps & _ & _ & _ & _ & _ & Hh & _). eauto.
Qed.

(** ** Reading the chain *)

Lemma chain_facts p prev rest steps :
  chain p prev rest steps ->
  length steps = length rest /\
  forall k s, steps !! k = Some s ->
    rest !! k = Some (moving s) /\
    (prev :: map (final_sample p) steps) !! k = Some (fixed s) /\
    Morpho_pairwise (moving s) (fixed s) (morpho_args p) = inr (model s).
Proof.
  induction 1 as [prev|prev b rest r steps Hr Hchain [IHlen IH]]; simpl.
  - split; [done|]. intros k s Hk. by rewrite lookup_nil in Hk.
  - split; [by rewrite IHlen|]. intros [|k] s Hk; simpl in *.
    + by injection Hk as <-.
    + destruct (IH k s Hk) as (Hm & Hf & He). done.
Qed.

Lemma chain_all_facts p S0 steps :
  chain_all p S0 steps ->
  length steps = length S0 - 1 /\
  length (finals p S0 steps) = length S0 /\
  finals p S0 steps !! 0 = S0 !! 0 /\
  forall k s, steps !! k = Some s ->
    S0 !! (k + 1) = Some (moving s) /\
    finals p S0 steps !! k = Some (fixed s) /\
    finals p S0 steps !! (k + 1) = Some (final_sample p s) /\
    Morpho_pairwise (moving s) (fixed s) (morpho_args p) = inr (model s).
Proof.
  unfold chain_all, finals. destruct S0 as [|s0 rest].
  - intros ->. repeat split; try done.
  - intros Hchain. destruct (chain_facts _ _ _ _ Hchain) as [Hlen Hsteps].
    simpl. rewrite length_map, Nat.sub_0_r.
    split; [done|]. split; [lia|]. split; [done|].
    intros k s Hk. destruct (Hsteps k s Hk) as (Hm & Hf & He).
    rewrite Nat.add_1_r. simpl. split; [done|]. split; [done|]. split; [|done].
    by rewrite list_lookup_fmap, Hk.
Qed.

Lemma chain_ref_facts p prev rest_ref rest_full steps :
  chain_ref p prev rest_ref rest_full steps ->
  length steps = length rest_full /\
  length rest_full <= length rest_ref /\
  forall k s, steps !! k = Some s ->
    rest_ref !! k = Some (moving (rs_step s)) /\
    rest_full !! k = Some (rs_full s) /\
    (prev :: map (fun s => final_sample p (rs_step s)) steps) !! k
      = Some (fixed (rs_step s)) /\
    Morpho_pairwise (moving (rs_step s)) (fixed (rs_step s)) (morpho_args p)
      = inr (model (rs_step s)) /\
    obsm (rs_full s) !! key_added p = Some (rs_query s) /\
    BA_transform (vecfld (model (rs_step s))) (rs_query s) (device p) (dtype p)
      = inr (rs_nonrigid s, rs_displacement s, rs_rigid s).
Proof.
  induction 1 as [prev rest_ref
                 |prev b rest_ref f rest_full r q nr disp rg steps Hr Hq Ht Hchain
                    (IHlen & IHle & IH)]; simpl.
  - split; [done|]. split; [lia|]. intros k s Hk. by rewrite lookup_nil in Hk.
  - split; [lia|]. split; [lia|]. intros [|k] s Hk; simpl in *.
    + by injection Hk as <-.
    + by destruct (IH k s Hk) as (? & ? & ? & ? & ? & ?).
Qed.
End Runs.

(** * Reading the trace *)

Section Traces.
Context {D : Data} {Bk : Backend}.
Implicit Types (a b f : AnnData) (p : Params).

Lemma new_events_app (st st' : State) evs :
  trace st' = trace st ++ evs -> new_events st st' = evs.
Proof. unfold new_events. intros ->. apply drop_app_length. Qed.

Lemma morpho_calls_app (l1 l2 : list event) :
  morpho_calls (l1 ++ l2) = morpho_calls l1 ++ morpho_calls l2.
Proof. apply omap_app. Qed.

Lemma morpho_calls_concat_imap {A} (g : nat -> A -> list event)
    (h : nat -> A -> loc * loc * AnnData * AnnData * MorphoArgs) :
  forall steps,
    (forall k s, morpho_calls (g k s) = [h k s]) ->
    morpho_calls (concat (imap g steps)) = imap h steps.
Proof.
  intros steps. revert g h. induction steps as [|s steps IH]; intros g h Hgh; [done|].
  simpl. rewrite morpho_calls_app, Hgh. simpl. f_equal.
  apply IH. intros k s'. apply Hgh.
Qed.

Lemma morpho_calls_seq_events p base steps :
  morpho_calls (seq_events p base steps) =
  imap (fun k s => (base + k + 1, base + k, moving s, fixed s, morpho_args p)) steps.
Proof. by apply morpho_calls_concat_imap. Qed.

Lemma morpho_calls_ref_events p base steps :
  morpho_calls (ref_events p base steps) =
  imap (fun k s => (base + k + 1, base + k,
                    moving (rs_step s), fixed (rs_step s), morpho_args p)) steps.
Proof. by apply morpho_calls_concat_imap. Qed.

Lemma ref_events_not_empty_cache p base steps :
  Forall not_empty_cache (ref_events p base steps).
Proof.
  unfold ref_events. apply Forall_concat, Forall_forall. intros evs Hin.
  apply list_elem_of_lookup in Hin as [k Hk].
  rewrite list_lookup_imap in Hk.
  destruct (steps !! k) as [s|]; simpl in Hk; [|done].
  injection Hk as <-. by repeat constructor.
Qed.

Lemma ref_prelude_calls models_ref vals n_sampling sampling_method p evs :
  morpho_calls (ref_prelude models_ref vals n_sampling sampling_method p ++ evs)
  = morpho_calls evs.
Proof. by destruct models_ref. Qed.
End Traces.

(** * The samples a successful run returns *)

Section Outputs.
Context {D : Data} {Bk : Backend}.
Implicit Types (a b f : AnnData) (p : Params).

Lemma init_all_lookup p vals S0 k a :
  mapM (init_sample p) vals = Some S0 -> vals !! k = Some a ->
  exists s, S0 !! k = Some s /\ init_sample p a = Some s.
Proof.
  intros Hinit Hk. apply mapM_Some in Hinit.
  destruct (Forall2_lookup_l _ _ _ _ _ Hinit Hk) as (s & Hs & Hinit'). eauto.
Qed.

Lemma init_all_lookup_r p vals S0 k s :
  mapM (init_sample p) vals = Some S0 -> S0 !! k = Some s ->
  exists a, vals !! k = Some a /\ init_sample p a = Some s.
Proof.
  intros Hinit Hk. apply mapM_Some in Hinit.
  destruct (Forall2_lookup_r _ _ _ _ _ Hinit Hk) as (a & Ha & Hinit'). eauto.
Qed.

Lemma init_all_length p vals S0 :
  mapM (init_sample p) vals = Some S0 -> length S0 = length vals.
Proof. intros Hinit. apply mapM_Some in Hinit. by apply Forall2_length in Hinit. Qed.

Lemma seq_ok_shape p st vals out pis st' :
  seq_ok p st vals (out, pis) st' ->
  out = seq (length (heap st)) (length vals) /\
  length pis = length vals - 1 /\
  length (morpho_calls (new_events st st')) = length vals - 1.
Proof.
  intros (S0 & steps & Hinit & Hchain & [= -> ->] & Hh & Ht).
  destruct (chain_all_facts _ _ _ Hchain) as (Hlen & _).
  rewrite (init_all_length _ _ _ Hinit) in Hlen.
  rewrite (new_events_app _ _ _ Ht), morpho_calls_seq_events.
  by rewrite length_map, length_imap.
Qed.

(** The first sample is the initialised copy of the caller's first one. *)
Lemma seq_ok_first p st vals out pis st' l0 :
  seq_ok p st vals (out, pis) st' ->
  out !! 0 = Some l0 ->
  exists a0 s0,
    vals !! 0 = Some a0 /\ init_sample p a0 = Some s0 /\ heap st' !! l0 = Some s0.
Proof.
  intros (S0 & steps & Hinit & Hchain & [= -> ->] & Hh & Ht) Hl0.
  apply lookup_seq in Hl0 as [-> Hlt].
  destruct (chain_all_facts _ _ _ Hchain) as (_ & _ & H0 & _).
  destruct (lookup_lt_is_Some_2 vals 0 Hlt) as [a0 Ha0].
  destruct (init_all_lookup _ _ _ _ _ Hinit Ha0) as (s0 & Hs0 & Hi0).
  exists a0, s0. split; [done|]. split; [done|].
  rewrite Hh, lookup_app_r by lia.
  replace (length (heap st) + 0 - length (heap st)) with 0 by lia.
  by rewrite H0.
Qed.

(** Every later sample is what pair [k - 1] left of the initialised copy
    of the caller's sample [k], registered onto the sample before it. *)
Lemma seq_ok_later p st vals out pis st' k l :
  seq_ok p st vals (out, pis) st' ->
  1 <= k -> out !! k = Some l ->
  exists s a lprev,
    vals !! k = Some a /\ init_sample p a = Some (moving s) /\
    out !! (k - 1) = Some lprev /\
    heap st' !! l = Some (final_sample p s) /\
    heap st' !! lprev = Some (fixed s) /\
    Morpho_pairwise (moving s) (fixed s) (morpho_args p) = inr (model s) /\
    morpho_calls (new_events st st') !! (k - 1)
      = Some (l, lprev, moving s, fixed s, morpho_args p) /\
    pis !! (k - 1) = Some (transpose (P (model s))).
Proof.
  intros (S0 & steps & Hinit & Hchain & [= -> ->] & Hh & Ht) Hk Hl.
  apply lookup_seq in Hl as [-> Hlt].
  destruct (chain_all_facts _ _ _ Hchain) as (Hlen & Hflen & _ & Hsteps).
  pose proof (init_all_length _ _ _ Hinit) as HlenS.
  assert (is_Some (steps !! (k - 1))) as [s Hs] by (apply lookup_lt_is_Some_2; lia).
  destruct (Hsteps _ _ Hs) as (Hm & Hf & Hfin & He).
  replace (k - 1 + 1) with k in * by lia.
  destruct (init_all_lookup_r _ _ _ _ _ Hinit Hm) as (a & Ha & Hia).
  exists s, a, (length (heap st) + (k - 1)).
  split; [done|]. split; [done|].
  split; [by apply lookup_seq_lt; lia|].
  split.
  { rewrite Hh, lookup_app_r by lia.
    by replace (length (heap st) + k - length (heap st)) with k by lia. }
  split.
  { rewrite Hh, lookup_app_r by lia.
    by replace (length (heap st) + (k - 1) - length (heap st)) with (k - 1) by lia. }
  split; [done|]. split.
  - rewrite (new_events_app _ _ _ Ht), morpho_calls_seq_events.
    rewrite list_lookup_imap, Hs. simpl.
    by replace (length (heap st) + (k - 1) + 1) with (length (heap st) + k) by lia.
  - by rewrite list_lookup_fmap, Hs.
Qed.
End Outputs.

Section ReferenceOutputs.
Context {D : Data} {Bk : Backend}.
Implicit Types (a b f : AnnData) (p : Params).

Lemma chain_ref_all_facts p R0 F0 steps :
  chain_ref_all p R0 F0 steps ->
  length steps = length F0 - 1 /\
  length (finals_full p F0 steps) = length F0 /\
  length (finals_ref p R0 steps) = length R0 /\
  finals_full p F0 steps !! 0 = F0 !! 0 /\
  finals_ref p R0 steps !! 0 = R0 !! 0 /\
  (forall j, length steps < j -> finals_ref p R0 steps !! j = R0 !! j) /\
  forall k s, steps !! k = Some s ->
    R0 !! (k + 1) = Some (moving (rs_step s)) /\
    F0 !! (k + 1) = Some (rs_full s) /\
    finals_ref p R0 steps !! k = Some (fixed (rs_step s)) /\
    finals_ref p R0 steps !! (k + 1) = Some (final_sample p (rs_step s)) /\
    finals_full p F0 steps !! (k + 1) = Some (final_full p s) /\
    Morpho_pairwise (moving (rs_step s)) (fixed (rs_step s)) (morpho_args p)
      = inr (model (rs_step s)) /\
    obsm (rs_full s) !! key_added p = Some (rs_query s) /\
    BA_transform (vecfld (model (rs_step s))) (rs_query s) (device p) (dtype p)
      = inr (rs_nonrigid s, rs_displacement s, rs_rigid s).
Proof.
  unfold chain_ref_all. destruct F0 as [|f0 restF].
  { intros ->. rewrite finals_ref_nil. simpl. do 6 (split; [done|]).
    intros k s Hk. by rewrite lookup_nil in Hk. }
  destruct R0 as [|r0 restR].
  { intros [-> ->]. simpl. do 6 (split; [done|]).
    intros k s Hk. by rewrite lookup_nil in Hk. }
  intros Hchain. destruct (chain_ref_facts _ _ _ _ _ Hchain) as (Hlen & Hle & Hsteps).
  unfold finals_full, finals_ref. simpl length.
  rewrite !length_app, !length_map, length_drop.
  split; [lia|]. split; [lia|]. split; [lia|]. split; [done|]. split; [done|]. split.
  - intros [|j] Hj; [lia|]. simpl.
    rewrite lookup_app_r by (rewrite length_map; lia).
    rewrite length_map, lookup_drop. f_equal. lia.
  - intros k s Hk.
    destruct (Hsteps k s Hk) as (Hm & Hf & Hfix & He & Hq & Ht).
    pose proof (lookup_lt_Some _ _ _ Hk) as Hlt.
    rewrite Nat.add_1_r. simpl.
    split; [done|]. split; [done|]. split.
    { destruct k as [|k]; [done|]. simpl in *.
      rewrite lookup_app_l by (rewrite length_map; lia). done. }
    split.
    { rewrite lookup_app_l by (rewrite length_map; lia).
      by rewrite list_lookup_fmap, Hk. }
    split; [by rewrite list_lookup_fmap, Hk|]. done.
Qed.

(** The layout of the heap after [morpho_align_ref]. *)
Lemma heap_lookup_full (h extra FF RR : list AnnData) k :
  k < length FF ->
  (h ++ extra ++ FF ++ RR) !! (length h + length extra + k) = FF !! k.
Proof.
  intros Hk. rewrite lookup_app_r by lia. rewrite lookup_app_r by lia.
  rewrite lookup_app_l by lia. f_equal. lia.
Qed.

Lemma heap_lookup_ref (h extra FF RR : list AnnData) n k :
  length FF = n ->
  (h ++ extra ++ FF ++ RR) !! (length h + length extra + n + k) = RR !! k.
Proof.
  intros Hn. rewrite lookup_app_r by lia. rewrite lookup_app_r by lia.
  rewrite lookup_app_r by lia. f_equal. lia.
Qed.

Lemma ref_ok_shape p st models_ref vals n_sampling sampling_method out out_ref pis pis_ref st' :
  ref_ok p st models_ref vals n_sampling sampling_method (out, out_ref, pis, pis_ref) st' ->
  exists refvals,
    ref_source st models_ref vals n_sampling sampling_method p refvals /\
    let baseF := length (heap st) + length (ref_extra models_ref vals refvals) in
    out = seq baseF (length vals) /\
    out_ref = seq (baseF + length vals) (length refvals) /\
    length pis = length vals - 1 /\
    length pis_ref = length vals - 1 /\
    pis = pis_ref /\
    length (morpho_calls (new_events st st')) = length vals - 1 /\
    (exists evs,
        new_events st st' =
          ref_prelude models_ref vals n_sampling sampling_method p ++ evs /\
        Forall not_empty_cache evs) /\
    (2 <= length vals -> length vals <= length refvals).
Proof.
  intros (refvals & F0 & R0 & steps & Hsrc & HF0 & HR0 & Hchain & Hres & Hh & Ht).
  simpl in Hres. injection Hres as -> -> -> ->.
  exists refvals. split; [done|]. simpl.
  destruct (chain_ref_all_facts _ _ _ _ Hchain) as (Hlen & _).
  rewrite (init_all_length _ _ _ HF0) in Hlen.
  rewrite (new_events_app _ _ _ Ht), ref_prelude_calls, morpho_calls_ref_events.
  rewrite !length_map, length_imap.
  repeat (split; [done|]). split.
  - eexists. split; [done|]. apply ref_events_not_empty_cache.
  - intros Hn. unfold chain_ref_all in Hchain.
    pose proof (init_all_length _ _ _ HF0) as HlF.
    pose proof (init_all_length _ _ _ HR0) as HlR.
    destruct F0 as [|f0 restF]; [simpl in *; lia|].
    destruct R0 as [|r0 restR].
    + destruct Hchain as [-> _]. simpl in *. lia.
    + destruct (chain_ref_facts _ _ _ _ _ Hchain) as (_ & Hle & _). simpl in *. lia.
Qed.

(** The first full-resolution and landmark samples are initialised copies. *)
Lemma ref_ok_first p st models_ref vals n_sampling sampling_method out out_ref pis pis_ref
    st' l0 :
  ref_ok p st models_ref vals n_sampling sampling_method (out, out_ref, pis, pis_ref) st' ->
  out !! 0 = Some l0 ->
  exists a0 s0,
    vals !! 0 = Some a0 /\ init_sample p a0 = Some s0 /\ heap st' !! l0 = Some s0.
Proof.
  intros (refvals & F0 & R0 & steps & Hsrc & HF0 & HR0 & Hchain & Hres & Hh & Ht) Hl0.
  simpl in Hres. injection Hres as -> -> -> ->.
  apply lookup_seq in Hl0 as [-> Hlt].
  destruct (chain_ref_all_facts _ _ _ _ Hchain) as (_ & HlenF & _ & H0 & _).
  pose proof (init_all_length _ _ _ HF0) as HlF.
  destruct (lookup_lt_is_Some_2 vals 0 Hlt) as [a0 Ha0].
  destruct (init_all_lookup _ _ _ _ _ HF0 Ha0) as (s0 & Hs0 & Hi0).
  exists a0, s0. split; [done|]. split; [done|].
  rewrite Hh, heap_lookup_full by lia. by rewrite H0.
Qed.

(** Every landmark sample that no pair has moved is an initialised copy. *)
Lemma ref_ok_landmark_untouched p st models_ref vals n_sampling sampling_method
    out out_ref pis pis_ref st' j l :
  ref_ok p st models_ref vals n_sampling sampling_method (out, out_ref, pis, pis_ref) st' ->
  j = 0 \/ length vals <= j ->
  out_ref !! j = Some l ->
  exists refvals ar sr,
    ref_source st models_ref vals n_sampling sampling_method p refvals /\
    refvals !! j = Some ar /\ init_sample p ar = Some sr /\ heap st' !! l = Some sr.
Proof.
  intros (refvals & F0 & R0 & steps & Hsrc & HF0 & HR0 & Hchain & Hres & Hh & Ht) Hj Hl.
  simpl in Hres. injection Hres as -> -> -> ->.
  apply lookup_seq in Hl as [-> Hlt].
  destruct (chain_ref_all_facts _ _ _ _ Hchain) as (Hlen & HlenF & _ & _ & H0 & Htail & _).
  pose proof (init_all_length _ _ _ HF0) as HlF.
  destruct (lookup_lt_is_Some_2 refvals j Hlt) as [ar Har].
  destruct (init_all_lookup _ _ _ _ _ HR0 Har) as (sr & Hsr & Hir).
  exists refvals, ar, sr. split; [done|]. split; [done|]. split; [done|].
  rewrite Hh, (heap_lookup_ref _ _ _ _ (length vals)) by lia.
  destruct Hj as [->|Hj]; [by rewrite H0|].
  destruct (decide (j = 0)) as [->|Hne]; [by rewrite H0|].
  rewrite Htail by lia. done.
Qed.

(** Pair [k - 1] of the reference chain, seen from the samples it leaves. *)
Lemma ref_ok_later p st models_ref vals n_sampling sampling_method out out_ref pis pis_ref
    st' k l :
  ref_ok p st models_ref vals n_sampling sampling_method (out, out_ref, pis, pis_ref) st' ->
  1 <= k -> out !! k = Some l ->
  exists s a lr lrprev,
    vals !! k = Some a /\ init_sample p a = Some (rs_full s) /\
    heap st' !! l = Some (final_full p s) /\
    out_ref !! k = Some lr /\ out_ref !! (k - 1) = Some lrprev /\
    heap st' !! lr = Some (final_sample p (rs_step s)) /\
    heap st' !! lrprev = Some (fixed (rs_step s)) /\
    Morpho_pairwise (moving (rs_step s)) (fixed (rs_step s)) (morpho_args p)
      = inr (model (rs_step s)) /\
    obsm (rs_full s) !! key_added p = Some (rs_query s) /\
    BA_transform (vecfld (model (rs_step s))) (rs_query s) (device p) (dtype p)
      = inr (rs_nonrigid s, rs_displacement s, rs_rigid s) /\
    morpho_calls (new_events st st') !! (k - 1)
      = Some (lr, lrprev, moving (rs_step s), fixed (rs_step s), morpho_args p) /\
    EvTransform (vecfld (model (rs_step s))) (rs_query s) (device p) (dtype p)
      ∈ new_events st st' /\
    pis !! (k - 1) = Some (P (model (rs_step s))) /\
    pis_ref !! (k - 1) = Some (P (model (rs_step s))) /\
    exists refvals ar,
      ref_source st models_ref vals n_sampling sampling_method p refvals /\
      refvals !! k = Some ar /\ init_sample p ar = Some (moving (rs_step s)).
Proof.
  intros (refvals & F0 & R0 & steps & Hsrc & HF0 & HR0 & Hchain & Hres & Hh & Ht) Hk Hl.
  simpl in Hres. injection Hres as -> -> -> ->.
  apply lookup_seq in Hl as [-> Hlt].
  destruct (chain_ref_all_facts _ _ _ _ Hchain)
    as (Hlen & HlenF & HlenR & _ & _ & _ & Hsteps).
  pose proof (init_all_length _ _ _ HF0) as HlF.
  pose proof (init_all_length _ _ _ HR0) as HlR.
  assert (is_Some (steps !! (k - 1))) as [s Hs] by (apply lookup_lt_is_Some_2; lia).
  destruct (Hsteps _ _ Hs) as (Hm & Hf & Hfix & Hfin & Hfull & He & Hq & Htr).
  replace (k - 1 + 1) with k in * by lia.
  destruct (init_all_lookup_r _ _ _ _ _ HF0 Hf) as (a & Ha & Hia).
  destruct (init_all_lookup_r _ _ _ _ _ HR0 Hm) as (ar & Har & Hiar).
  pose proof (lookup_lt_Some _ _ _ Har) as HkR.
  set (baseF := length (heap st) + length (ref_extra models_ref vals refvals)) in *.
  exists s, a, (baseF + length vals + k), (baseF + length vals + (k - 1)).
  split; [done|]. split; [done|].
  split; [by rewrite Hh; unfold baseF; rewrite heap_lookup_full by lia|].
  split; [by apply lookup_seq_lt|].
  split; [by apply lookup_seq_lt; lia|].
  split.
  { rewrite Hh. unfold baseF. by rewrite (heap_lookup_ref _ _ _ _ (length vals)) by lia. }
  split.
  { rewrite Hh. unfold baseF. by rewrite (heap_lookup_ref _ _ _ _ (length vals)) by lia. }
  split; [done|]. split; [done|]. split; [done|].
  rewrite (new_events_app _ _ _ Ht).
  split.
  { rewrite ref_prelude_calls, morpho_calls_ref_events.
    rewrite list_lookup_imap, Hs. simpl.
    by replace (baseF + length vals + (k - 1) + 1) with (baseF + length vals + k) by lia. }
  split.
  { apply elem_of_app. right. unfold ref_events. apply list_elem_of_In, in_concat.
    exists (ref_pair_events p (baseF + length vals) (k - 1) s). split.
    - apply list_elem_of_In, list_elem_of_lookup. exists (k - 1).
      by rewrite list_lookup_imap, Hs.
    - unfold ref_pair_events. right. by left. }
  split; [by rewrite list_lookup_fmap, Hs|].
  split; [by rewrite list_lookup_fmap, Hs|].
  by exists refvals, ar.
Qed.
End ReferenceOutputs.

Section FinalSlots.
Context {D : Data}.
Implicit Types (a b f : AnnData) (p : Params).

Lemma annotate_uns p r a :
  uns (annotate p r a) =
  write_opt (vecfld_key_added p) (UnsVecFld (vecfld r))
    (write_opt (iter_key_added p) (UnsIter (iter_added r)) (uns a)).
Proof.
  unfold annotate, set_uns_opt, write_opt.
  by destruct (vecfld_key_added p), (iter_key_added p).
Qed.

Lemma attach_uns_write p r b :
  uns (attach p r b) =
  write_opt (vecfld_key_added p) (UnsVecFld (vecfld r))
    (write_opt (iter_key_added p) (UnsIter (iter_added r)) (uns b)).
Proof. unfold attach. by rewrite annotate_uns, uns_choose. Qed.

Lemma attach_full_uns_write p r nr rg f :
  uns (attach_full p r nr rg f) =
  write_opt (vecfld_key_added p) (UnsVecFld (vecfld r))
    (write_opt (iter_key_added p) (UnsIter (iter_added r)) (uns f)).
Proof. unfold attach_full. by rewrite uns_choose; simpl; rewrite annotate_uns. Qed.

Lemma attach_full_rigid p r nr rg f :
  obsm (attach_full p r nr rg f) !! rigid_key p = Some rg.
Proof.
  unfold attach_full, choose. pose proof (key_ne_rigid p).
  repeat case_match; simpl; by simplify_map_eq.
Qed.

Lemma attach_full_nonrigid p r nr rg f :
  obsm (attach_full p r nr rg f) !! nonrigid_key p = Some nr.
Proof.
  unfold attach_full, choose. pose proof (key_ne_nonrigid p).
  pose proof (rigid_ne_nonrigid p).
  repeat case_match; simpl; by simplify_map_eq.
Qed.


Lemma attach_working_some p r b :
  is_Some (obsm b !! key_added p) -> is_Some (obsm (attach p r b) !! key_added p).
Proof.
  intros Hb. unfold attach. rewrite obsm_annotate. unfold choose.
  pose proof (key_ne_rigid p). pose proof (key_ne_nonrigid p).
  repeat case_match; simpl; simplify_map_eq; eauto.
Qed.

Lemma attach_full_working_some p r nr rg f :
  is_Some (obsm f !! key_added p) ->
  is_Some (obsm (attach_full p r nr rg f) !! key_added p).
Proof.
  intros Hf. unfold attach_full, choose.
  pose proof (key_ne_rigid p). pose proof (key_ne_nonrigid p).
  repeat case_match; simpl; simplify_map_eq; rewrite ?obsm_annotate; eauto.
Qed.

Lemma n_obs_init p a s : init_sample p a = Some s -> n_obs s = n_obs a.
Proof.
  intros Hinit. apply init_sample_lookup in Hinit as (x & _ & _ & _ & _ & _ & _ & HX).
  unfold n_obs. by rewrite HX.
Qed.

(** An initialised sample carries the three coordinate variants. *)
Lemma init_sample_variants p a s :
  init_sample p a = Some s ->
  is_Some (obsm s !! key_added p) /\
  is_Some (obsm s !! rigid_key p) /\
  is_Some (obsm s !! nonrigid_key p).
Proof.
  intros Hinit. apply init_sample_lookup in Hinit as (x & _ & _ & Hw & Hr & Hn & _).
  eauto.
Qed.
End FinalSlots.

(** * Properties of the sequential orchestrator *)

Section SequentialClaims.
Context {D : Data} {Bk : Backend}.
Implicit Types (a b : AnnData) (p : Params).

(** C1 (chain consistency).  After [morpho_align] has returned on a
    non-empty list of samples, with mode ['SN-S'] or ['SN-N']: the first
    output sample holds its original spatial coordinates in its working,
    rigid and non-rigid slots; every later output sample [k] holds, in its
    rigid and non-rigid slots, the two coordinate sets the engine returned
    for pair [k - 1], and its working slot is exactly the rigid one under
    ['SN-S'] and the non-rigid one under ['SN-N']. *)
Theorem morpho_align_chain_consistency p models vals st st' out pis :
  resolves st models vals ->
  models <> [] ->
  mode p = "SN-S" \/ mode p = "SN-N" ->
  morpho_align models p st = (st', inr (out, pis)) ->
  length out = length models /\
  (exists l0 a0 b0 x,
      out !! 0 = Some l0 /\ vals !! 0 = Some a0 /\ heap st' !! l0 = Some b0 /\
      obsm a0 !! spatial_key p = Some x /\
      obsm b0 !! key_added p = Some x /\
      obsm b0 !! rigid_key p = Some x /\
      obsm b0 !! nonrigid_key p = Some x) /\
  (forall k l, 1 <= k -> out !! k = Some l ->
     exists b r lprev sa sb,
       heap st' !! l = Some b /\
       out !! (k - 1) = Some lprev /\
       morpho_calls (new_events st st') !! (k - 1)
         = Some (l, lprev, sa, sb, morpho_args p) /\
       Morpho_pairwise sa sb (morpho_args p) = inr r /\
       obsm b !! rigid_key p = Some (optimal_RnA r) /\
       obsm b !! nonrigid_key p = Some (XAHat r) /\
       obsm b !! key_added p
         = Some (if String.eqb (mode p) "SN-S" then optimal_RnA r else XAHat r) /\
       obsm b !! key_added p
         = obsm b !! (if String.eqb (mode p) "SN-S" then rigid_key p else nonrigid_key p)).
Proof.
  intros Hres Hne Hmode Hrun.
  pose proof (wp_run_ok _ _ _ _ _ _ (morpho_align_spec p models vals st Hres) Hrun) as Hok.
  destruct (seq_ok_shape _ _ _ _ _ _ Hok) as (Hout & Hpis & Hcalls).
  pose proof (Forall2_length _ _ _ Hres) as Hlen.
  split; [by rewrite Hout, length_seq|]. split.
  - assert (0 < length vals) as Hpos.
    { rewrite <- Hlen. destruct models; [done | simpl; lia]. }
    assert (out !! 0 = Some (length (heap st) + 0)) as Hl0
      by (rewrite Hout; by apply lookup_seq_lt).
    destruct (seq_ok_first _ _ _ _ _ _ _ Hok Hl0) as (a0 & s0 & Ha0 & Hinit & Hs0).
    destruct (init_sample_lookup _ _ _ Hinit) as (x & Hx & _ & Hw & Hr & Hn & _).
    by exists (length (heap st) + 0), a0, s0, x.
  - intros k l Hk Hl.
    destruct (seq_ok_later _ _ _ _ _ _ _ _ Hok Hk Hl)
      as (s & a & lprev & Ha & Hinit & Hprev & Hfin & Hfix & He & Hcall & _).
    exists (final_sample p s), (model s), lprev, (moving s), (fixed s).
    unfold final_sample. rewrite attach_rigid, attach_nonrigid.
    repeat (split; [done|]).
    destruct Hmode as [Hm|Hm]; rewrite Hm; simpl.
    + by rewrite (attach_working_rigid _ _ _ Hm), attach_rigid.
    + by rewrite (attach_working_nonrigid _ _ _ Hm), attach_nonrigid.
Qed.


(** C7 (no partial output).  If an engine call made by [morpho_align]
    raised [e], then [morpho_align] itself ended by raising [e]: it
    returned neither samples nor matrices, and every object the caller held
    is as it was. *)
Theorem morpho_align_failure_aborts p models vals st st' res c e :
  resolves st models vals ->
  morpho_align models p st = (st', res) ->
  c ∈ morpho_calls (new_events st st') ->
  call_result c = inl e ->
  res = inl e /\
  forall l a, heap st !! l = Some a -> heap st' !! l = Some a.
Proof.
  intros Hres Hrun Hc He.
  pose proof (morpho_align_spec p models vals st Hres) as Hwp.
  unfold wp in Hwp. rewrite Hrun in Hwp. destruct res as [e'|[out pis]].
  - destruct Hwp as [[ext Hh] Hcause]. split.
    + destruct Hcause as [(_ & _ & Ht)|(evs & la & lb & a & b & Ht & Hok & Hfail)].
      * rewrite (new_events_app st st' []) in Hc by (by rewrite app_nil_r).
        by apply elem_of_nil in Hc.
      * rewrite (new_events_app _ _ _ Ht), morpho_calls_app in Hc.
        apply elem_of_app in Hc as [Hc|Hc].
        -- rewrite Forall_forall in Hok. destruct (Hok _ Hc) as [r Hr]. congruence.
        -- simpl in Hc. apply list_elem_of_singleton in Hc as ->. simpl in He. congruence.
    + intros l a Hl. rewrite Hh. by apply lookup_app_l_Some.
  - exfalso. destruct Hwp as (S0 & steps & Hinit & Hchain & _ & Hh & Ht).
    rewrite (new_events_app _ _ _ Ht), morpho_calls_seq_events in Hc.
    apply list_elem_of_lookup in Hc as [k Hk].
    rewrite list_lookup_imap in Hk.
    destruct (steps !! k) as [s|] eqn:Hs; simpl in Hk; [|done]. injection Hk as <-.
    destruct (chain_all_facts _ _ _ Hchain) as (_ & _ & _ & Hsteps).
    destruct (Hsteps _ _ Hs) as (_ & _ & _ & Hr). simpl in He. congruence.
Qed.

End SequentialClaims.

Lemma toy_resolves : @resolves toy_data toy_state toy_models toy_heap.
Proof. by repeat constructor. Qed.

Lemma morpho_align_chain_consistency_witness :
  exists st' out pis,
    @morpho_align toy_data toy_backend toy_models (default_params "SN-S") toy_state
      = (st', inr (out, pis)) /\
    length out = 3 /\
    exists l0 b0 x,
      out !! 0 = Some l0 /\ @heap toy_data st' !! l0 = Some b0 /\
      @obsm toy_data (toy_sample 2 100) !! "spatial" = Some x /\
      @obsm toy_data b0 !! "align_spatial" = Some x.
Proof.
  assert (returned (@morpho_align toy_data toy_backend toy_models
                      (default_params "SN-S") toy_state).2 = true) as Hret
    by (vm_compute; reflexivity).
  destruct (@morpho_align toy_data toy_backend toy_models (default_params "SN-S") toy_state)
    as [st' [e|[out pis]]] eqn:Hrun; [discriminate Hret|].
  exists st', out, pis. split; [reflexivity|].
  destruct (@morpho_align_chain_consistency toy_data toy_backend (default_params "SN-S")
              toy_models toy_heap toy_state st' out pis toy_resolves
              ltac:(discriminate) (or_introl eq_refl) Hrun)
    as (Hlen & (l0 & a0 & b0 & x & Hl0 & Ha0 & Hb0 & Hx & Hw & _) & _).
  split; [exact Hlen|]. exists l0, b0, x.
  injection Ha0 as <-.
  split; [exact Hl0|]. split; [exact Hb0|]. split; [exact Hx | exact Hw].
Defined.


Lemma empty_tail_resolves :
  @resolves toy_data empty_tail_state toy_models (@heap toy_data empty_tail_state).
Proof. by repeat constructor. Qed.

Lemma morpho_align_failure_aborts_witness :
  exists st' res,
    @morpho_align toy_data strict_backend toy_models (default_params "SN-S") empty_tail_state
      = (st', res) /\
    res = inl EmptyInput /\
    forall l a, @heap toy_data empty_tail_state !! l = Some a ->
                @heap toy_data st' !! l = Some a.
Proof.
  assert (@call_result toy_data strict_backend <$>
            @morpho_calls toy_data
              (@new_events toy_data empty_tail_state
                 (@morpho_align toy_data strict_backend toy_models
                    (default_params "SN-S") empty_tail_state).1) !! 1
          = Some (inl EmptyInput)) as Hcall
    by (vm_compute; reflexivity).
  destruct (@morpho_align toy_data strict_backend toy_models (default_params "SN-S")
              empty_tail_state) as [st' res] eqn:Hrun.
  simpl in Hcall.
  destruct (@morpho_calls toy_data (@new_events toy_data empty_tail_state st') !! 1)
    as [c|] eqn:Hc; [|discriminate Hcall].
  injection Hcall as Hfail.
  exists st', res. split; [reflexivity|].
  exact (@morpho_align_failure_aborts toy_data strict_backend (default_params "SN-S")
           toy_models _ empty_tail_state st' res c EmptyInput empty_tail_resolves Hrun
           (list_elem_of_lookup_2 _ _ _ Hc) Hfail).
Defined.

(** * Properties of both orchestrators *)

Section BothClaims.
Context {D : Data} {Bk : Backend}.
Implicit Types (a b : AnnData) (p : Params).

Lemma resolves_functional st ls xs ys :
  resolves st ls xs -> resolves st ls ys -> xs = ys.
Proof.
  unfold resolves. intros Hxs. revert ys.
  induction Hxs as [|l x ls xs Hl _ IH]; intros ys Hys.
  - by apply Forall2_nil_inv_l in Hys.
  - apply Forall2_cons_inv_l in Hys as (y & ys' & Hl' & Hys & ->).
    f_equal; [congruence | by apply IH].
Qed.

Lemma ref_source_functional st models_ref vals n_sampling sampling_method p rv rv' :
  ref_source st models_ref vals n_sampling sampling_method p rv ->
  ref_source st models_ref vals n_sampling sampling_method p rv' ->
  rv = rv'.
Proof.
  destruct models_ref; simpl; [apply resolves_functional | congruence].
Qed.

(** The lists a returning run of [morpho_align_ref] hands back: one
    full-resolution sample per input, one landmark sample per reference
    sample. *)
Lemma ref_ok_lengths p st models_ref vals n_sampling sampling_method out out_ref pis pis_ref
    st' :
  ref_ok p st models_ref vals n_sampling sampling_method (out, out_ref, pis, pis_ref) st' ->
  exists refvals,
    ref_source st models_ref vals n_sampling sampling_method p refvals /\
    length out = length vals /\ length out_ref = length refvals.
Proof.
  intros Hok. destruct (ref_ok_shape _ _ _ _ _ _ _ _ _ _ _ Hok)
    as (refvals & Hsrc & Hout & Hout_ref & _).
  exists refvals. split; [done|]. simpl in Hout, Hout_ref.
  by rewrite Hout, Hout_ref, !length_seq.
Qed.

(** A landmark sample of a returning run, seen from the reference sample
    it was copied from: pair [k - 1] moved it when [1 <= k < N]; no pair
    touched it otherwise. *)
Lemma ref_ok_landmark p st models_ref vals n_sampling sampling_method out out_ref pis
    pis_ref st' refvals k l ar :
  ref_ok p st models_ref vals n_sampling sampling_method (out, out_ref, pis, pis_ref) st' ->
  ref_source st models_ref vals n_sampling sampling_method p refvals ->
  out_ref !! k = Some l -> refvals !! k = Some ar ->
  if decide (1 <= k < length vals) then
    exists s lprev,
      init_sample p ar = Some (moving (rs_step s)) /\
      heap st' !! l = Some (final_sample p (rs_step s)) /\
      Morpho_pairwise (moving (rs_step s)) (fixed (rs_step s)) (morpho_args p)
        = inr (model (rs_step s)) /\
      morpho_calls (new_events st st') !! (k - 1)
        = Some (l, lprev, moving (rs_step s), fixed (rs_step s), morpho_args p)
  else
    exists sr, init_sample p ar = Some sr /\ heap st' !! l = Some sr.
Proof.
  intros Hok Hsrc Hl Har.
  destruct (ref_ok_shape _ _ _ _ _ _ _ _ _ _ _ Hok) as (refvals0 & _ & Hout & _).
  simpl in Hout.
  destruct (decide (1 <= k < length vals)) as [[Hk1 Hk2]|Hk].
  - assert (is_Some (out !! k)) as [lf Hlf]
      by (rewrite Hout; apply lookup_lt_is_Some_2; by rewrite length_seq).
    destruct (ref_ok_later _ _ _ _ _ _ _ _ _ _ _ k lf Hok Hk1 Hlf)
      as (s & a & lr & lprev & _ & _ & _ & Hlr & _ & Hfin & _ & He & _ & _ & Hcall
          & _ & _ & _ & refvals' & ar' & Hsrc' & Har' & Hinit).
    assert (lr = l) as -> by congruence.
    assert (refvals' = refvals) as ->
      by exact (ref_source_functional _ _ _ _ _ _ _ _ Hsrc' Hsrc).
    assert (ar' = ar) as -> by congruence.
    by exists s, lprev.
  - destruct (ref_ok_landmark_untouched _ _ _ _ _ _ _ _ _ _ _ k l Hok ltac:(lia) Hl)
      as (refvals' & ar' & sr & Hsrc' & Har' & Hinit & Hsr).
    assert (refvals' = refvals) as ->
      by exact (ref_source_functional _ _ _ _ _ _ _ _ Hsrc' Hsrc).
    assert (ar' = ar) as -> by congruence.
    by exists sr.
Qed.

(** C6 (both variants on every pair).  Whatever the mode string, a run of
    [morpho_align] or [morpho_align_ref] that returns hands back one sample
    per input sample (and one landmark sample per reference sample), and
    every one of them carries the working, rigid and non-rigid variants.
    For [k >= 1] the rigid and non-rigid slots of sample [k] hold both
    coordinate sets computed for pair [k - 1]: the engine's [optimal_RnA]
    and [XAHat] in [morpho_align] and on the landmark samples of
    [morpho_align_ref], the evaluator's rigid and non-rigid outputs on its
    full-resolution samples. *)
Theorem both_variants_attached p models vals st :
  resolves st models vals ->
  (forall st' out pis,
      morpho_align models p st = (st', inr (out, pis)) ->
      length out = length models /\
      forall k l, out !! k = Some l ->
        exists b, heap st' !! l = Some b /\ has_variants p b /\
          (1 <= k -> exists lprev sa sb r,
              morpho_calls (new_events st st') !! (k - 1)
                = Some (l, lprev, sa, sb, morpho_args p) /\
              Morpho_pairwise sa sb (morpho_args p) = inr r /\
              obsm b !! rigid_key p = Some (optimal_RnA r) /\
              obsm b !! nonrigid_key p = Some (XAHat r))) /\
  (forall models_ref n_sampling sampling_method st' out out_ref pis pis_ref,
      refs_resolve st models_ref ->
      morpho_align_ref models models_ref n_sampling sampling_method p st
        = (st', inr (out, out_ref, pis, pis_ref)) ->
      length out = length models /\
      (exists refvals,
          ref_source st models_ref vals n_sampling sampling_method p refvals /\
          length out_ref = length refvals) /\
      (forall k l, out_ref !! k = Some l ->
        exists b, heap st' !! l = Some b /\ has_variants p b /\
          (1 <= k < length models -> exists lprev sa sb r,
              morpho_calls (new_events st st') !! (k - 1)
                = Some (l, lprev, sa, sb, morpho_args p) /\
              Morpho_pairwise sa sb (morpho_args p) = inr r /\
              obsm b !! rigid_key p = Some (optimal_RnA r) /\
              obsm b !! nonrigid_key p = Some (XAHat r))) /\
      (forall k l, out !! k = Some l ->
        exists b, heap st' !! l = Some b /\ has_variants p b /\
          (1 <= k -> exists lr lprev sa sb r q nr d rg,
              morpho_calls (new_events st st') !! (k - 1)
                = Some (lr, lprev, sa, sb, morpho_args p) /\
              Morpho_pairwise sa sb (morpho_args p) = inr r /\
              EvTransform (vecfld r) q (device p) (dtype p) ∈ new_events st st' /\
              BA_transform (vecfld r) q (device p) (dtype p) = inr (nr, d, rg) /\
              obsm b !! rigid_key p = Some rg /\
              obsm b !! nonrigid_key p = Some nr))).
Proof.
  intros Hres. pose proof (Forall2_length _ _ _ Hres) as Hlen. split.
  - intros st' out pis Hrun.
    pose proof (wp_run_ok _ _ _ _ _ _ (morpho_align_spec p models vals st Hres) Hrun) as Hok.
    split.
    { destruct (seq_ok_shape _ _ _ _ _ _ Hok) as (-> & _). by rewrite length_seq. }
    intros k l Hl.
    destruct k as [|k].
    + destruct (seq_ok_first _ _ _ _ _ _ _ Hok Hl) as (a0 & s0 & _ & Hinit & Hs0).
      exists s0. split; [done|]. split; [by eapply init_sample_variants|]. lia.
    + destruct (seq_ok_later p st vals out pis st' (S k) l Hok ltac:(lia) Hl)
        as (s & a & lprev & _ & Hinit & _ & Hfin & _ & He & Hcall & _).
      exists (final_sample p s). split; [done|]. unfold final_sample, has_variants.
      rewrite attach_rigid, attach_nonrigid.
      destruct (init_sample_variants _ _ _ Hinit) as (Hw & _).
      split; [by eauto using attach_working_some|].
      intros _. by exists lprev, (moving s), (fixed s), (model s).
  - intros models_ref n_sampling sampling_method st' out out_ref pis pis_ref Hwf Hrun.
    pose proof (wp_run_ok _ _ _ _ _ _
                  (morpho_align_ref_spec p models vals models_ref n_sampling
                     sampling_method st Hres Hwf) Hrun) as Hok.
    destruct (ref_ok_lengths _ _ _ _ _ _ _ _ _ _ _ Hok) as (refvals & Hsrc & Hlo & Hlr).
    split; [by rewrite Hlen|]. split; [by exists refvals|].
    destruct (ref_ok_shape _ _ _ _ _ _ _ _ _ _ _ Hok)
      as (refvals0 & _ & Hout & Hout_ref & _).
    split.
    + intros k l Hl.
      destruct (decide (1 <= k < length vals)) as [[Hk1 Hk2]|Hk].
      * assert (is_Some (out !! k)) as [lf Hlf]
          by (rewrite Hout; apply lookup_lt_is_Some_2; by rewrite length_seq).
        destruct (ref_ok_later _ _ _ _ _ _ _ _ _ _ _ k lf Hok Hk1 Hlf)
          as (s & a & lr & lprev & _ & _ & _ & Hlr' & _ & Hfin & _ & He & _ & _ & Hcall
              & _ & _ & _ & refvals' & ar & _ & _ & Hinit).
        assert (lr = l) as -> by congruence.
        exists (final_sample p (rs_step s)). split; [done|].
        unfold final_sample, has_variants. rewrite attach_rigid, attach_nonrigid.
        destruct (init_sample_variants _ _ _ Hinit) as (Hw & _).
        split; [by eauto using attach_working_some|].
        intros _. by exists lprev, (moving (rs_step s)), (fixed (rs_step s)), (model (rs_step s)).
      * destruct (ref_ok_landmark_untouched _ _ _ _ _ _ _ _ _ _ _ k l Hok ltac:(lia) Hl)
          as (refvals' & ar & sr & _ & _ & Hinit & Hsr).
        exists sr. split; [done|]. split; [by eapply init_sample_variants|]. lia.
    + intros k l Hl. destruct k as [|k].
      * destruct (ref_ok_first _ _ _ _ _ _ _ _ _ _ _ _ Hok Hl) as (a0 & s0 & _ & Hinit & Hs0).
        exists s0. split; [done|]. split; [by eapply init_sample_variants|]. lia.
      * destruct (ref_ok_later _ _ _ _ _ _ _ _ _ _ _ (S k) l Hok ltac:(lia) Hl)
          as (s & a & lr & lprev & _ & Hinit & Hfin & _ & _ & _ & _ & He & Hq & Ht & Hcall
              & Hev & _).
        exists (final_full p s). split; [done|]. unfold final_full, has_variants.
        rewrite attach_full_rigid, attach_full_nonrigid.
        destruct (init_sample_variants _ _ _ Hinit) as (Hw & _).
        split; [by eauto using attach_full_working_some|].
        intros _.
        exists lr, lprev, (moving (rs_step s)), (fixed (rs_step s)), (model (rs_step s)),
          (rs_query s), (rs_nonrigid s), (rs_displacement s), (rs_rigid s).
        done.
Qed.

(** C10 (diagnostics and field on the later sample).  A run of either
    orchestrator that returns hands back one sample per input sample (and
    one landmark sample per reference sample).  The metadata of the first
    sample is the caller's, and the metadata of every later sample [k] is
    the caller's with the trace of pair [k - 1] written under
    [iter_key_added] when that key is not [None], and then the field of
    that pair written under [vecfld_key_added] when that key is not [None];
    no other slot differs.  In [morpho_align_ref] the landmark sample [k]
    and its full-resolution counterpart receive the same trace and the same
    field, each on top of the metadata of the sample it was copied from,
    and the landmark samples no pair moves keep theirs. *)
Theorem diagnostics_written_by_key p models vals st :
  resolves st models vals ->
  (forall st' out pis,
      morpho_align models p st = (st', inr (out, pis)) ->
      length out = length models /\
      forall k l a, out !! k = Some l -> vals !! k = Some a ->
        exists b, heap st' !! l = Some b /\
          match k with
          | 0 => uns b = uns a
          | S j =>
              exists lprev sa sb r,
                morpho_calls (new_events st st') !! j
                  = Some (l, lprev, sa, sb, morpho_args p) /\
                Morpho_pairwise sa sb (morpho_args p) = inr r /\
                uns b = write_opt (vecfld_key_added p) (UnsVecFld (vecfld r))
                          (write_opt (iter_key_added p) (UnsIter (iter_added r)) (uns a))
          end) /\
  (forall models_ref n_sampling sampling_method st' out out_ref pis pis_ref,
      refs_resolve st models_ref ->
      morpho_align_ref models models_ref n_sampling sampling_method p st
        = (st', inr (out, out_ref, pis, pis_ref)) ->
      exists refvals,
        ref_source st models_ref vals n_sampling sampling_method p refvals /\
        length out = length models /\ length out_ref = length refvals /\
        (forall k l a, out !! k = Some l -> vals !! k = Some a ->
          exists b, heap st' !! l = Some b /\
            match k with
            | 0 => uns b = uns a
            | S j =>
                exists lr lprev sa sb r br ar,
                  morpho_calls (new_events st st') !! j
                    = Some (lr, lprev, sa, sb, morpho_args p) /\
                  Morpho_pairwise sa sb (morpho_args p) = inr r /\
                  out_ref !! k = Some lr /\ heap st' !! lr = Some br /\
                  refvals !! k = Some ar /\
                  uns b = write_opt (vecfld_key_added p) (UnsVecFld (vecfld r))
                            (write_opt (iter_key_added p) (UnsIter (iter_added r)) (uns a)) /\
                  uns br = write_opt (vecfld_key_added p) (UnsVecFld (vecfld r))
                            (write_opt (iter_key_added p) (UnsIter (iter_added r)) (uns ar))
            end) /\
        (forall k l ar, out_ref !! k = Some l -> refvals !! k = Some ar ->
          k = 0 \/ length models <= k ->
          exists br, heap st' !! l = Some br /\ uns br = uns ar)).
Proof.
  intros Hres. pose proof (Forall2_length _ _ _ Hres) as Hlen. split.
  - intros st' out pis Hrun.
    pose proof (wp_run_ok _ _ _ _ _ _ (morpho_align_spec p models vals st Hres) Hrun) as Hok.
    split.
    { destruct (seq_ok_shape _ _ _ _ _ _ Hok) as (-> & _). by rewrite length_seq. }
    intros k l a Hl Ha.
    destruct k as [|k].
    + destruct (seq_ok_first _ _ _ _ _ _ _ Hok Hl) as (a0 & s0 & Ha0 & Hinit & Hs0).
      assert (a0 = a) as -> by congruence.
      exists s0. split; [done|].
      by destruct (init_sample_lookup _ _ _ Hinit) as (x & _ & _ & _ & _ & _ & Hu & _).
    + destruct (seq_ok_later p st vals out pis st' (S k) l Hok ltac:(lia) Hl)
        as (s & a' & lprev & Ha' & Hinit & _ & Hfin & _ & He & Hcall & _).
      assert (a' = a) as -> by congruence.
      replace (S k - 1) with k in Hcall by lia.
      exists (final_sample p s). split; [done|].
      exists lprev, (moving s), (fixed s), (model s).
      split; [done|]. split; [done|].
      unfold final_sample. rewrite attach_uns_write.
      by destruct (init_sample_lookup _ _ _ Hinit) as (x & _ & _ & _ & _ & _ & -> & _).
  - intros models_ref n_sampling sampling_method st' out out_ref pis pis_ref Hwf Hrun.
    pose proof (wp_run_ok _ _ _ _ _ _
                  (morpho_align_ref_spec p models vals models_ref n_sampling
                     sampling_method st Hres Hwf) Hrun) as Hok.
    destruct (ref_ok_lengths _ _ _ _ _ _ _ _ _ _ _ Hok) as (refvals & Hsrc & Hlo & Hlr).
    exists refvals. split; [done|]. split; [by rewrite Hlen|]. split; [done|]. split.
    + intros k l a Hl Ha. destruct k as [|k].
      * destruct (ref_ok_first _ _ _ _ _ _ _ _ _ _ _ _ Hok Hl)
          as (a0 & s0 & Ha0 & Hinit & Hs0).
        assert (a0 = a) as -> by congruence.
        exists s0. split; [done|].
        by destruct (init_sample_lookup _ _ _ Hinit) as (x & _ & _ & _ & _ & _ & Hu & _).
      * destruct (ref_ok_later _ _ _ _ _ _ _ _ _ _ _ (S k) l Hok ltac:(lia) Hl)
          as (s & a' & lr & lprev & Ha' & Hinit & Hfin & Hlr' & _ & Hfinr & _ & He & _ & _
              & Hcall & _ & _ & _ & refvals' & ar & Hsrc' & Har & Hinitr).
        assert (a' = a) as -> by congruence.
        assert (refvals' = refvals) as ->
          by exact (ref_source_functional _ _ _ _ _ _ _ _ Hsrc' Hsrc).
        replace (S k - 1) with k in Hcall by lia.
        exists (final_full p s). split; [done|].
        exists lr, lprev, (moving (rs_step s)), (fixed (rs_step s)), (model (rs_step s)),
          (final_sample p (rs_step s)), ar.
        do 5 (split; [done|]).
        unfold final_full, final_sample. rewrite attach_full_uns_write, attach_uns_write.
        destruct (init_sample_lookup _ _ _ Hinit) as (x & _ & _ & _ & _ & _ & -> & _).
        by destruct (init_sample_lookup _ _ _ Hinitr) as (y & _ & _ & _ & _ & _ & -> & _).
    + intros k l ar Hl Har Hk.
      pose proof (ref_ok_landmark _ _ _ _ _ _ _ _ _ _ _ _ _ _ _ Hok Hsrc Hl Har) as Hlm.
      rewrite decide_False in Hlm by lia.
      destruct Hlm as (sr & Hinit & Hsr). exists sr. split; [done|].
      by destruct (init_sample_lookup _ _ _ Hinit) as (x & _ & _ & _ & _ & _ & Hu & _).
Qed.

(** C5 (inputs are not mutated).  Whether [morpho_align] and
    [morpho_align_ref] return or raise, every object the caller held is
    afterwards as it was, its spatial coordinates included; the samples
    they return are objects that did not exist before the call. *)
Theorem inputs_not_mutated p models vals models_ref n_sampling sampling_method st :
  resolves st models vals ->
  refs_resolve st models_ref ->
  (forall l a, heap st !! l = Some a ->
     heap (morpho_align models p st).1 !! l = Some a /\
     heap (morpho_align_ref models models_ref n_sampling sampling_method p st).1 !! l
       = Some a) /\
  (forall st' out pis,
      morpho_align models p st = (st', inr (out, pis)) ->
      Forall (fun l => length (heap st) <= l) out) /\
  (forall st' out out_ref pis pis_ref,
      morpho_align_ref models models_ref n_sampling sampling_method p st
        = (st', inr (out, out_ref, pis, pis_ref)) ->
      Forall (fun l => length (heap st) <= l) (out ++ out_ref)).
Proof.
  intros Hres Hwf. split; [|split].
  - intros l a Hl.
    destruct (morpho_align_frame p models vals st Hres) as [ext ->].
    destruct (morpho_align_ref_frame p models vals models_ref n_sampling sampling_method
                st Hres Hwf) as [ext' ->].
    split; by apply lookup_app_l_Some.
  - intros st' out pis Hrun.
    pose proof (wp_run_ok _ _ _ _ _ _ (morpho_align_spec p models vals st Hres) Hrun) as Hok.
    destruct (seq_ok_shape _ _ _ _ _ _ Hok) as (-> & _).
    apply Forall_forall. intros l Hin. apply elem_of_seq in Hin. lia.
  - intros st' out out_ref pis pis_ref Hrun.
    pose proof (wp_run_ok _ _ _ _ _ _
                  (morpho_align_ref_spec p models vals models_ref n_sampling
                     sampling_method st Hres Hwf) Hrun) as Hok.
    destruct (ref_ok_shape _ _ _ _ _ _ _ _ _ _ _ Hok) as (refvals & _ & -> & -> & _).
    apply Forall_forall. intros l Hin.
    apply elem_of_app in Hin as [Hin|Hin]; apply elem_of_seq in Hin; lia.
Qed.

(** C4 (reference propagation).  After [morpho_align_ref] has returned:
    when no reference set was supplied, the landmark samples are what the
    downsampler returned for the full-resolution samples with [n_sampling]
    and [sampling_method]; the engine was called once per consecutive pair,
    always on two of the landmark copies, which are neither full-resolution
    copies nor objects of the caller; and the rigid and non-rigid slots of
    every later full-resolution sample [k] are the evaluator's rigid and
    non-rigid outputs for the field fitted on landmark pair [k - 1], queried
    at the working coordinates of that sample (the copy of its raw
    coordinates). *)
Theorem reference_propagation p models vals models_ref n_sampling sampling_method
    st st' out out_ref pis pis_ref :
  resolves st models vals ->
  refs_resolve st models_ref ->
  morpho_align_ref models models_ref n_sampling sampling_method p st
    = (st', inr (out, out_ref, pis, pis_ref)) ->
  (models_ref = None ->
     exists landmarks,
       downsampling vals n_sampling sampling_method (spatial_key p) = inr landmarks /\
       new_events st st' !! 0
         = Some (EvDownsampling vals n_sampling sampling_method (spatial_key p)) /\
       length out_ref = length landmarks) /\
  length (morpho_calls (new_events st st')) = length models - 1 /\
  (forall lA lB sa sb args,
      (lA, lB, sa, sb, args) ∈ morpho_calls (new_events st st') ->
      lA ∈ out_ref /\ lB ∈ out_ref) /\
  (forall l, l ∈ out_ref -> (l ∉ out) /\ length (heap st) <= l) /\
  (forall k l, 1 <= k -> out !! k = Some l ->
     exists b a q lr lprev sa sb r nr d rg,
       heap st' !! l = Some b /\ vals !! k = Some a /\
       obsm a !! spatial_key p = Some q /\
       out_ref !! k = Some lr /\ out_ref !! (k - 1) = Some lprev /\
       morpho_calls (new_events st st') !! (k - 1)
         = Some (lr, lprev, sa, sb, morpho_args p) /\
       Morpho_pairwise sa sb (morpho_args p) = inr r /\
       EvTransform (vecfld r) q (device p) (dtype p) ∈ new_events st st' /\
       BA_transform (vecfld r) q (device p) (dtype p) = inr (nr, d, rg) /\
       obsm b !! rigid_key p = Some rg /\
       obsm b !! nonrigid_key p = Some nr /\
       (models_ref = None ->
          exists landmarks ar,
            downsampling vals n_sampling sampling_method (spatial_key p) = inr landmarks /\
            landmarks !! k = Some ar /\ init_sample p ar = Some sa)).
Proof.
  intros Hres Hwf Hrun.
  pose proof (wp_run_ok _ _ _ _ _ _
                (morpho_align_ref_spec p models vals models_ref n_sampling
                   sampling_method st Hres Hwf) Hrun) as Hok.
  pose proof (Forall2_length _ _ _ Hres) as Hlen.
  destruct (ref_ok_shape _ _ _ _ _ _ _ _ _ _ _ Hok)
    as (refvals & Hsrc & Hout & Hout_ref & _ & _ & _ & Hcalls & (evs & Hevs & _) & _).
  simpl in Hout, Hout_ref.
  assert (Hcall_ref : forall j c, morpho_calls (new_events st st') !! j = Some c ->
    exists lr lprev sa sb,
      c = (lr, lprev, sa, sb, morpho_args p) /\
      out_ref !! (j + 1) = Some lr /\ out_ref !! j = Some lprev).
  { intros j c Hj. pose proof (lookup_lt_Some _ _ _ Hj) as Hlt. rewrite Hcalls in Hlt.
    assert (is_Some (out !! (j + 1))) as [lf Hlf].
    { rewrite Hout. apply lookup_lt_is_Some_2. rewrite length_seq. lia. }
    destruct (ref_ok_later _ _ _ _ _ _ _ _ _ _ _ (j + 1) lf Hok ltac:(lia) Hlf)
      as (s & a & lr & lprev & _ & _ & _ & Hlr & Hlp & _ & _ & _ & _ & _ & Hcall & _).
    replace (j + 1 - 1) with j in * by lia.
    exists lr, lprev, (moving (rs_step s)), (fixed (rs_step s)).
    split; [congruence | done]. }
  split; [|split; [|split; [|split]]].
  - intros ->. simpl in Hsrc. exists refvals. split; [done|]. split.
    + by rewrite Hevs.
    + by rewrite Hout_ref, length_seq.
  - by rewrite Hlen.
  - intros lA lB sa sb args Hin. apply list_elem_of_lookup in Hin as [j Hj].
    destruct (Hcall_ref _ _ Hj) as (lr & lprev & sa' & sb' & [= -> -> -> -> ->] & Hlr & Hlp).
    split; eapply list_elem_of_lookup_2; eauto.
  - intros l Hin. rewrite Hout_ref in Hin. apply elem_of_seq in Hin.
    split; [|lia]. rewrite Hout. intros Hin'. apply elem_of_seq in Hin'. lia.
  - intros k l Hk Hl.
    destruct (ref_ok_later _ _ _ _ _ _ _ _ _ _ _ k l Hok Hk Hl)
      as (s & a & lr & lprev & Ha & Hinit & Hfin & Hlr & Hlp & _ & _ & He & Hq & Ht
          & Hcall & Hev & _ & _ & refvals' & ar & Hsrc' & Har & Hiar).
    destruct (init_sample_lookup _ _ _ Hinit) as (x & Hx & _ & Hw & _).
    assert (rs_query s = x) as Hqx by congruence. rewrite Hqx in *.
    exists (final_full p s), a, x, lr, lprev, (moving (rs_step s)), (fixed (rs_step s)),
      (model (rs_step s)), (rs_nonrigid s), (rs_displacement s), (rs_rigid s).
    unfold final_full. rewrite attach_full_rigid, attach_full_nonrigid.
    do 11 (split; [done|]).
    intros ->. simpl in Hsrc'. by exists refvals', ar.
Qed.

(** C2, as amended (one matrix per pair; orientation of [morpho_align]).
    Both orchestrators return one matrix per consecutive pair in each of
    their lists, in the order of the pairs.  [morpho_align] returns, for
    pair [k], the transpose of the matrix the engine computed with sample
    [k + 1] moving and sample [k] fixed: for an engine whose matrix has one
    row per moving point and one column per fixed point, its rows are
    indexed by the points of the earlier sample and its columns by those of
    the later one.  [morpho_align_ref] returns, for pair [k] and in both of
    its lists, the matrix of engine call [k], which is the call on the
    landmark samples [k + 1] and [k]. *)
Theorem correspondence_matrices p models vals st :
  resolves st models vals ->
  (forall a b args r,
      Morpho_pairwise a b args = inr r ->
      shape0 (P r) = n_obs a /\ shape1 (P r) = n_obs b) ->
  (forall st' out pis,
      morpho_align models p st = (st', inr (out, pis)) ->
      length pis = length models - 1 /\
      forall k M, pis !! k = Some M ->
        exists lA lB sa sb r ak ak1,
          morpho_calls (new_events st st') !! k = Some (lA, lB, sa, sb, morpho_args p) /\
          out !! (k + 1) = Some lA /\ out !! k = Some lB /\
          Morpho_pairwise sa sb (morpho_args p) = inr r /\
          M = transpose (P r) /\
          vals !! k = Some ak /\ vals !! (k + 1) = Some ak1 /\
          shape0 M = n_obs ak /\ shape1 M = n_obs ak1) /\
  (forall models_ref n_sampling sampling_method st' out out_ref pis pis_ref,
      refs_resolve st models_ref ->
      morpho_align_ref models models_ref n_sampling sampling_method p st
        = (st', inr (out, out_ref, pis, pis_ref)) ->
      length pis = length models - 1 /\ length pis_ref = length models - 1 /\
      forall k, k < length models - 1 ->
        exists lA lB sa sb r,
          morpho_calls (new_events st st') !! k = Some (lA, lB, sa, sb, morpho_args p) /\
          out_ref !! (k + 1) = Some lA /\ out_ref !! k = Some lB /\
          Morpho_pairwise sa sb (morpho_args p) = inr r /\
          pis !! k = Some (P r) /\ pis_ref !! k = Some (P r)).
Proof.
  intros Hres Hshape. pose proof (Forall2_length _ _ _ Hres) as Hlen. split.
  - intros st' out pis Hrun.
    pose proof (wp_run_ok _ _ _ _ _ _ (morpho_align_spec p models vals st Hres) Hrun) as Hok.
    destruct (seq_ok_shape _ _ _ _ _ _ Hok) as (Hout & Hpis & _).
    split; [by rewrite Hlen|]. intros k M HM.
    pose proof (lookup_lt_Some _ _ _ HM) as Hk. rewrite Hpis in Hk.
    assert (out !! (k + 1) = Some (length (heap st) + (k + 1))) as HlA
      by (rewrite Hout; apply lookup_seq_lt; lia).
    destruct (seq_ok_later p st vals out pis st' (k + 1) _ Hok ltac:(lia) HlA)
      as (s & a1 & lprev & Ha1 & Hinit1 & Hprev & _ & Hfix & He & Hcall & Hpk).
    replace (k + 1 - 1) with k in * by lia.
    assert (M = transpose (P (model s))) as -> by congruence.
    destruct (Hshape _ _ _ _ He) as [Hs0 Hs1].
    assert (exists ak, vals !! k = Some ak /\ n_obs (fixed s) = n_obs ak) as (ak & Hak & Hnk).
    { destruct k as [|j].
      - destruct (seq_ok_first _ _ _ _ _ _ _ Hok Hprev) as (a0 & s0 & Ha0 & Hinit0 & Hs0').
        exists a0. split; [done|].
        assert (fixed s = s0) as -> by congruence. by eapply n_obs_init.
      - destruct (seq_ok_later p st vals out pis st' (S j) _ Hok ltac:(lia) Hprev)
          as (s' & a' & _ & Ha' & Hinit' & _ & Hfin' & _).
        exists a'. split; [done|].
        assert (fixed s = final_sample p s') as -> by congruence.
        unfold final_sample. rewrite n_obs_attach. by eapply n_obs_init. }
    exists (length (heap st) + (k + 1)), lprev, (moving s), (fixed s), (model s), ak, a1.
    do 7 (split; [done|]). simpl. split; [congruence|].
    rewrite Hs0. by eapply n_obs_init.
  - intros models_ref n_sampling sampling_method st' out out_ref pis pis_ref Hwf Hrun.
    pose proof (wp_run_ok _ _ _ _ _ _
                  (morpho_align_ref_spec p models vals models_ref n_sampling
                     sampling_method st Hres Hwf) Hrun) as Hok.
    destruct (ref_ok_shape _ _ _ _ _ _ _ _ _ _ _ Hok)
      as (refvals & _ & Hout & _ & H1 & H2 & _).
    simpl in Hout.
    split; [by rewrite Hlen|]. split; [by rewrite Hlen|].
    intros k Hk.
    assert (is_Some (out !! (k + 1))) as [lf Hlf].
    { rewrite Hout. apply lookup_lt_is_Some_2. rewrite length_seq. lia. }
    destruct (ref_ok_later _ _ _ _ _ _ _ _ _ _ _ (k + 1) lf Hok ltac:(lia) Hlf)
      as (s & a & lr & lprev & _ & _ & _ & Hlr & Hlp & _ & _ & He & _ & _ & Hcall & _
          & Hpk & Hpr & _).
    replace (k + 1 - 1) with k in * by lia.
    by exists lr, lprev, (moving (rs_step s)), (fixed (rs_step s)), (model (rs_step s)).
Qed.

Lemma concat_imap_pairs {A B} (g : nat -> A -> list B) :
  (forall k s, length (g k s) = 2) ->
  forall steps i s j,
    steps !! i = Some s -> j < 2 ->
    concat (imap g steps) !! (2 * i + j) = g i s !! j.
Proof.
  intros Hg steps. revert g Hg.
  induction steps as [|s0 steps IH]; intros g Hg i s j Hi Hj; [done|].
  simpl. destruct i as [|i].
  - injection Hi as ->. rewrite lookup_app_l by (rewrite Hg; lia). f_equal; lia.
  - rewrite lookup_app_r by (rewrite Hg; lia). rewrite Hg.
    replace (S i + (S i + 0) + j - 2) with (2 * i + j) by lia.
    apply (IH (g ∘ S) (fun k s' => Hg (S k) s') i s j Hi Hj).
Qed.

(** [morpho_align] releases the device cache right after every engine call
    that returned: the events of a run that returns alternate. *)
Lemma morpho_align_empties_cache p models vals st st' out pis i :
  resolves st models vals ->
  morpho_align models p st = (st', inr (out, pis)) ->
  i < length models - 1 ->
  (exists lA lB sa sb,
      new_events st st' !! (2 * i) = Some (EvMorpho lA lB sa sb (morpho_args p))) /\
  new_events st st' !! (2 * i + 1) = Some (EvEmptyCache (device p)).
Proof.
  intros Hres Hrun Hi.
  destruct (wp_run_ok _ _ _ _ _ _ (morpho_align_spec p models vals st Hres) Hrun)
    as (S0 & steps & Hinit & Hchain & _ & _ & Ht).
  destruct (chain_all_facts _ _ _ Hchain) as (Hlen & _).
  rewrite (init_all_length _ _ _ Hinit), <- (Forall2_length _ _ _ Hres) in Hlen.
  rewrite (new_events_app _ _ _ Ht).
  assert (is_Some (steps !! i)) as [s Hs] by (apply lookup_lt_is_Some_2; lia).
  pose proof (concat_imap_pairs (pair_events p (length (heap st))) (fun _ _ => eq_refl)
                steps i s) as Hpair.
  unfold seq_events. split.
  - eexists _, _, _, _. replace (2 * i) with (2 * i + 0) by lia.
    by rewrite (Hpair 0 Hs) by lia.
  - by rewrite (Hpair 1 Hs) by lia.
Qed.

(** [morpho_align_ref] never releases the device cache, on any path. *)
Lemma morpho_align_ref_never_empties_cache p models vals models_ref n_sampling
    sampling_method st :
  resolves st models vals ->
  refs_resolve st models_ref ->
  Forall not_empty_cache
    (new_events st (morpho_align_ref models models_ref n_sampling sampling_method p st).1).
Proof.
  intros Hres Hwf.
  pose proof (morpho_align_ref_spec p models vals models_ref n_sampling sampling_method
                st Hres Hwf) as Hwp.
  unfold wp in Hwp.
  destruct (morpho_align_ref models models_ref n_sampling sampling_method p st)
    as [st' [e|[[[out out_ref] pis] pis_ref]]]; simpl.
  - destruct Hwp as (_ & (evs & Ht & Hev) & _). by rewrite (new_events_app _ _ _ Ht).
  - destruct (ref_ok_shape _ _ _ _ _ _ _ _ _ _ _ Hwp)
      as (_ & _ & _ & _ & _ & _ & _ & _ & (evs & -> & Hev) & _).
    apply Forall_app. split; [|done].
    unfold ref_prelude. destruct models_ref; by repeat constructor.
Qed.

End BothClaims.

(** * The orchestrators on the small instance *)

Lemma toy_spatial :
  Forall (fun a => is_Some (@obsm toy_data a !! "spatial")) toy_heap.
Proof. repeat constructor; eexists; reflexivity. Qed.

Lemma both_variants_attached_witness :
  exists st' out out_ref pis pis_ref,
    @morpho_align_ref toy_data toy_backend toy_models None (Some 2%Z) "trn"
      (default_params "SN-N") toy_state = (st', inr (out, out_ref, pis, pis_ref)) /\
    length out = 3 /\
    forall k l, out !! k = Some l ->
      exists b, @heap toy_data st' !! l = Some b /\
        @has_variants toy_data (default_params "SN-N") b.
Proof.
  assert (returned (@morpho_align_ref toy_data toy_backend toy_models None (Some 2%Z) "trn"
                      (default_params "SN-N") toy_state).2 = true) as Hret
    by (vm_compute; reflexivity).
  destruct (@morpho_align_ref toy_data toy_backend toy_models None (Some 2%Z) "trn"
              (default_params "SN-N") toy_state)
    as [st' [e|[[[out out_ref] pis] pis_ref]]] eqn:Hrun; [discriminate Hret|].
  exists st', out, out_ref, pis, pis_ref. split; [reflexivity|].
  destruct (proj2 (@both_variants_attached toy_data toy_backend
                     (default_params "SN-N") toy_models toy_heap toy_state
                     toy_resolves)
              None (Some 2%Z) "trn" st' out out_ref pis pis_ref I Hrun)
    as (Hlen & _ & _ & Hfull).
  split; [exact Hlen|]. intros k l Hl.
  destruct (Hfull k l Hl) as (b & Hb & Hv & _).
  exists b. split; [exact Hb | exact Hv].
Defined.

Lemma diagnostics_written_by_key_witness :
  (exists st' out pis,
      @morpho_align toy_data toy_backend toy_models (default_params "SN-S") toy_state
        = (st', inr (out, pis)) /\
      length out = 3 /\
      forall l, out !! 1 = Some l ->
        exists b r, @heap toy_data st' !! l = Some b /\
          @uns toy_data b
          = <["VecFld_morpho" := @UnsVecFld toy_data (@vecfld toy_data r)]>
              (<["iter_spatial" := @UnsIter toy_data (@iter_added toy_data r)]>
                 (@uns toy_data (toy_sample 1 200)))) /\
  (exists st' out out_ref pis pis_ref,
      @morpho_align_ref toy_data toy_backend toy_models (Some toy_models) None "trn"
        (default_params "SN-S") toy_state = (st', inr (out, out_ref, pis, pis_ref)) /\
      length out = 3 /\ length out_ref = 3 /\
      forall l, out !! 1 = Some l ->
        exists b lr br r,
          @heap toy_data st' !! l = Some b /\
          out_ref !! 1 = Some lr /\ @heap toy_data st' !! lr = Some br /\
          @uns toy_data b
          = <["VecFld_morpho" := @UnsVecFld toy_data (@vecfld toy_data r)]>
              (<["iter_spatial" := @UnsIter toy_data (@iter_added toy_data r)]>
                 (@uns toy_data (toy_sample 1 200))) /\
          @uns toy_data br = @uns toy_data b).
Proof.
  split.
  - assert (returned (@morpho_align toy_data toy_backend toy_models
                        (default_params "SN-S") toy_state).2 = true)
      as Hret by (vm_compute; reflexivity).
    destruct (@morpho_align toy_data toy_backend toy_models (default_params "SN-S") toy_state)
      as [st' [e|[out pis]]] eqn:Hrun; [discriminate Hret|].
    exists st', out, pis. split; [reflexivity|].
    destruct (proj1 (@diagnostics_written_by_key toy_data toy_backend
                       (default_params "SN-S") toy_models toy_heap toy_state toy_resolves)
                st' out pis Hrun) as [Hlen Hout].
    split; [exact Hlen|]. intros l Hl.
    destruct (Hout 1 l (toy_sample 1 200) Hl eq_refl)
      as (b & Hb & lprev & sa & sb & r & _ & _ & Hu).
    exists b, r. split; [exact Hb | exact Hu].
  - assert (returned (@morpho_align_ref toy_data toy_backend toy_models (Some toy_models)
                        None "trn" (default_params "SN-S") toy_state).2 = true)
      as Hret by (vm_compute; reflexivity).
    destruct (@morpho_align_ref toy_data toy_backend toy_models (Some toy_models) None "trn"
                (default_params "SN-S") toy_state)
      as [st' [e|[[[out out_ref] pis] pis_ref]]] eqn:Hrun; [discriminate Hret|].
    exists st', out, out_ref, pis, pis_ref. split; [reflexivity|].
    destruct (proj2 (@diagnostics_written_by_key toy_data toy_backend
                       (default_params "SN-S") toy_models toy_heap toy_state toy_resolves)
                (Some toy_models) None "trn" st' out out_ref pis pis_ref
                (ex_intro _ toy_heap toy_resolves) Hrun)
      as (refvals & Hsrc & Hlen & Hlenr & Hfull & _).
    assert (refvals = toy_heap) as ->
      by exact (@resolves_functional toy_data toy_state toy_models _ _ Hsrc toy_resolves).
    split; [exact Hlen|]. split; [exact Hlenr|]. intros l Hl.
    destruct (Hfull 1 l (toy_sample 1 200) Hl eq_refl)
      as (b & Hb & lr & lprev & sa & sb & r & br & ar & _ & _ & Hlr & Hbr & Har & Hu & Hur).
    injection Har as <-.
    exists b, lr, br, r. split; [exact Hb|]. split; [exact Hlr|]. split; [exact Hbr|].
    split; [exact Hu|]. exact (eq_trans Hur (eq_sym Hu)).
Defined.

Lemma inputs_not_mutated_witness :
  @heap toy_data
    (@morpho_align toy_data toy_backend toy_models (default_params "SN-S") toy_state).1 !! 1
    = Some (toy_sample 1 200) /\
  @heap toy_data
    (@morpho_align_ref toy_data toy_backend toy_models (Some toy_models) None "trn"
       (default_params "SN-S") toy_state).1 !! 1
    = Some (toy_sample 1 200).
Proof.
  exact (proj1 (@inputs_not_mutated toy_data toy_backend (default_params "SN-S")
                  toy_models toy_heap (Some toy_models) None "trn" toy_state
                  toy_resolves (ex_intro _ toy_heap toy_resolves))
           1 (toy_sample 1 200) eq_refl).
Defined.


Lemma reference_propagation_witness :
  exists st' out out_ref pis pis_ref,
    @morpho_align_ref toy_data toy_backend toy_models None (Some 2%Z) "trn"
      (default_params "SN-S") toy_state = (st', inr (out, out_ref, pis, pis_ref)) /\
    length (@morpho_calls toy_data (@new_events toy_data toy_state st')) = 2 /\
    exists landmarks,
      toy_downsampling toy_heap (Some 2%Z) "trn" "spatial" = inr landmarks /\
      length out_ref = length landmarks.
Proof.
  assert (returned (@morpho_align_ref toy_data toy_backend toy_models None (Some 2%Z) "trn"
                      (default_params "SN-S") toy_state).2 = true) as Hret
    by (vm_compute; reflexivity).
  destruct (@morpho_align_ref toy_data toy_backend toy_models None (Some 2%Z) "trn"
              (default_params "SN-S") toy_state)
    as [st' [e|[[[out out_ref] pis] pis_ref]]] eqn:Hrun; [discriminate Hret|].
  exists st', out, out_ref, pis, pis_ref. split; [reflexivity|].
  destruct (@reference_propagation toy_data toy_backend (default_params "SN-S")
              toy_models toy_heap None (Some 2%Z) "trn" toy_state st' out out_ref pis
              pis_ref toy_resolves I Hrun)
    as (Hds & Hcalls & _).
  split; [exact Hcalls|].
  destruct (Hds eq_refl) as (landmarks & Hland & _ & Hlen).
  exists landmarks. split; [exact Hland | exact Hlen].
Defined.

Lemma toy_matrix_shape (a b : @AnnData toy_data) (args : MorphoArgs)
    (r : @MorphoModel toy_data) :
  @Morpho_pairwise toy_data toy_backend a b args = inr r ->
  @shape0 toy_data (@P toy_data r) = @n_obs toy_data a /\
  @shape1 toy_data (@P toy_data r) = @n_obs toy_data b.
Proof. intros [= <-]. split; reflexivity. Qed.

Lemma correspondence_matrices_witness :
  exists st' out out_ref pis pis_ref,
    @morpho_align_ref toy_data toy_backend toy_models (Some toy_models) None "trn"
      (default_params "SN-S") toy_state = (st', inr (out, out_ref, pis, pis_ref)) /\
    length pis = 2 /\ length pis_ref = 2 /\
    exists lA lB sa sb r,
      @morpho_calls toy_data (@new_events toy_data toy_state st') !! 1
        = Some (lA, lB, sa, sb, morpho_args (default_params "SN-S")) /\
      @Morpho_pairwise toy_data toy_backend sa sb (morpho_args (default_params "SN-S"))
        = inr r /\
      pis !! 1 = Some (@P toy_data r) /\ pis_ref !! 1 = Some (@P toy_data r).
Proof.
  assert (returned (@morpho_align_ref toy_data toy_backend toy_models (Some toy_models)
                      None "trn" (default_params "SN-S") toy_state).2 = true) as Hret
    by (vm_compute; reflexivity).
  destruct (@morpho_align_ref toy_data toy_backend toy_models (Some toy_models) None "trn"
              (default_params "SN-S") toy_state)
    as [st' [e|[[[out out_ref] pis] pis_ref]]] eqn:Hrun; [discriminate Hret|].
  exists st', out, out_ref, pis, pis_ref. split; [reflexivity|].
  destruct (proj2 (@correspondence_matrices toy_data toy_backend
                     (default_params "SN-S") toy_models toy_heap toy_state
                     toy_resolves toy_matrix_shape)
              (Some toy_models) None "trn" st' out out_ref pis pis_ref
              (ex_intro _ toy_heap toy_resolves) Hrun)
    as (Hp & Hr & Hpair).
  split; [exact Hp|]. split; [exact Hr|].
  destruct (Hpair 1 (le_n 2)) as (lA & lB & sa & sb & r & Hcall & _ & _ & He & Hpk & Hrk).
  exists lA, lB, sa, sb, r.
  split; [exact Hcall|]. split; [exact He|]. split; [exact Hpk | exact Hrk].
Defined.

(** C2, as stated, fails.  On the chain of two-, one- and three-point
    sections the engine's matrix for the first pair has one row (the later
    section has one point) and two columns.  [morpho_align] returns it
    transposed, with one row per point of the earlier section;
    [morpho_align_ref], run on the same sections as their own landmarks,
    returns it as it is.  The two orchestrators disagree on the orientation. *)
Lemma orientation_counterexample :
  @n_obs toy_data (toy_sample 2 100) = 2 /\
  @n_obs toy_data (toy_sample 1 200) = 1 /\
  first_shape (seq_matrices
    (@morpho_align toy_data toy_backend toy_models (default_params "SN-S") toy_state).2)
    = Some (2, 1) /\
  first_shape (ref_matrices
    (@morpho_align_ref toy_data toy_backend toy_models (Some toy_models) None "trn"
       (default_params "SN-S") toy_state).2).1
    = Some (1, 2) /\
  first_shape (ref_matrices
    (@morpho_align_ref toy_data toy_backend toy_models (Some toy_models) None "trn"
       (default_params "SN-S") toy_state).2).2
    = Some (1, 2).
Proof. vm_compute. repeat split. Qed.

(** C8 on the code: [morpho_align] releases the device cache after each of
    its two engine calls, [morpho_align_ref] makes the same two engine calls
    and never releases it. *)
Lemma morpho_align_ref_keeps_cache :
  map (@is_empty_cache toy_data)
    (@trace toy_data
       (@morpho_align toy_data toy_backend toy_models (default_params "SN-S") toy_state).1)
    = [false; true; false; true] /\
  map (@is_empty_cache toy_data)
    (@trace toy_data
       (@morpho_align_ref toy_data toy_backend toy_models (Some toy_models) None "trn"
          (default_params "SN-S") toy_state).1)
    = [false; false; false; false] /\
  length (@morpho_calls toy_data
    (@trace toy_data
       (@morpho_align_ref toy_data toy_backend toy_models (Some toy_models) None "trn"
          (default_params "SN-S") toy_state).1))
    = 2.
Proof. vm_compute. repeat split. Qed.

(** * Edge cases, errors and frames of the orchestrators *)

Section Edges.
Context {D : Data} {Bk : Backend}.
Implicit Types (a b : AnnData) (p : Params).

Lemma wp_returns {A} (m : M A) (Q : A -> State -> Prop) st :
  wp m Q (fun _ _ => False) st -> exists st' v, m st = (st', inr v) /\ Q v st'.
Proof. unfold wp. destruct (m st) as [st' [e|v]]; [done|]. eauto. Qed.

Lemma wp_raises {A} (m : M A) (E : exn -> State -> Prop) st :
  wp m (fun _ _ => False) E st -> exists st' e, m st = (st', inl e) /\ E e st'.
Proof. unfold wp. destruct (m st) as [st' [e|v]]; [|done]. eauto. Qed.

Lemma init_all_total p xs :
  Forall (fun a => is_Some (obsm a !! spatial_key p)) xs ->
  is_Some (mapM (init_sample p) xs).
Proof.
  intros Hxs. apply mapM_is_Some. eapply Forall_impl; [exact Hxs|].
  intros a [x Hx]. unfold compose, init_sample. rewrite Hx. eauto.
Qed.

Lemma init_all_none p xs :
  Exists (fun a => obsm a !! spatial_key p = None) xs ->
  mapM (init_sample p) xs = None.
Proof.
  intros Hex. apply eq_None_not_Some. intros Hsome.
  apply mapM_is_Some in Hsome. apply Exists_exists in Hex as (a & Hin & Ha).
  rewrite Forall_forall in Hsome. destruct (Hsome a Hin) as [s Hs].
  unfold compose, init_sample in Hs. by rewrite Ha in Hs.
Qed.

Lemma ref_source_resolves st models_ref vals n_sampling sampling_method p refvals :
  ref_source st models_ref vals n_sampling sampling_method p refvals ->
  refs_resolve st models_ref.
Proof. destruct models_ref; simpl; eauto. Qed.

(** X1 (fewer than two samples).  On an empty list or a single sample
    that has raw coordinates there is no pair: [morpho_align] returns the
    initialised copies and no matrix without calling any collaborator, and
    [morpho_align_ref] returns no matrix either, however many landmark
    samples there are (none included), its only possible call being the
    one to the downsampler when no reference set was supplied. *)
Theorem fewer_than_two_samples p models vals st :
  resolves st models vals ->
  length models <= 1 ->
  Forall (fun a => is_Some (obsm a !! spatial_key p)) vals ->
  (exists st' out,
      morpho_align models p st = (st', inr (out, [])) /\
      length out = length models /\
      new_events st st' = []) /\
  (forall models_ref n_sampling sampling_method refvals,
      ref_source st models_ref vals n_sampling sampling_method p refvals ->
      Forall (fun a => is_Some (obsm a !! spatial_key p)) refvals ->
      exists st' out out_ref,
        morpho_align_ref models models_ref n_sampling sampling_method p st
          = (st', inr (out, out_ref, [], [])) /\
        length out = length models /\
        length out_ref = length refvals /\
        new_events st st' = ref_prelude models_ref vals n_sampling sampling_method p).
Proof.
  intros Hres Hle Hsp. pose proof (Forall2_length _ _ _ Hres) as Hlen.
  destruct (init_all_total p vals Hsp) as [F0 HF0].
  split.
  - assert (Hwp : wp (morpho_align models p)
                    (fun res st' => res.2 = [] /\ length res.1 = length models /\
                                    trace st' = trace st ++ [])
                    (fun _ _ => False) st).
    { unfold morpho_align. apply wp_bind.
      eapply (wp_copy_models _ models vals (heap st) []);
        [exact Hres | by rewrite app_nil_r |].
      apply wp_bind. rewrite Hlen.
      eapply (wp_init_all p _ vals (heap st) []); [by simpl; rewrite app_nil_r|].
      rewrite HF0. simpl. apply wp_bind. rewrite length_seq, iteration_pairs.
      replace (length vals - 1) with 0 by lia. simpl.
      apply wp_ret, wp_ret. simpl.
      rewrite length_seq, app_nil_r. done. }
    apply wp_returns in Hwp as (st' & [out pis] & Hrun & Hpis & Hout & Ht).
    simpl in *. subst pis. exists st', out.
    split; [done|]. split; [done|]. by apply new_events_app.
  - intros models_ref n_sampling sampling_method refvals Hsrc Hspr.
    destruct (init_all_total p refvals Hspr) as [R0 HR0].
    assert (Hwp : wp (morpho_align_ref models models_ref n_sampling sampling_method p)
                    (fun res st' =>
                       res.2 = [] /\ res.1.2 = [] /\
                       length res.1.1.1 = length models /\
                       length res.1.1.2 = length refvals /\
                       trace st' = trace st ++
                         ref_prelude models_ref vals n_sampling sampling_method p)
                    (fun _ _ => False) st).
    { unfold morpho_align_ref. apply wp_bind.
      eapply (wp_ref_source p models vals models_ref);
        [exact Hres | exact (ref_source_resolves _ _ _ _ _ _ _ Hsrc) | |].
      { intros e ext evs -> Hds _. simpl in Hsrc. congruence. }
      intros refvals' locsR0 Hsrc' HlocsR0.
      assert (refvals' = refvals) as ->
        by exact (ref_source_functional _ _ _ _ _ _ _ _ Hsrc' Hsrc).
      set (extra := ref_extra models_ref vals refvals) in *.
      apply wp_bind.
      eapply (wp_copy_models _ models vals (heap st) extra); [exact Hres | done |].
      simpl. apply wp_bind. rewrite Hlen.
      eapply (wp_init_all p _ vals (heap st ++ extra) []);
        [by simpl; rewrite app_nil_r|].
      rewrite HF0. simpl. rewrite app_nil_r.
      pose proof (Forall2_length _ _ _ HlocsR0) as HlenR.
      apply wp_bind.
      eapply (wp_copy_models _ locsR0 refvals (heap st ++ extra) F0);
        [exact HlocsR0 | done |].
      simpl. apply wp_bind. rewrite HlenR.
      eapply (wp_init_all p _ refvals ((heap st ++ extra) ++ F0) []);
        [by simpl; rewrite app_nil_r|].
      rewrite HR0. simpl.
      apply wp_bind. rewrite length_seq, iteration_pairs.
      replace (length vals - 1) with 0 by lia. simpl.
      apply wp_ret, wp_ret. simpl.
      rewrite !length_seq. done. }
    apply wp_returns in Hwp
      as (st' & [[[out out_ref] pis] pis_ref] & Hrun & Hpr & Hpi & Hout & Href & Ht).
    simpl in *. subst pis pis_ref. exists st', out, out_ref.
    split; [done|]. split; [done|]. split; [done|]. by apply new_events_app.
Qed.

(** X2 (missing raw coordinates).  When a sample has no coordinates under
    [spatial_key], both orchestrators raise [KeyError(spatial_key)] from
    their initialisation loop: no engine or evaluator call has been made by
    then, and the only collaborator that has run is the downsampler, when
    [morpho_align_ref] was given no reference set. *)
Theorem missing_raw_coordinates p models vals st :
  resolves st models vals ->
  Exists (fun a => obsm a !! spatial_key p = None) vals ->
  (exists st',
      morpho_align models p st = (st', inl (KeyError (spatial_key p))) /\
      new_events st st' = []) /\
  (forall models_ref n_sampling sampling_method refvals,
      ref_source st models_ref vals n_sampling sampling_method p refvals ->
      exists st',
        morpho_align_ref models models_ref n_sampling sampling_method p st
          = (st', inl (KeyError (spatial_key p))) /\
        new_events st st' = ref_prelude models_ref vals n_sampling sampling_method p).
Proof.
  intros Hres Hex. pose proof (Forall2_length _ _ _ Hres) as Hlen.
  pose proof (init_all_none p vals Hex) as Hnone.
  split.
  - assert (Hwp : wp (morpho_align models p) (fun _ _ => False)
                    (fun e st' => e = KeyError (spatial_key p) /\
                                  trace st' = trace st ++ []) st).
    { unfold morpho_align. apply wp_bind.
      eapply (wp_copy_models _ models vals (heap st) []);
        [exact Hres | by rewrite app_nil_r |].
      apply wp_bind. rewrite Hlen.
      eapply (wp_init_all p _ vals (heap st) []); [by simpl; rewrite app_nil_r|].
      rewrite Hnone. intros ext. simpl. by rewrite app_nil_r. }
    apply wp_raises in Hwp as (st' & e & Hrun & -> & Ht).
    exists st'. split; [done|]. by apply new_events_app.
  - intros models_ref n_sampling sampling_method refvals Hsrc.
    assert (Hwp : wp (morpho_align_ref models models_ref n_sampling sampling_method p)
                    (fun _ _ => False)
                    (fun e st' =>
                       e = KeyError (spatial_key p) /\
                       trace st' = trace st ++
                         ref_prelude models_ref vals n_sampling sampling_method p) st).
    { unfold morpho_align_ref. apply wp_bind.
      eapply (wp_ref_source p models vals models_ref);
        [exact Hres | exact (ref_source_resolves _ _ _ _ _ _ _ Hsrc) | |].
      { intros e ext evs -> Hds _. simpl in Hsrc. congruence. }
      intros refvals' locsR0 Hsrc' HlocsR0.
      set (extra := ref_extra models_ref vals refvals') in *.
      apply wp_bind.
      eapply (wp_copy_models _ models vals (heap st) extra); [exact Hres | done |].
      simpl. apply wp_bind. rewrite Hlen.
      eapply (wp_init_all p _ vals (heap st ++ extra) []);
        [by simpl; rewrite app_nil_r|].
      rewrite Hnone. intros ext. simpl. done. }
    apply wp_raises in Hwp as (st' & e & Hrun & -> & Ht).
    exists st'. split; [done|]. by apply new_events_app.
Qed.
End Edges.

Section Frames.
Context {D : Data} {Bk : Backend}.
Implicit Types (a b f : AnnData) (p : Params).

Lemma same_outside_coords_trans p a b c :
  same_outside_coords p a b -> same_outside_coords p b c -> same_outside_coords p a c.
Proof.
  intros (HX & Hv & Ho) (HX' & Hv' & Ho'). split; [congruence|]. split; [congruence|].
  intros key H1 H2 H3. rewrite Ho', Ho by done. done.
Qed.

Lemma init_sample_frame p a s :
  init_sample p a = Some s -> same_outside_coords p a s.
Proof.
  unfold init_sample. destruct (obsm a !! spatial_key p) as [x|]; [|done].
  intros [= <-]. split; [done|]. split; [done|]. intros key H1 H2 H3.
  simpl. by rewrite !lookup_insert_ne.
Qed.

Lemma choose_frame p rg nr b : same_outside_coords p b (choose p rg nr b).
Proof.
  unfold choose. repeat case_match; (split; [done|]; split; [done|]);
    intros key H1 H2 H3; simpl; by rewrite ?lookup_insert_ne.
Qed.

Lemma annotate_frame p r b : same_outside_coords p b (annotate p r b).
Proof.
  unfold annotate, set_uns_opt.
  destruct (vecfld_key_added p), (iter_key_added p); by split.
Qed.

Lemma attach_frame p r b : same_outside_coords p b (attach p r b).
Proof.
  unfold attach.
  eapply same_outside_coords_trans; [|apply annotate_frame].
  eapply same_outside_coords_trans; [|apply choose_frame].
  split; [done|]. split; [done|]. intros key H1 H2 H3.
  simpl. by rewrite !lookup_insert_ne.
Qed.

Lemma attach_full_frame p r nr rg f : same_outside_coords p f (attach_full p r nr rg f).
Proof.
  unfold attach_full.
  eapply same_outside_coords_trans; [|apply choose_frame].
  eapply same_outside_coords_trans; [apply annotate_frame|].
  split; [done|]. split; [done|]. intros key H1 H2 H3.
  simpl. by rewrite !lookup_insert_ne.
Qed.

(** X3 (only the coordinate slots and the annotations are written).
    Every sample returned by [morpho_align] or [morpho_align_ref], landmark
    samples included, has the expression matrix and the gene names of the
    sample it was copied from, and the same [.obsm] entry under every key
    other than [key_added], [key_added + "_rigid"] and
    [key_added + "_nonrigid"]. *)
Theorem other_slots_preserved p models vals st :
  resolves st models vals ->
  (forall st' out pis,
      morpho_align models p st = (st', inr (out, pis)) ->
      forall k l a, out !! k = Some l -> vals !! k = Some a ->
        exists b, heap st' !! l = Some b /\ same_outside_coords p a b) /\
  (forall models_ref n_sampling sampling_method st' out out_ref pis pis_ref,
      refs_resolve st models_ref ->
      morpho_align_ref models models_ref n_sampling sampling_method p st
        = (st', inr (out, out_ref, pis, pis_ref)) ->
      (forall k l a, out !! k = Some l -> vals !! k = Some a ->
        exists b, heap st' !! l = Some b /\ same_outside_coords p a b) /\
      exists refvals,
        ref_source st models_ref vals n_sampling sampling_method p refvals /\
        forall k l ar, out_ref !! k = Some l -> refvals !! k = Some ar ->
          exists b, heap st' !! l = Some b /\ same_outside_coords p ar b).
Proof.
  intros Hres. split.
  - intros st' out pis Hrun k l a Hl Ha.
    pose proof (wp_run_ok _ _ _ _ _ _ (morpho_align_spec p models vals st Hres) Hrun) as Hok.
    destruct k as [|k].
    + destruct (seq_ok_first _ _ _ _ _ _ _ Hok Hl) as (a0 & s0 & Ha0 & Hinit & Hs0).
      assert (a0 = a) as -> by congruence.
      exists s0. split; [done|]. by apply init_sample_frame.
    + destruct (seq_ok_later p st vals out pis st' (S k) l Hok ltac:(lia) Hl)
        as (s & a' & lprev & Ha' & Hinit & _ & Hfin & _).
      assert (a' = a) as -> by congruence.
      exists (final_sample p s). split; [done|].
      eapply same_outside_coords_trans; [by apply init_sample_frame|].
      apply attach_frame.
  - intros models_ref n_sampling sampling_method st' out out_ref pis pis_ref Hwf Hrun.
    pose proof (wp_run_ok _ _ _ _ _ _
                  (morpho_align_ref_spec p models vals models_ref n_sampling
                     sampling_method st Hres Hwf) Hrun) as Hok.
    destruct (ref_ok_shape _ _ _ _ _ _ _ _ _ _ _ Hok)
      as (refvals & Hsrc & Hout & Hout_ref & _).
    simpl in Hout, Hout_ref. split.
    + intros k l a Hl Ha. destruct k as [|k].
      * destruct (ref_ok_first _ _ _ _ _ _ _ _ _ _ _ _ Hok Hl)
          as (a0 & s0 & Ha0 & Hinit & Hs0).
        assert (a0 = a) as -> by congruence.
        exists s0. split; [done|]. by apply init_sample_frame.
      * destruct (ref_ok_later _ _ _ _ _ _ _ _ _ _ _ (S k) l Hok ltac:(lia) Hl)
          as (s & a' & lr & lprev & Ha' & Hinit & Hfin & _).
        assert (a' = a) as -> by congruence.
        exists (final_full p s). split; [done|].
        eapply same_outside_coords_trans; [by apply init_sample_frame|].
        apply attach_full_frame.
    + exists refvals. split; [done|]. intros k l ar Hl Har.
      destruct (decide (k = 0 \/ length vals <= k)) as [Hk|Hk].
      * destruct (ref_ok_landmark_untouched _ _ _ _ _ _ _ _ _ _ _ k l Hok Hk Hl)
          as (refvals' & ar' & sr & Hsrc' & Har' & Hinit & Hsr).
        assert (refvals' = refvals) as ->
          by exact (ref_source_functional _ _ _ _ _ _ _ _ Hsrc' Hsrc).
        assert (ar' = ar) as -> by congruence.
        exists sr. split; [done|]. by apply init_sample_frame.
      * assert (is_Some (out !! k)) as [lf Hlf].
        { rewrite Hout. apply lookup_lt_is_Some_2. rewrite length_seq. lia. }
        destruct (ref_ok_later _ _ _ _ _ _ _ _ _ _ _ k lf Hok ltac:(lia) Hlf)
          as (s & a & lr & lprev & _ & _ & _ & Hlr & _ & Hfin & _ & _ & _ & _ & _ & _
              & _ & _ & refvals' & ar' & Hsrc' & Har' & Hinit).
        assert (refvals' = refvals) as ->
          by exact (ref_source_functional _ _ _ _ _ _ _ _ Hsrc' Hsrc).
        assert (ar' = ar) as -> by congruence.
        assert (lr = l) as -> by congruence.
        exists (final_sample p (rs_step s)). split; [done|].
        eapply same_outside_coords_trans; [by apply init_sample_frame|].
        apply attach_frame.
Qed.

(** X5 (one copy per position).  The references either orchestrator
    returns are pairwise distinct, also when the caller's list names the
    same object more than once: every position of the input gets an object
    of its own, and no landmark copy is a full-resolution copy. *)
Theorem one_copy_per_position p models vals st :
  resolves st models vals ->
  (forall st' out pis,
      morpho_align models p st = (st', inr (out, pis)) ->
      NoDup out /\ length out = length models) /\
  (forall models_ref n_sampling sampling_method st' out out_ref pis pis_ref,
      refs_resolve st models_ref ->
      morpho_align_ref models models_ref n_sampling sampling_method p st
        = (st', inr (out, out_ref, pis, pis_ref)) ->
      NoDup (out ++ out_ref) /\ length out = length models).
Proof.
  intros Hres. pose proof (Forall2_length _ _ _ Hres) as Hlen. split.
  - intros st' out pis Hrun.
    pose proof (wp_run_ok _ _ _ _ _ _ (morpho_align_spec p models vals st Hres) Hrun) as Hok.
    destruct (seq_ok_shape _ _ _ _ _ _ Hok) as (-> & _).
    split; [apply NoDup_seq | by rewrite length_seq].
  - intros models_ref n_sampling sampling_method st' out out_ref pis pis_ref Hwf Hrun.
    pose proof (wp_run_ok _ _ _ _ _ _
                  (morpho_align_ref_spec p models vals models_ref n_sampling
                     sampling_method st Hres Hwf) Hrun) as Hok.
    destruct (ref_ok_shape _ _ _ _ _ _ _ _ _ _ _ Hok) as (refvals & _ & -> & -> & _).
    split; [|by rewrite length_seq].
    apply NoDup_app. split; [apply NoDup_seq|]. split; [|apply NoDup_seq].
    intros l Hl Hl'. apply elem_of_seq in Hl, Hl'. lia.
Qed.
End Frames.

Section Agreement.
Context {D : Data} {Bk : Backend}.
Implicit Types (a b f : AnnData) (p : Params).

(** The landmark side of a reference chain is the sequential chain. *)
Lemma chain_ref_steps p prev rest steps :
  chain p prev rest steps ->
  forall rest_full stepsR,
    chain_ref p prev rest rest_full stepsR ->
    length rest_full = length rest ->
    map rs_step stepsR = steps.
Proof.
  induction 1 as [prev|prev b rest r steps Hr Hchain IH]; intros rest_full stepsR HR Hlen.
  - destruct rest_full; [|done]. by inversion HR.
  - destruct rest_full as [|f rest_full]; [done|].
    inversion HR as [|? ? ? ? ? r' q nr disp rg stepsR' Hr' Hq Ht HR']; subst.
    assert (r' = r) as -> by congruence.
    simpl. f_equal. apply (IH rest_full); [done|]. simpl in Hlen. lia.
Qed.

(** X4 (the reference orchestrator on the samples themselves).  When
    [morpho_align_ref] is given the samples as their own reference set and
    both orchestrators return, the landmark samples it returns are, one by
    one, the samples [morpho_align] returns, its engine calls are made on
    the same pairs of samples, and its matrices are those of
    [morpho_align] before their transposition. *)
Theorem reference_on_same_samples p models vals n_sampling sampling_method
    st st1 out1 pis1 st2 out2 out_ref2 pis2 pis_ref2 :
  resolves st models vals ->
  morpho_align models p st = (st1, inr (out1, pis1)) ->
  morpho_align_ref models (Some models) n_sampling sampling_method p st
    = (st2, inr (out2, out_ref2, pis2, pis_ref2)) ->
  pis1 = map transpose pis_ref2 /\
  length out_ref2 = length out1 /\
  (forall k l1 l2, out1 !! k = Some l1 -> out_ref2 !! k = Some l2 ->
     is_Some (heap st1 !! l1) /\ heap st1 !! l1 = heap st2 !! l2) /\
  map call_samples (morpho_calls (new_events st st1))
    = map call_samples (morpho_calls (new_events st st2)).
Proof.
  intros Hres Hrun1 Hrun2.
  destruct (wp_run_ok _ _ _ _ _ _ (morpho_align_spec p models vals st Hres) Hrun1)
    as (S0 & steps & HS0 & Hchain & [= -> ->] & Hh1 & Ht1).
  assert (Hwf : refs_resolve st (Some models)) by (by exists vals).
  destruct (wp_run_ok _ _ _ _ _ _
              (morpho_align_ref_spec p models vals (Some models) n_sampling
                 sampling_method st Hres Hwf) Hrun2)
    as (refvals & F0 & R0 & stepsR & Hsrc & HF0 & HR0 & HchainR & Hres2 & Hh2 & Ht2).
  simpl in Hsrc, Hres2, Ht2. unfold ref_extra in Hh2.
  assert (refvals = vals) as -> by exact (resolves_functional _ _ _ _ Hsrc Hres).
  assert (F0 = S0) as -> by congruence.
  assert (R0 = S0) as -> by congruence.
  injection Hres2 as -> -> -> ->.
  pose proof (init_all_length _ _ _ HS0) as HlS.
  assert (Hsteps : map rs_step stepsR = steps).
  { unfold chain_all, chain_ref_all in *. destruct S0 as [|s0 rest].
    - subst. done.
    - by eapply chain_ref_steps. }
  assert (Hfin : finals_ref p S0 stepsR = finals p S0 steps).
  { unfold finals_ref, finals. destruct S0 as [|s0 rest]; [done|].
    f_equal. rewrite <- Hsteps, map_map.
    destruct (chain_ref_facts _ _ _ _ _ HchainR) as (Hlen & _).
    rewrite drop_ge by lia. by rewrite app_nil_r. }
  destruct (chain_all_facts _ _ _ Hchain) as (_ & Hflen & _).
  destruct (chain_ref_all_facts _ _ _ _ HchainR) as (_ & HlenF & _).
  split; [by rewrite <- Hsteps, !map_map|].
  split; [by rewrite !length_seq|].
  split.
  - intros k l1 l2 Hl1 Hl2.
    apply lookup_seq in Hl1 as [-> Hk]. apply lookup_seq in Hl2 as [-> _].
    rewrite Hh1, Hh2, Hfin.
    replace (length (heap st) + 0 + length vals + k)
      with (length (heap st) + length (@nil AnnData) + length vals + k) by (simpl; lia).
    rewrite (heap_lookup_ref _ _ _ _ (length vals)) by lia.
    rewrite lookup_app_r by lia.
    replace (length (heap st) + k - length (heap st)) with k by lia.
    split; [|done]. apply lookup_lt_is_Some_2. lia.
  - rewrite (new_events_app _ _ _ Ht1), (new_events_app _ _ _ Ht2).
    rewrite morpho_calls_seq_events, morpho_calls_ref_events, <- Hsteps.
    clear. generalize (length (heap st)) as n1.
    induction stepsR as [|s stepsR IH] using rev_ind; intros n1; [done|].
    by rewrite map_app, !imap_app, !map_app, IH.
Qed.
End Agreement.

Section Errors.
Context {D : Data} {Bk : Backend}.
Implicit Types (a b f : AnnData) (p : Params).

Lemma init_all_none_inv p xs :
  mapM (init_sample p) xs = None ->
  Exists (fun a => obsm a !! spatial_key p = None) xs.
Proof.
  induction xs as [|a xs IH]; [done|]. intros Hnone.
  destruct (obsm a !! spatial_key p) as [x|] eqn:Hx; [|by apply Exists_cons_hd].
  apply Exists_cons_tl, IH.
  destruct (mapM (init_sample p) xs) as [S0|] eqn:HS0; [|done].
  exfalso. simpl in Hnone. rewrite HS0 in Hnone.
  unfold init_sample in Hnone. by rewrite Hx in Hnone.
Qed.

Lemma length_concat_imap_pairs {A B} (g : nat -> A -> list B) :
  (forall k s, length (g k s) = 2) ->
  forall steps, length (concat (imap g steps)) = 2 * length steps.
Proof.
  intros Hg steps. revert g Hg.
  induction steps as [|s steps IH]; intros g Hg; [done|].
  simpl. rewrite length_app, Hg, (IH (g ∘ S)) by (intros; apply Hg). lia.
Qed.

(** X6 (registration and evaluation alternate).  The collaborator calls
    of a run of [morpho_align_ref] that returns are, in order: the call to
    the downsampler when no reference set was supplied, and none to it
    otherwise; then, for every pair in turn, the engine call on the
    landmark pair immediately followed by the evaluation of the field that
    very call fitted. *)
Theorem morpho_align_ref_event_order p models vals models_ref n_sampling sampling_method
    st st' out out_ref pis pis_ref :
  resolves st models vals ->
  refs_resolve st models_ref ->
  morpho_align_ref models models_ref n_sampling sampling_method p st
    = (st', inr (out, out_ref, pis, pis_ref)) ->
  exists evs,
    new_events st st' = ref_prelude models_ref vals n_sampling sampling_method p ++ evs /\
    length evs = 2 * (length models - 1) /\
    forall i, i < length models - 1 ->
      exists lA lB sa sb r q t,
        evs !! (2 * i) = Some (EvMorpho lA lB sa sb (morpho_args p)) /\
        Morpho_pairwise sa sb (morpho_args p) = inr r /\
        evs !! (2 * i + 1) = Some (EvTransform (vecfld r) q (device p) (dtype p)) /\
        BA_transform (vecfld r) q (device p) (dtype p) = inr t.
Proof.
  intros Hres Hwf Hrun. pose proof (Forall2_length _ _ _ Hres) as Hlen.
  destruct (wp_run_ok _ _ _ _ _ _
              (morpho_align_ref_spec p models vals models_ref n_sampling
                 sampling_method st Hres Hwf) Hrun)
    as (refvals & F0 & R0 & steps & Hsrc & HF0 & HR0 & Hchain & _ & _ & Ht).
  simpl in Ht.
  destruct (chain_ref_all_facts _ _ _ _ Hchain) as (Hsl & _ & _ & _ & _ & _ & Hsteps).
  rewrite (init_all_length _ _ _ HF0), <- Hlen in Hsl.
  eexists. split; [exact (new_events_app _ _ _ Ht)|].
  pose proof (concat_imap_pairs
                (ref_pair_events p (length (heap st) +
                   length (ref_extra models_ref vals refvals) + length vals))
                (fun _ _ => eq_refl) steps) as Hpair.
  split.
  { unfold ref_events. rewrite <- Hsl. by apply length_concat_imap_pairs. }
  intros i Hi.
  assert (is_Some (steps !! i)) as [s Hs] by (apply lookup_lt_is_Some_2; lia).
  destruct (Hsteps i s Hs) as (_ & _ & _ & _ & _ & He & _ & Htr).
  eexists _, _, _, _, (model (rs_step s)), (rs_query s), _.
  unfold ref_events.
  replace (2 * i) with (2 * i + 0) at 1 by lia.
  rewrite (Hpair i s 0 Hs) by lia. rewrite (Hpair i s 1 Hs) by lia.
  simpl. split; [done|]. split; [exact He|]. split; [done | exact Htr].
Qed.

(** X7 (too few reference samples).  With at least two samples and
    fewer reference samples than samples, all of them with raw coordinates
    and with collaborators that do not raise, [morpho_align_ref] does not
    return: it raises [IndexError] when it reaches the pair that has no
    landmark sample. *)
Theorem too_few_reference_samples p models vals refs refvals n_sampling sampling_method st :
  resolves st models vals ->
  resolves st refs refvals ->
  2 <= length models ->
  length refs < length models ->
  Forall (fun a => is_Some (obsm a !! spatial_key p)) vals ->
  Forall (fun a => is_Some (obsm a !! spatial_key p)) refvals ->
  (forall a b args, exists r, Morpho_pairwise a b args = inr r) ->
  (forall vf q dev dt, exists t, BA_transform vf q dev dt = inr t) ->
  exists st',
    morpho_align_ref models (Some refs) n_sampling sampling_method p st
      = (st', inl IndexError).
Proof.
  intros Hres Hrefs Hn Hlt Hsp Hspr Heng Htr.
  pose proof (Forall2_length _ _ _ Hres) as Hlen.
  pose proof (Forall2_length _ _ _ Hrefs) as Hlenr.
  assert (Hwf : refs_resolve st (Some refs)) by (by exists refvals).
  pose proof (morpho_align_ref_spec p models vals (Some refs) n_sampling sampling_method
                st Hres Hwf) as Hwp.
  unfold wp in Hwp.
  destruct (morpho_align_ref models (Some refs) n_sampling sampling_method p st)
    as [st' [e|[[[out out_ref] pis] pis_ref]]] eqn:Hrun.
  - exists st'. f_equal. f_equal. destruct Hwp as (_ & _ & Hcause).
    destruct Hcause
      as [[Hnone _]|[[_ Hnone]|[(rv & Hsrc & Hc)|[(a & b & Hfail)|(vf & q & Hfail)]]]].
    + done.
    + destruct (init_all_total p vals Hsp) as [? ?]. congruence.
    + simpl in Hsrc.
      assert (rv = refvals) as -> by exact (resolves_functional _ _ _ _ Hsrc Hrefs).
      destruct Hc as [[_ Hnone]|(-> & _)]; [|done].
      destruct (init_all_total p refvals Hspr) as [? ?]. congruence.
    + destruct (Heng b a (morpho_args p)) as [r Hr]. congruence.
    + destruct (Htr vf q (device p) (dtype p)) as [t Ht]. congruence.
  - exfalso. destruct (ref_ok_shape _ _ _ _ _ _ _ _ _ _ _ Hwp)
      as (rv & Hsrc & _ & _ & _ & _ & _ & _ & _ & Hle).
    simpl in Hsrc.
    assert (rv = refvals) as -> by exact (resolves_functional _ _ _ _ Hsrc Hrefs).
    lia.
Qed.

(** X8 (what the orchestrators raise).  [morpho_align] raises only
    [KeyError(spatial_key)], for a sample without raw coordinates and
    before any engine call, or the exception of the engine call it made
    last, every earlier call having returned.  [morpho_align_ref] raises
    only the downsampler's exception, [KeyError(spatial_key)] for a sample
    or a landmark sample without raw coordinates, [IndexError] for want of
    landmark samples, or the exception of the engine or of the evaluator. *)
Theorem raised_exceptions p models vals models_ref n_sampling sampling_method st :
  resolves st models vals ->
  refs_resolve st models_ref ->
  (forall st' e,
      morpho_align models p st = (st', inl e) ->
      (e = KeyError (spatial_key p) /\
       Exists (fun a => obsm a !! spatial_key p = None) vals /\
       new_events st st' = []) \/
      (exists evs la lb a b,
          new_events st st' = evs ++ [EvMorpho la lb b a (morpho_args p)] /\
          Forall call_ok (morpho_calls evs) /\
          Morpho_pairwise b a (morpho_args p) = inl e)) /\
  (forall st' e,
      morpho_align_ref models models_ref n_sampling sampling_method p st = (st', inl e) ->
      (models_ref = None /\
       downsampling vals n_sampling sampling_method (spatial_key p) = inl e) \/
      (e = KeyError (spatial_key p) /\
       Exists (fun a => obsm a !! spatial_key p = None) vals) \/
      (exists refvals,
          ref_source st models_ref vals n_sampling sampling_method p refvals /\
          ((e = KeyError (spatial_key p) /\
            Exists (fun a => obsm a !! spatial_key p = None) refvals) \/
           (e = IndexError /\ length refvals < length vals /\ 2 <= length vals))) \/
      (exists a b, Morpho_pairwise b a (morpho_args p) = inl e) \/
      (exists vf q, BA_transform vf q (device p) (dtype p) = inl e)).
Proof.
  intros Hres Hwf. split.
  - intros st' e Hrun.
    destruct (wp_run_err _ _ _ _ _ _ (morpho_align_spec p models vals st Hres) Hrun)
      as [_ [(-> & Hnone & Ht)|(evs & la & lb & a & b & Ht & Hok & Hfail)]].
    + left. split; [done|]. split; [by apply init_all_none_inv|].
      apply new_events_app. by rewrite app_nil_r.
    + right. exists evs, la, lb, a, b. split; [by apply new_events_app|]. done.
  - intros st' e Hrun.
    destruct (wp_run_err _ _ _ _ _ _
                (morpho_align_ref_spec p models vals models_ref n_sampling
                   sampling_method st Hres Hwf) Hrun) as (_ & _ & Hcause).
    destruct Hcause
      as [Hds|[[-> Hnone]|[(rv & Hsrc & Hc)|[Hfail|Hfail]]]].
    + by left.
    + right. left. split; [done|]. by apply init_all_none_inv.
    + right. right. left. exists rv. split; [done|].
      destruct Hc as [[-> Hnone]|Hc]; [left | by right].
      split; [done|]. by apply init_all_none_inv.
    + right. right. right. by left.
    + right. right. right. by right.
Qed.
End Errors.

(** * The logger *)

(** ** Strings *)

Lemma string_app_cons (c : ascii) (s t : string) : String c s +:+ t = String c (s +:+ t).
Proof. done. Qed.

Lemma string_app_nil_l (s : string) : "" +:+ s = s.
Proof. done. Qed.

Lemma string_app_nil_r (s : string) : s +:+ "" = s.
Proof. induction s as [|c s IH]; [done|]. by rewrite string_app_cons, IH. Qed.

Lemma string_app_assoc (s1 s2 s3 : string) : (s1 +:+ s2) +:+ s3 = s1 +:+ s2 +:+ s3.
Proof. induction s1 as [|c s1 IH]; [done|]. by rewrite !string_app_cons, IH. Qed.

Lemma string_concat_cons (s : string) (l : list string) :
  String.concat "" (s :: l) = s +:+ String.concat "" l.
Proof. destruct l; [by rewrite string_app_nil_r | done]. Qed.

Lemma str_mul_nonpos (s : string) (n : Z) : (n <= 0)%Z -> str_mul s n = "".
Proof. intros Hn. unfold str_mul. by replace (Z.to_nat n) with 0 by lia. Qed.

Lemma str_mul_of_nat_succ (s : string) (n : nat) :
  str_mul s (Z.of_nat (S n)) = s +:+ str_mul s (Z.of_nat n).
Proof.
  unfold str_mul. rewrite !Nat2Z.id. simpl replicate. apply string_concat_cons.
Qed.

Lemma str_mul_add (s : string) (a b : nat) :
  str_mul s (Z.of_nat (a + b)) = str_mul s (Z.of_nat a) +:+ str_mul s (Z.of_nat b).
Proof.
  induction a as [|a IH]; [done|].
  replace (S a + b) with (S (a + b)) by lia.
  by rewrite !str_mul_of_nat_succ, IH, string_app_assoc.
Qed.

Lemma str_mul_mul (s : string) (a b : nat) :
  str_mul (str_mul s (Z.of_nat a)) (Z.of_nat b) = str_mul s (Z.of_nat (b * a)).
Proof.
  induction b as [|b IH]; [done|].
  rewrite str_mul_of_nat_succ, IH. simpl. by rewrite str_mul_add.
Qed.

Lemma str_mul_clamp (s : string) (n : Z) : str_mul s n = str_mul s (Z.of_nat (Z.to_nat n)).
Proof. unfold str_mul. by rewrite Nat2Z.id. Qed.

(** The bar of a message prefix: a ["|"] in place of the first of the
    dashes, and alone when there is no dash. *)
Lemma prefix_bar (indent_level indent_space_num : Z) :
  "|" +:+ str_tail (str_mul (str_mul "-" indent_space_num) indent_level)
  = "|" +:+ str_mul "-" (Z.max 0 indent_level * Z.max 0 indent_space_num - 1).
Proof.
  f_equal.
  rewrite (str_mul_clamp "-" indent_space_num), (str_mul_clamp _ indent_level), str_mul_mul.
  rewrite (str_mul_clamp "-" (_ - 1)).
  replace (Z.to_nat (Z.max 0 indent_level * Z.max 0 indent_space_num - 1))
    with (Z.to_nat indent_level * Z.to_nat indent_space_num - 1) by lia.
  destruct (Z.to_nat indent_level * Z.to_nat indent_space_num) as [|n]; [done|].
  rewrite str_mul_of_nat_succ. simpl. by rewrite Nat.sub_0_r.
Qed.

Lemma format_logging_message_unfold msg logging_level indent_level indent_space_num :
  format_logging_message msg logging_level indent_level indent_space_num
  = "|" +:+ str_mul "-" (Z.max 0 indent_level * Z.max 0 indent_space_num - 1)
    +:+ level_marker logging_level +:+ " " +:+ msg.
Proof.
  unfold format_logging_message, level_marker. rewrite prefix_bar.
  repeat case_match; by rewrite ?string_app_assoc.
Qed.

(** ** The methods of [Logger], run *)

Section LoggerRuns.
Implicit Types (self lg : Logger.t) (w : World).

Lemma set_terminator_restore self :
  Logger.set_terminator (Logger.terminator self) (Logger.set_terminator "" self) = self.
Proof. by destruct self. Qed.

Lemma log_run lvl msg self w :
  Logger.log lvl msg (self, w)
  = ((self, write_if self lvl (msg +:+ Logger.terminator self) w), inr tt).
Proof. unfold Logger.log, write_if. simpl. by case_match. Qed.

Lemma write_if_ticks lg lvl chunk w : ticks (write_if lg lvl chunk w) = ticks w.
Proof. unfold write_if. by case_match. Qed.

Lemma write_if_clock lg lvl chunk w : clock (write_if lg lvl chunk w) = clock w.
Proof. unfold write_if. by case_match. Qed.

Lemma write_if_stdout lg lvl chunk w :
  stdout (write_if lg lvl chunk w) = stdout w ++ written_if lg lvl [chunk].
Proof. unfold write_if, written_if. case_match; simpl; by rewrite ?app_nil_r. Qed.

Lemma written_if_app lg lvl l1 l2 :
  written_if lg lvl l1 ++ written_if lg lvl l2 = written_if lg lvl (l1 ++ l2).
Proof. unfold written_if. by case_match. Qed.

Lemma report_progress_given percent count total progress_name indent_level self w :
  Logger.report_progress (Some percent) count total progress_name indent_level (self, w)
  = ((self, write_if self _logging.INFO (progress_line percent progress_name indent_level) w),
     inr tt).
Proof.
  unfold Logger.report_progress, lm_bind, lm_ret, lm_get, lm_modify. simpl.
  rewrite log_run. simpl. rewrite set_terminator_restore, string_app_nil_r.
  done.
Qed.

(** [a / b] returns when [b] is not zero and the quotient is within the
    doubles. *)
Lemma truediv_returns a b :
  b <> 0%Z -> overflows a b = false -> truediv a b = inr (quotient a b).
Proof.
  intros Hb Ho. unfold truediv. apply Z.eqb_neq in Hb. by rewrite Hb, Ho.
Qed.

(** A part of a whole never overflows. *)
Lemma overflows_part a b : (0 <= a <= b)%Z -> (0 < b)%Z -> overflows a b = false.
Proof.
  intros Ha Hb. unfold overflows. apply Z.leb_gt.
  assert (2 <= 2 ^ 1024 - 2 ^ 970)%Z as HK by (vm_compute; discriminate).
  generalize dependent (2 ^ 1024 - 2 ^ 970)%Z. intros K HK. nia.
Qed.

(** The division at the edge of the doubles, on integers no double
    holds, and on a zero dividend. *)
Lemma truediv_edge :
  truediv (2 ^ 1024 - 2 ^ 970 - 1) 1 = inr 0x1.fffffffffffffp+1023%float /\
  truediv (2 ^ 1024 - 2 ^ 970) 1 = inl OverflowError /\
  truediv (- 10 ^ 400) 1 = inl OverflowError /\
  truediv (10 ^ 400) (10 ^ 399) = inr 10%float /\
  truediv (2 ^ 53 + 1) 1 = inr 0x1p+53%float /\
  truediv 1 3 = inr (PrimFloat.div 1 3) /\
  truediv 0 (-5) = inr (PrimFloat.opp 0) /\
  truediv 1 0 = inl ZeroDivisionError.
Proof. vm_compute. repeat split. Qed.

Lemma report_progress_counted count total progress_name indent_level self w :
  total <> 0%Z -> overflows count total = false ->
  Logger.report_progress None (Some count) (Some total) progress_name indent_level (self, w)
  = ((self,
      write_if self _logging.INFO
        (progress_line (PrimFloat.mul (quotient count total) 100%float)
           progress_name indent_level) w),
     inr tt).
Proof.
  intros Ht Ho.
  unfold Logger.report_progress, lm_bind, lm_ret, lm_get, lm_modify, lm_lift.
  rewrite (truediv_returns _ _ Ht Ho). simpl.
  rewrite log_run. simpl. rewrite set_terminator_restore, string_app_nil_r.
  done.
Qed.

Lemma log_time_run self w :
  Logger.log_time (self, w)
  = ((Logger.set_time (clock w (ticks w))
        (PrimFloat.sub (clock w (ticks w)) (Logger.previous_timestamp self)) self,
      tick w),
     inr (PrimFloat.sub (clock w (ticks w)) (Logger.previous_timestamp self))).
Proof. done. Qed.

Lemma format_4f_100 : format_4f (100%float) = "100.0000".
Proof. vm_compute. reflexivity. Qed.

(** [finish_progress], run: the clock is read, the line for 100% and the
    end of the line are written, and only then is the time unit looked
    at. *)
Lemma finish_progress_run progress_name time_unit indent_level self w :
  let now := clock w (ticks w) in
  let passed := PrimFloat.sub now (Logger.previous_timestamp self) in
  let self' := Logger.set_time now passed self in
  let w1 := write_if self _logging.INFO LF
              (write_if self _logging.INFO
                 (progress_line (100%float) progress_name 1) (tick w)) in
  Logger.finish_progress progress_name time_unit indent_level (self, w)
  = if String.eqb time_unit "s" then
      ((self', write_if self _logging.INFO
                 (finished_line progress_name passed indent_level (Logger.terminator self))
                 w1), inr tt)
    else if String.eqb time_unit "ms" then
      ((self', write_if self _logging.INFO
                 (format_logging_message
                    ("[" +:+ progress_name +:+ "] finished ["
                     +:+ format_4f (PrimFloat.mul passed (1000%float)) +:+ "ms]")
                    _logging.INFO indent_level 6 +:+ Logger.terminator self)
                 w1), inr tt)
    else ((self', w1), inl NotImplementedError).
Proof.
  intros now passed self' w1. subst now passed self' w1.
  destruct self as [ns lv pl tm pt tp hs].
  unfold Logger.finish_progress.
  unfold lm_bind at 1. rewrite log_time_run.
  unfold lm_bind at 1. rewrite report_progress_given.
  unfold lm_bind, lm_get, lm_modify, lm_raise, Logger.info. simpl.
  destruct (String.eqb time_unit "s"); [|destruct (String.eqb time_unit "ms")];
    rewrite !log_run; unfold write_if, finished_line, Logger.set_terminator,
      Logger.set_time; simpl; rewrite string_app_nil_r; done.
Qed.

Lemma finish_progress_seconds progress_name indent_level self w :
  let now := clock w (ticks w) in
  let passed := PrimFloat.sub now (Logger.previous_timestamp self) in
  Logger.finish_progress progress_name "s" indent_level (self, w)
  = ((Logger.set_time now passed self,
      write_if self _logging.INFO
        (finished_line progress_name passed indent_level (Logger.terminator self))
        (write_if self _logging.INFO LF
           (write_if self _logging.INFO
              (progress_line (100%float) progress_name 1) (tick w)))),
     inr tt).
Proof. intros now passed. by rewrite finish_progress_run. Qed.

Lemma progress_line_is_progress_line percent progress_name indent_level :
  is_progress_line (progress_line percent progress_name indent_level).
Proof.
  unfold is_progress_line, progress_line. rewrite format_logging_message_unfold.
  eexists. reflexivity.
Qed.
End LoggerRuns.

(** ** The loggers of the manager *)

Section ManagerRuns.
Implicit Types (mgr : LoggerManager.t) (lg : Logger.t) (w : World)
  (r : LoggerManager.logger_ref).

Lemma set_get_logger r mgr :
  LoggerManager.set_logger r (LoggerManager.get_logger r mgr) mgr = mgr.
Proof. by destruct r, mgr. Qed.

Lemma get_set_logger r lg mgr :
  LoggerManager.get_logger r (LoggerManager.set_logger r lg mgr) = lg.
Proof. by destruct r. Qed.

Lemma get_set_logger_ne r r' lg mgr :
  r <> r' ->
  LoggerManager.get_logger r' (LoggerManager.set_logger r lg mgr)
  = LoggerManager.get_logger r' mgr.
Proof. by destruct r, r'. Qed.

Lemma set_set_logger r lg lg' mgr :
  LoggerManager.set_logger r lg' (LoggerManager.set_logger r lg mgr)
  = LoggerManager.set_logger r lg' mgr.
Proof. by destruct r. Qed.

Lemma on_run {A} r (m : LM Logger.t A) mgr w lg' w' res :
  m (LoggerManager.get_logger r mgr, w) = ((lg', w'), res) ->
  LoggerManager.on r m (mgr, w) = ((LoggerManager.set_logger r lg' mgr, w'), res).
Proof. unfold LoggerManager.on. simpl. by intros ->. Qed.
End ManagerRuns.

(** ** The generator [progress_logger], step by step *)

Section Generator.
Context {A : Type}.
Implicit Types (gen : list A) (mgr : LoggerManager.t) (w : World)
  (lr : LoggerManager.logger_ref) (lopt : option LoggerManager.logger_ref).

(** From the test of the loop to the [yield]: the manager is as it was,
    and at most one progress line has been written. *)
Lemma resume_yield gen lopt pn il f lr i prev mgr w x :
  gen !! i = Some x ->
  exists prev' w' lines,
    LoggerManager.resume (LoggerManager.mk_gen gen lopt pn il f) lr (drop i gen) i prev
      (mgr, w)
    = ((mgr, w'),
       inr (Some x,
            LoggerManager.mk_gen gen lopt pn il
              (LoggerManager.Suspended lr (drop (S i) gen) (S i) prev'))) /\
    ticks w' = ticks w /\ clock w' = clock w /\
    stdout w' = stdout w ++
      written_if (LoggerManager.get_logger lr mgr) _logging.INFO lines /\
    length lines <= 1 /\ Forall is_progress_line lines.
Proof.
  intros Hx. pose proof (lookup_lt_Some _ _ _ Hx) as Hlt.
  unfold LoggerManager.resume. simpl.
  apply Nat.ltb_lt in Hlt as Hltb. rewrite Hltb.
  replace (i + 1) with (S i) by lia.
  assert (Z.of_nat (length gen) <> 0%Z) as Hn by lia.
  assert (overflows (Z.of_nat (S i)) (Z.of_nat (length gen)) = false) as Ho
    by (apply overflows_part; lia).
  unfold lm_bind at 1. rewrite (truediv_returns _ _ Hn Ho). unfold lm_lift.
  rewrite (drop_S _ _ _ Hx).
  unfold lm_bind at 1.
  match goal with |- context [if ?c then _ else _] => destruct c end.
  - unfold lm_bind at 1.
    erewrite on_run by (apply report_progress_counted; [exact Hn | exact Ho]).
    rewrite set_get_logger. unfold lm_ret. simpl.
    eexists _, _, [_]. split; [reflexivity|].
    rewrite write_if_ticks, write_if_clock, write_if_stdout.
    split; [done|]. split; [done|]. split; [done|]. split; [simpl; lia|].
    repeat constructor. apply progress_line_is_progress_line.
  - unfold lm_ret. simpl. exists prev, w, []. split; [done|].
    split; [done|]. split; [done|]. split.
    + unfold written_if. case_match; by rewrite app_nil_r.
    + split; [simpl; lia | constructor].
Qed.

(** From the test of the loop to the end, when every item has been
    yielded. *)
Lemma resume_finish gen lopt pn il f lr prev mgr w :
  let lg := LoggerManager.get_logger lr mgr in
  let now := clock w (ticks w) in
  let passed := PrimFloat.sub now (Logger.previous_timestamp lg) in
  LoggerManager.resume (LoggerManager.mk_gen gen lopt pn il f) lr [] (length gen) prev
    (mgr, w)
  = ((LoggerManager.set_logger lr (Logger.set_time now passed lg) mgr,
      write_if lg _logging.INFO (finished_line pn passed il (Logger.terminator lg))
        (write_if lg _logging.INFO LF
           (write_if lg _logging.INFO (progress_line 100%float pn 1) (tick w)))),
     inr (None, LoggerManager.mk_gen gen lopt pn il LoggerManager.Closed)).
Proof.
  intros lg now passed. unfold LoggerManager.resume. simpl.
  rewrite Nat.ltb_irrefl. unfold lm_bind.
  erewrite on_run by (apply finish_progress_seconds). done.
Qed.

(** Exhausting a suspended generator. *)
Lemma collect_suspended gen lopt pn il lr mgr :
  forall k i prev w fuel,
    i + k = length gen -> k < fuel ->
    let lg := LoggerManager.get_logger lr mgr in
    let now := clock w (ticks w) in
    let passed := PrimFloat.sub now (Logger.previous_timestamp lg) in
    exists w' lines,
      LoggerManager.collect fuel
        (LoggerManager.mk_gen gen lopt pn il (LoggerManager.Suspended lr (drop i gen) i prev))
        (mgr, w)
      = ((LoggerManager.set_logger lr (Logger.set_time now passed lg) mgr, w'),
         inr (Some (drop i gen))) /\
      ticks w' = S (ticks w) /\ clock w' = clock w /\
      stdout w' = stdout w ++
        written_if lg _logging.INFO
          (lines ++ [progress_line 100%float pn 1; LF;
                     finished_line pn passed il (Logger.terminator lg)]) /\
      length lines <= k /\ Forall is_progress_line lines.
Proof.
  induction k as [|k IH]; intros i prev w fuel Hik Hfuel lg now passed.
  - destruct fuel as [|fuel]; [lia|].
    assert (i = length gen) as -> by lia.
    rewrite drop_all. simpl. unfold lm_bind at 1.
    unfold LoggerManager.next. simpl. rewrite resume_finish.
    fold lg now passed. unfold lm_ret.
    eexists _, []. split; [reflexivity|].
    rewrite !write_if_ticks, !write_if_clock, !write_if_stdout.
    split; [done|]. split; [done|]. split.
    + by rewrite <- !app_assoc, !written_if_app.
    + split; [simpl; lia | constructor].
  - destruct fuel as [|fuel]; [lia|].
    assert (is_Some (gen !! i)) as [x Hx] by (apply lookup_lt_is_Some_2; lia).
    destruct (resume_yield gen lopt pn il
                (LoggerManager.Suspended lr (drop i gen) i prev) lr i prev mgr w x Hx)
      as (prev' & w1 & lines1 & Hstep & Ht1 & Hc1 & Hs1 & Hl1 & Hp1).
    destruct (IH (S i) prev' w1 fuel ltac:(lia) ltac:(lia))
      as (w' & lines & Hrest & Ht & Hc & Hs & Hl & Hp).
    simpl. unfold lm_bind at 1. unfold LoggerManager.next. simpl.
    rewrite Hstep. unfold lm_bind at 1. rewrite Hrest. unfold lm_ret. simpl.
    rewrite (drop_S _ _ _ Hx).
    exists w', (lines1 ++ lines). split.
    { subst lg now passed. by rewrite Hc1, Ht1. }
    split; [lia|]. split; [congruence|]. split.
    { rewrite Hs, Hs1, <- app_assoc, written_if_app, <- app_assoc.
      subst lg now passed. by rewrite Hc1, Ht1. }
    split; [rewrite length_app; lia | by apply Forall_app].
Qed.

(** [k] items taken from a suspended generator. *)
Lemma advance_suspended gen lopt pn il lr mgr :
  forall k i prev w,
    i + k <= length gen ->
    exists w' prev' lines,
      LoggerManager.advance k
        (LoggerManager.mk_gen gen lopt pn il (LoggerManager.Suspended lr (drop i gen) i prev))
        (mgr, w)
      = ((mgr, w'),
         inr (take k (drop i gen),
              LoggerManager.mk_gen gen lopt pn il
                (LoggerManager.Suspended lr (drop (i + k) gen) (i + k) prev'))) /\
      ticks w' = ticks w /\ clock w' = clock w /\
      stdout w' = stdout w ++
        written_if (LoggerManager.get_logger lr mgr) _logging.INFO lines /\
      length lines <= k /\ Forall is_progress_line lines.
Proof.
  induction k as [|k IH]; intros i prev w Hik.
  - simpl. unfold lm_ret. rewrite Nat.add_0_r. exists w, prev, [].
    split; [done|]. split; [done|]. split; [done|]. split.
    + unfold written_if. case_match; by rewrite app_nil_r.
    + split; [done | constructor].
  - assert (is_Some (gen !! i)) as [x Hx] by (apply lookup_lt_is_Some_2; lia).
    destruct (resume_yield gen lopt pn il
                (LoggerManager.Suspended lr (drop i gen) i prev) lr i prev mgr w x Hx)
      as (prev1 & w1 & lines1 & Hstep & Ht1 & Hc1 & Hs1 & Hl1 & Hp1).
    destruct (IH (S i) prev1 w1 ltac:(lia))
      as (w' & prev' & lines & Hrest & Ht & Hc & Hs & Hl & Hp).
    simpl. unfold lm_bind at 1. unfold LoggerManager.next. simpl.
    rewrite Hstep. unfold lm_bind at 1. rewrite Hrest. unfold lm_ret. simpl.
    rewrite (drop_S _ _ _ Hx). simpl.
    replace (i + S k) with (S i + k) by lia.
    exists w', prev', (lines1 ++ lines). split; [done|].
    split; [congruence|]. split; [congruence|]. split.
    { by rewrite Hs, Hs1, <- app_assoc, written_if_app. }
    split; [rewrite length_app; lia | by apply Forall_app].
Qed.

(** The first [next]: the clock is read once, then the loop is entered. *)
Lemma next_created gen lopt pn il mgr w :
  let lr := default LoggerManager.TempTimerLogger lopt in
  let lg := LoggerManager.get_logger lr mgr in
  let now := clock w (ticks w) in
  let lg1 := Logger.set_time now (PrimFloat.sub now (Logger.previous_timestamp lg)) lg in
  LoggerManager.next (LoggerManager.progress_logger gen lopt pn il) (mgr, w)
  = LoggerManager.resume (LoggerManager.progress_logger gen lopt pn il) lr gen 0
      0%float (LoggerManager.set_logger lr lg1 mgr, tick w).
Proof.
  intros lr lg now lg1. unfold LoggerManager.next. simpl.
  unfold lm_bind. erewrite on_run by (apply log_time_run). done.
Qed.

(** Exhausting a new generator. *)
Lemma collect_created gen lopt pn il mgr w fuel :
  length gen < fuel ->
  let lr := default LoggerManager.TempTimerLogger lopt in
  let lg := LoggerManager.get_logger lr mgr in
  let t0 := clock w (ticks w) in
  let t1 := clock w (S (ticks w)) in
  let lg2 := Logger.set_time t1 (PrimFloat.sub t1 t0) lg in
  exists w' lines,
    LoggerManager.collect fuel (LoggerManager.progress_logger gen lopt pn il) (mgr, w)
    = ((LoggerManager.set_logger lr lg2 mgr, w'), inr (Some gen)) /\
    ticks w' = ticks w + 2 /\ clock w' = clock w /\
    stdout w' = stdout w ++
      written_if lg _logging.INFO
        (lines ++ [progress_line 100%float pn 1; LF;
                   finished_line pn (PrimFloat.sub t1 t0) il (Logger.terminator lg)]) /\
    length lines <= length gen /\ Forall is_progress_line lines.
Proof.
  intros Hfuel lr lg t0 t1 lg2.
  set (lg1 := Logger.set_time t0 (PrimFloat.sub t0 (Logger.previous_timestamp lg)) lg).
  set (mgr1 := LoggerManager.set_logger lr lg1 mgr).
  destruct fuel as [|fuel]; [lia|].
  destruct gen as [|x gen].
  - (* no item: the generator finishes at its first [next] *)
    simpl LoggerManager.collect. unfold lm_bind at 1. rewrite next_created.
    fold lr lg t0 lg1 mgr1.
    pose proof (resume_finish [] lopt pn il LoggerManager.Created lr 0%float
                  mgr1 (tick w)) as Hfin.
    change (length (@nil A)) with 0 in Hfin.
    unfold LoggerManager.progress_logger. rewrite Hfin.
    unfold lm_ret, mgr1, lg1. rewrite get_set_logger, set_set_logger. simpl.
    eexists _, []. split; [reflexivity|].
    rewrite !write_if_ticks, !write_if_clock, !write_if_stdout. simpl.
    split; [lia|]. split; [done|]. split.
    + by rewrite <- !app_assoc, !written_if_app.
    + split; [lia | constructor].
  - destruct (resume_yield (x :: gen) lopt pn il LoggerManager.Created lr 0 0%float
                mgr1 (tick w) x eq_refl)
      as (prev1 & w1 & lines1 & Hstep & Ht1 & Hc1 & Hs1 & Hl1 & Hp1).
    destruct (collect_suspended (x :: gen) lopt pn il lr mgr1 (length gen) 1 prev1 w1 fuel
                ltac:(simpl; lia) ltac:(simpl in Hfuel; lia))
      as (w' & lines & Hrest & Ht & Hc & Hs & Hl & Hp).
    simpl LoggerManager.collect. unfold lm_bind at 1. rewrite next_created.
    fold lr lg t0 lg1 mgr1. unfold LoggerManager.progress_logger.
    simpl drop in Hstep. rewrite Hstep. unfold lm_bind at 1.
    simpl drop in Hrest. rewrite Hrest. unfold lm_ret. simpl.
    unfold mgr1, lg1 in *. rewrite get_set_logger, set_set_logger in *. simpl in *.
    rewrite Hc1, Ht1 in *. simpl in *.
    exists w', (lines1 ++ lines). split; [done|].
    split; [lia|]. split; [congruence|]. split.
    { by rewrite Hs, Hs1, <- app_assoc, written_if_app, <- app_assoc. }
    split; [rewrite length_app; lia | by apply Forall_app].
Qed.

(** [k >= 1] items taken from a new generator. *)
Lemma advance_created gen lopt pn il mgr w k :
  1 <= k <= length gen ->
  let lr := default LoggerManager.TempTimerLogger lopt in
  let lg := LoggerManager.get_logger lr mgr in
  let t0 := clock w (ticks w) in
  let lg1 := Logger.set_time t0 (PrimFloat.sub t0 (Logger.previous_timestamp lg)) lg in
  exists w' prev lines,
    LoggerManager.advance k (LoggerManager.progress_logger gen lopt pn il) (mgr, w)
    = ((LoggerManager.set_logger lr lg1 mgr, w'),
       inr (take k gen,
            LoggerManager.mk_gen gen lopt pn il
              (LoggerManager.Suspended lr (drop k gen) k prev))) /\
    ticks w' = S (ticks w) /\ clock w' = clock w /\
    stdout w' = stdout w ++ written_if lg _logging.INFO lines /\
    length lines <= k /\ Forall is_progress_line lines.
Proof.
  intros [Hk1 Hk2] lr lg t0 lg1.
  set (mgr1 := LoggerManager.set_logger lr lg1 mgr).
  destruct k as [|k]; [lia|]. destruct gen as [|x gen]; [simpl in Hk2; lia|].
  destruct (resume_yield (x :: gen) lopt pn il LoggerManager.Created lr 0 0%float
              mgr1 (tick w) x eq_refl)
    as (prev1 & w1 & lines1 & Hstep & Ht1 & Hc1 & Hs1 & Hl1 & Hp1).
  destruct (advance_suspended (x :: gen) lopt pn il lr mgr1 k 1 prev1 w1
              ltac:(simpl in *; lia))
    as (w' & prev' & lines & Hrest & Ht & Hc & Hs & Hl & Hp).
  simpl LoggerManager.advance. unfold lm_bind at 1. rewrite next_created.
  fold lr lg t0 lg1 mgr1. unfold LoggerManager.progress_logger.
  simpl drop in Hstep. rewrite Hstep. unfold lm_bind at 1.
  simpl drop in Hrest. rewrite Hrest. unfold lm_ret. simpl.
  unfold mgr1, lg1 in *. rewrite get_set_logger in *. simpl in *.
  exists w', prev', (lines1 ++ lines). split; [done|].
  split; [lia|]. split; [congruence|]. split.
  { by rewrite Hs, Hs1, <- app_assoc, written_if_app. }
  split; [rewrite length_app; lia | by apply Forall_app].
Qed.
End Generator.

(** * Properties of the logger *)

Lemma str_mul_length (n : Z) : String.length (str_mul "-" n) = Z.to_nat n.
Proof.
  rewrite str_mul_clamp. induction (Z.to_nat n) as [|k IH]; [done|].
  rewrite str_mul_of_nat_succ, string_app_cons, string_app_nil_l. simpl. by rewrite IH.
Qed.

(** X9 (the prefix of a log line).  Every line [format_logging_message]
    builds is a bar, the marker of the level, a space and the message.  The
    bar is a ["|"] followed by dashes; it is as wide as [indent_level]
    times [indent_space_num] characters, and still one character wide, the
    ["|"], when that product is zero or either factor is negative. *)
Theorem format_logging_message_shape msg logging_level indent_level indent_space_num :
  exists bar,
    format_logging_message msg logging_level indent_level indent_space_num
      = bar +:+ level_marker logging_level +:+ " " +:+ msg /\
    bar = "|" +:+ str_mul "-" (Z.max 0 indent_level * Z.max 0 indent_space_num - 1) /\
    Z.of_nat (String.length bar) = Z.max 1 (Z.max 0 indent_level * Z.max 0 indent_space_num).
Proof.
  eexists. split; [|split; [reflexivity|]].
  - rewrite format_logging_message_unfold. by rewrite string_app_assoc.
  - rewrite string_app_cons, string_app_nil_l. simpl String.length.
    rewrite str_mul_length. lia.
Qed.

(** X10 (a log line can be read back).  Two lines built with the same
    indentation are equal only if they carry the same marker and the same
    message: the marker is always followed by a space, and no marker
    starts with one. *)
Theorem format_logging_message_decodes msg1 msg2 level1 level2 indent_level indent_space_num :
  format_logging_message msg1 level1 indent_level indent_space_num
    = format_logging_message msg2 level2 indent_level indent_space_num ->
  level_marker level1 = level_marker level2 /\ msg1 = msg2.
Proof.
  rewrite !format_logging_message_unfold. intros Heq.
  apply String.app_inj in Heq. apply String.app_inj in Heq.
  unfold level_marker in *.
  repeat case_match; simpl in Heq; try discriminate Heq;
    (split; [done|]); by simplify_eq.
Qed.

Section LoggerProperties.
Implicit Types (self lg : Logger.t) (w : World).

Lemma written_app w w' chunks : stdout w' = stdout w ++ chunks -> written w w' = chunks.
Proof. unfold written. intros ->. apply drop_app_length. Qed.

(** X11 (what [report_progress] does and raises).  [report_progress]
    leaves the logger as it found it, the terminator of the stream handler
    included, and does not read the clock.  It raises [AssertionError] when
    no percentage is given and the count or the total is missing,
    [ZeroDivisionError] when the percentage is to be computed from a total
    of zero, and [OverflowError] when the quotient of the count and the
    total is beyond the doubles; nothing has been written then.  Otherwise
    it returns, having written one progress line, which does not end the
    line, when the logger is enabled for [INFO], and nothing when it is
    not: a logger whose own level is [NOTSET] is enabled when the level it
    inherits is at most [INFO]. *)
Theorem report_progress_outcome percent count total progress_name indent_level self w :
  exists w' res,
    Logger.report_progress percent count total progress_name indent_level (self, w)
      = ((self, w'), res) /\
    ticks w' = ticks w /\
    match res with
    | inl e =>
        w' = w /\ percent = None /\
        ((e = AssertionError /\ (count = None \/ total = None)) \/
         (e = ZeroDivisionError /\ is_Some count /\ total = Some 0%Z) \/
         (e = OverflowError /\
          exists c t, count = Some c /\ total = Some t /\ t <> 0%Z /\
                      overflows c t = true))
    | inr _ =>
        (exists line,
            is_progress_line line /\
            written w w' =
              if (if (Logger.level self =? _logging.NOTSET)%Z
                  then Logger.parent_level self else Logger.level self) <=? _logging.INFO
              then [line] else [])%Z /\
        (percent = None ->
           exists c t, count = Some c /\ total = Some t /\ t <> 0%Z /\
                       overflows c t = false)
    end.
Proof.
  destruct percent as [percent|].
  - eexists _, _. split; [apply report_progress_given|].
    rewrite write_if_ticks. split; [done|]. split; [|done].
    eexists. split; [apply progress_line_is_progress_line|].
    apply written_app, write_if_stdout.
  - destruct count as [c|], total as [t|];
      try (exists w, (inl AssertionError); split; [done|]; split; [done|];
           split; [done|]; split; [done|]; left; split; [done|]; auto; fail).
    destruct (decide (t = 0%Z)) as [->|Ht].
    + exists w, (inl ZeroDivisionError). split; [done|]. split; [done|].
      split; [done|]. split; [done|]. right. left. eauto.
    + destruct (overflows c t) eqn:Ho.
      * exists w, (inl OverflowError). split.
        { unfold Logger.report_progress, lm_bind, lm_lift, truediv.
          apply Z.eqb_neq in Ht. by rewrite Ht, Ho. }
        split; [done|]. split; [done|]. split; [done|]. right. right.
        split; [done|]. by exists c, t.
      * eexists _, _. split; [by apply report_progress_counted|].
        rewrite write_if_ticks. split; [done|]. split.
        -- eexists. split; [apply progress_line_is_progress_line|].
           apply written_app, write_if_stdout.
        -- intros _. by exists c, t.
Qed.

(** X12 (an unknown time unit is found out last).  With a time unit
    other than ["s"] and ["ms"], [finish_progress] raises
    [NotImplementedError], but only after it has read the clock, moved the
    timestamp of the logger, and, when the logger is enabled for [INFO]
    (by its own level, or by the level it inherits when its own is
    [NOTSET]), written the line for 100% and the end of the line. *)
Theorem finish_progress_unknown_time_unit progress_name time_unit indent_level self w :
  time_unit <> "s" -> time_unit <> "ms" ->
  exists self' w',
    Logger.finish_progress progress_name time_unit indent_level (self, w)
      = ((self', w'), inl NotImplementedError) /\
    readings w w' = 1 /\
    Logger.previous_timestamp self' = clock w (ticks w) /\
    same_but_time self self' /\
    written w w' = written_if self _logging.INFO
                     [progress_line 100%float progress_name 1; LF].
Proof.
  intros Hs Hms. apply String.eqb_neq in Hs, Hms.
  eexists _, _. split.
  { rewrite finish_progress_run, Hs, Hms. reflexivity. }
  unfold readings. rewrite !write_if_ticks. simpl.
  split; [lia|]. split; [done|]. split; [by destruct self|].
  apply written_app. rewrite !write_if_stdout. simpl.
  by rewrite <- app_assoc, written_if_app.
Qed.

(** X17 (the download hook).  [request_report_hook] raises
    [ZeroDivisionError] for a total size of zero and [OverflowError] when
    the quotient of the bytes read and the total size is beyond the
    doubles, in both cases after it has initialised its percentage state
    and without writing; otherwise it returns, and its percentage state is
    [None] afterwards exactly when the blocks read so far cover the total
    size, in which case it has finished the progress. *)
Theorem request_report_hook_state bn rs ts self w :
  exists self' w' res,
    Logger.request_report_hook bn rs ts (self, w) = ((self', w'), res) /\
    if decide (ts = 0%Z) then
      res = inl ZeroDivisionError /\ w' = w /\
      Logger.report_hook_percent_state self'
        = Some (default 0%float (Logger.report_hook_percent_state self))
    else if overflows (rs * bn) ts then
      res = inl OverflowError /\ w' = w /\
      Logger.report_hook_percent_state self'
        = Some (default 0%float (Logger.report_hook_percent_state self))
    else
      res = inr tt /\
      (Logger.report_hook_percent_state self' = None <-> (ts <= rs * bn)%Z) /\
      readings w w' = (if decide (ts <= rs * bn)%Z then 1 else 0).
Proof.
  unfold Logger.request_report_hook, lm_bind, lm_get, lm_lift, lm_ret, lm_modify.
  destruct (decide (ts = 0%Z)) as [->|Hts].
  { unfold truediv. simpl.
    destruct (Logger.report_hook_percent_state self) eqn:Hst; simpl.
    - eexists _, _, _. split; [reflexivity|]. by rewrite Hst.
    - eexists _, _, _. split; [reflexivity|]. done. }
  destruct (overflows (rs * bn) ts) eqn:Ho.
  { unfold truediv. apply Z.eqb_neq in Hts. rewrite Hts, Ho. simpl.
    destruct (Logger.report_hook_percent_state self) eqn:Hst; simpl.
    - eexists _, _, _. split; [reflexivity|]. by rewrite Hst.
    - eexists _, _, _. split; [reflexivity|]. done. }
  rewrite (truediv_returns _ _ Hts Ho).
  assert (Hfin : forall lg w0,
    (ts <= rs * bn)%Z ->
    exists self' w',
      Logger.finish_progress "download" "s" 1 (Logger.set_report_hook_percent_state None lg, w0)
        = ((self', w'), inr tt) /\
      Logger.report_hook_percent_state self' = None /\ ticks w' = S (ticks w0)).
  { intros lg w0 Hle. rewrite finish_progress_seconds.
    eexists _, _. split; [reflexivity|]. split; [done|].
    by rewrite !write_if_ticks. }
  assert (Hdone : forall lg w0,
    (ts <= rs * bn)%Z -> ticks w0 = ticks w ->
    exists self' w' res,
      Logger.finish_progress "download" "s" 1
        (Logger.set_report_hook_percent_state None lg, w0) = ((self', w'), res) /\
      res = inr tt /\
      (Logger.report_hook_percent_state self' = None <-> (ts <= rs * bn)%Z) /\
      readings w w' = (if decide (ts <= rs * bn)%Z then 1 else 0)).
  { intros lg w0 Hle Hw0. destruct (Hfin lg w0 Hle) as (s' & w' & Hf & Hn & Ht).
    exists s', w', (inr tt). split; [done|]. split; [done|]. split; [done|].
    rewrite decide_True by done. unfold readings. lia. }
  assert (Hopen : forall lg w0,
    (rs * bn < ts)%Z -> ticks w0 = ticks w ->
    is_Some (Logger.report_hook_percent_state lg) ->
    exists self' w' res,
      ((lg, w0), @inr pyexn unit tt) = ((self', w'), res) /\
      res = inr tt /\
      (Logger.report_hook_percent_state self' = None <-> (ts <= rs * bn)%Z) /\
      readings w w' = (if decide (ts <= rs * bn)%Z then 1 else 0)).
  { intros lg w0 Hlt Hw0 [x Hx]. exists lg, w0, (inr tt).
    split; [done|]. split; [done|]. split; [rewrite Hx; split; [done | lia]|].
    rewrite decide_False by lia. unfold readings. lia. }
  destruct (Logger.report_hook_percent_state self) as [st0|] eqn:Hst; simpl;
    rewrite ?Hst; simpl;
    match goal with |- context [if PrimFloat.ltb ?a ?b then _ else _] =>
      destruct (PrimFloat.ltb a b) end;
    rewrite ?report_progress_counted by done; simpl;
    (destruct (Z.leb_spec ts (rs * bn)) as [Hle|Hlt]; simpl;
     [apply Hdone | apply Hopen]); rewrite ?write_if_ticks; simpl; eauto.
Qed.

(** X18 (restoring the namespace).  Around a function that leaves the
    namespace alone, the decorator [namespaced] always puts the previous
    namespace back, whether the function returns or raises; the context
    manager [namespaced_context] puts it back when its body returns, and
    leaves the new namespace in place when its body raises. *)
Theorem namespace_restored_or_left {A} (ns : string) (body : LM Logger.t A) self w :
  (forall sw, Logger.namespace (body sw).1.1 = Logger.namespace sw.1) ->
  Logger.namespace (Logger.namespaced ns body (self, w)).1.1 = Logger.namespace self /\
  (Logger.namespaced ns body (self, w)).2 = (body (Logger.set_namespace ns self, w)).2 /\
  (Logger.namespaced_context ns body (self, w)).2
    = (body (Logger.set_namespace ns self, w)).2 /\
  Logger.namespace (Logger.namespaced_context ns body (self, w)).1.1
    = match (body (Logger.set_namespace ns self, w)).2 with
      | inr _ => Logger.namespace self
      | inl _ => ns
      end.
Proof.
  intros Hbody. specialize (Hbody (Logger.set_namespace ns self, w)).
  unfold Logger.namespaced, Logger.namespaced_context. simpl in *.
  destruct (body (Logger.set_namespace ns self, w)) as [[self' w'] [e|a]]; simpl in *; done.
Qed.
End LoggerProperties.

Section GeneratorProperties.
Context {A : Type}.
Implicit Types (generator : list A) (mgr : LoggerManager.t) (w : World)
  (logger : option LoggerManager.logger_ref).

(** X13 (the progress logger yields every item).  Whatever the state of
    the loggers and of the clock, [list(progress_logger(generator))] raises
    nothing and is the list of the items of [generator], in order: the
    items the loop driver of the orchestrators walks through.  One call of
    [next] more than there are items is enough. *)
Theorem progress_logger_yields_all generator logger progress_name indent_level mgr w fuel :
  length generator < fuel ->
  exists mgr' w',
    LoggerManager.collect fuel
      (LoggerManager.progress_logger generator logger progress_name indent_level) (mgr, w)
    = ((mgr', w'), inr (Some (progress_logger generator))).
Proof.
  intros Hfuel.
  destruct (collect_created generator logger progress_name indent_level mgr w fuel Hfuel)
    as (w' & lines & Hrun & _).
  unfold progress_logger. rewrite progress_logger_loop_id. eauto.
Qed.

(** X14 (the progress logger times the loop).  Exhausting the generator
    reads the clock twice, at the first [next] and at the last.  It acts on
    one logger only, the timer logger unless another is given: that logger
    keeps its namespace, level and terminator, its timestamp is the second
    reading and the time it measured is the difference of the two readings;
    the other logger of the manager is untouched. *)
Theorem progress_logger_times_the_loop generator logger progress_name indent_level
    mgr w fuel mgr' w' res :
  length generator < fuel ->
  LoggerManager.collect fuel
    (LoggerManager.progress_logger generator logger progress_name indent_level) (mgr, w)
    = ((mgr', w'), res) ->
  let lr := default LoggerManager.TempTimerLogger logger in
  readings w w' = 2 /\
  (forall r, r <> lr -> LoggerManager.get_logger r mgr' = LoggerManager.get_logger r mgr) /\
  LoggerManager.namespace mgr' = LoggerManager.namespace mgr /\
  same_but_time (LoggerManager.get_logger lr mgr) (LoggerManager.get_logger lr mgr') /\
  Logger.previous_timestamp (LoggerManager.get_logger lr mgr') = clock w (S (ticks w)) /\
  Logger.time_passed (LoggerManager.get_logger lr mgr')
    = PrimFloat.sub (clock w (S (ticks w))) (clock w (ticks w)).
Proof.
  intros Hfuel Hrun lr.
  destruct (collect_created generator logger progress_name indent_level mgr w fuel Hfuel)
    as (w1 & lines & Hrun' & Ht & _).
  rewrite Hrun in Hrun'. injection Hrun' as -> -> _.
  fold lr. unfold readings. split; [lia|]. split.
  { intros r Hr. by apply get_set_logger_ne. }
  split; [by destruct lr|]. rewrite get_set_logger. done.
Qed.

(** X15 (what the progress logger writes).  When its logger is enabled
    for [INFO], exhausting the generator writes at most one progress line
    per item, then the line for 100% at indentation 1 whatever
    [indent_level] is, the end of the line, and the line that reports the
    time between the two clock readings; a logger that is not enabled for
    [INFO] writes nothing.  The level that decides is the logger's own, or
    the one it inherits when its own is [NOTSET]. *)
Theorem progress_logger_output generator logger progress_name indent_level
    mgr w fuel mgr' w' res :
  length generator < fuel ->
  LoggerManager.collect fuel
    (LoggerManager.progress_logger generator logger progress_name indent_level) (mgr, w)
    = ((mgr', w'), res) ->
  let lg := LoggerManager.get_logger (default LoggerManager.TempTimerLogger logger) mgr in
  exists lines,
    written w w' =
      written_if lg _logging.INFO
        (lines ++
         [progress_line 100%float progress_name 1; LF;
          finished_line progress_name
            (PrimFloat.sub (clock w (S (ticks w))) (clock w (ticks w)))
            indent_level (Logger.terminator lg)]) /\
    length lines <= length generator /\
    Forall is_progress_line lines.
Proof.
  intros Hfuel Hrun lg.
  destruct (collect_created generator logger progress_name indent_level mgr w fuel Hfuel)
    as (w1 & lines & Hrun' & _ & _ & Hs & Hl & Hp).
  rewrite Hrun in Hrun'. injection Hrun' as -> -> _.
  exists lines. split; [by apply written_app|]. done.
Qed.

(** X16 (a loop left early).  After [k] items have been taken from the
    generator and the loop is left, the generator is suspended at its
    [yield], with the remaining items ahead: the clock has been read once,
    only progress lines have been written, at most [k] of them, and
    [finish_progress] has not run, so that no line is ended and no time is
    reported. *)
Theorem progress_logger_left_early generator logger progress_name indent_level mgr w k :
  1 <= k <= length generator ->
  exists mgr' w' lr prev,
    LoggerManager.advance k
      (LoggerManager.progress_logger generator logger progress_name indent_level) (mgr, w)
    = ((mgr', w'),
       inr (take k generator,
            LoggerManager.mk_gen generator logger progress_name indent_level
              (LoggerManager.Suspended lr (drop k generator) k prev))) /\
    readings w w' = 1 /\
    length (written w w') <= k /\
    Forall is_progress_line (written w w').
Proof.
  intros Hk.
  destruct (advance_created generator logger progress_name indent_level mgr w k Hk)
    as (w' & prev & lines & Hrun & Ht & _ & Hs & Hl & Hp).
  eexists _, w', _, prev. split; [exact Hrun|].
  unfold readings. split; [lia|].
  rewrite (written_app _ _ _ Hs). unfold written_if.
  case_match; [done|]. split; [simpl; lia | constructor].
Qed.

(** X19 (a silenced main logger).  After [main_silence], the loop
    [main_tqdm] still yields every item, and neither it nor [main_info],
    [main_debug], [main_warning] or [main_critical] writes anything. *)
Theorem silenced_main_logger_is_silent generator desc indent_level mgr w fuel :
  length generator < fuel ->
  exists mgr0,
    LoggerManager.main_silence (mgr, w) = ((mgr0, w), inr tt) /\
    (exists mgr' w',
        LoggerManager.collect fuel
          (LoggerManager.main_tqdm generator desc indent_level None) (mgr0, w)
        = ((mgr', w'), inr (Some generator)) /\
        stdout w' = stdout w) /\
    forall message,
      LoggerManager.main_info message indent_level (mgr0, w) = ((mgr0, w), inr tt) /\
      LoggerManager.main_debug message indent_level (mgr0, w) = ((mgr0, w), inr tt) /\
      LoggerManager.main_warning message indent_level (mgr0, w) = ((mgr0, w), inr tt) /\
      LoggerManager.main_critical message indent_level (mgr0, w) = ((mgr0, w), inr tt).
Proof.
  intros Hfuel.
  set (mgr0 := LoggerManager.set_logger LoggerManager.MainLogger
                 (Logger.set_level (_logging.CRITICAL + 100)
                    (LoggerManager.main_logger mgr)) mgr).
  exists mgr0. split; [done|]. split.
  - destruct (collect_created generator (Some LoggerManager.MainLogger) desc indent_level
                mgr0 w fuel Hfuel)
      as (w' & lines & Hrun & _ & _ & Hs & _).
    eexists _, w'. split; [exact Hrun|].
    rewrite Hs. unfold written_if. simpl. by rewrite app_nil_r.
  - intros message.
    unfold LoggerManager.main_info, LoggerManager.main_debug, LoggerManager.main_warning,
      LoggerManager.main_critical, Logger.info, Logger.debug, Logger.warning,
      Logger.critical.
    repeat split; (erewrite on_run by apply log_run); by destruct mgr.
Qed.
End GeneratorProperties.

Section InsertHelpers.
Implicit Types (self : Logger.t) (mgr : LoggerManager.t) (w : World)
  (key indent_level : pyval).

Lemma info_insert_adata_run k attr il self w :
  Logger.info_insert_adata k attr il (self, w)
  = ((self, write_if self _logging.INFO (insert_line k attr il (Logger.terminator self)) w),
     inr tt).
Proof. unfold Logger.info_insert_adata. by rewrite log_run. Qed.

(** One of the helpers that pass the key on as it is. *)
Lemma main_info_insert_adata_named attr k il mgr w :
  LoggerManager.main_info_insert_adata [PStr k; PStr attr; PInt il] [] (mgr, w)
  = ((mgr,
      write_if (LoggerManager.main_logger mgr) _logging.INFO
        (insert_line k attr il (Logger.terminator (LoggerManager.main_logger mgr))) w),
     inr (Some tt)).
Proof.
  unfold LoggerManager.main_info_insert_adata, lm_bind, lm_lift. simpl.
  erewrite on_run.
  2:{ unfold Logger.call_info_insert_adata, lm_bind, lm_lift. simpl.
      rewrite info_insert_adata_run. reflexivity. }
  by destruct mgr.
Qed.

(** X20 (the helpers that pass [self] twice).  [info_insert_adata_var],
    [info_insert_adata_obsm] and [info_insert_adata_uns] of [Logger], and
    [main_info_insert_adata_var] of [LoggerManager], hand [self] on as a
    positional argument of a bound method: the key lands in [adata_attr],
    which is then given a second time by keyword, and the call raises
    [TypeError] for every key and indentation, having written nothing.
    The other helpers of [LoggerManager] pass the key alone, and the main
    logger writes the line of the insertion when it is enabled for [INFO],
    by its own level or, when that is [NOTSET], by the one it inherits. *)
Theorem insert_helpers_given_self_twice key indent_level :
  let refused := TypeError "got multiple values for argument 'adata_attr'" in
  (forall self w,
      Logger.info_insert_adata_var key indent_level (self, w) = ((self, w), inl refused) /\
      Logger.info_insert_adata_obsm key indent_level (self, w) = ((self, w), inl refused) /\
      Logger.info_insert_adata_uns key indent_level (self, w) = ((self, w), inl refused)) /\
  (forall mgr w,
      LoggerManager.main_info_insert_adata_var key indent_level (mgr, w)
        = ((mgr, w), inl refused)) /\
  (forall mgr w k il,
      let wrote attr :=
        ((mgr,
          write_if (LoggerManager.main_logger mgr) _logging.INFO
            (insert_line k attr il (Logger.terminator (LoggerManager.main_logger mgr))) w),
         @inr pyexn _ (Some tt)) in
      LoggerManager.main_info_insert_adata_uns (PStr k) (PInt il) (mgr, w) = wrote "uns" /\
      LoggerManager.main_info_insert_adata_obsm (PStr k) (PInt il) (mgr, w) = wrote "obsm" /\
      LoggerManager.main_info_insert_adata_obs (PStr k) (PInt il) (mgr, w) = wrote "obs" /\
      LoggerManager.main_info_insert_adata_layer (PStr k) (PInt il) (mgr, w)
        = wrote "layers").
Proof.
  intros refused. split; [|split].
  - intros self w. done.
  - intros mgr w.
    unfold LoggerManager.main_info_insert_adata_var, LoggerManager.main_info_insert_adata,
      lm_bind, lm_lift. simpl.
    erewrite on_run by reflexivity. by destruct mgr.
  - intros mgr w k il wrote. unfold wrote.
    unfold LoggerManager.main_info_insert_adata_uns,
      LoggerManager.main_info_insert_adata_obsm, LoggerManager.main_info_insert_adata_obs,
      LoggerManager.main_info_insert_adata_layer.
    by rewrite !main_info_insert_adata_named.
Qed.
End InsertHelpers.

(** * The vector-field models *)

Section FieldIndex.
Context {A : Type}.
Implicit Types (a : list A) (i : Z).

Lemma index_inl a i (e : Field.exn) : Field.index a i = inl e -> e = Field.IndexError.
Proof.
  unfold Field.index. repeat case_match; congruence.
Qed.

Lemma index_range a i :
  (exists x, Field.index a i = inr x) <->
  (- Z.of_nat (length a) <= i < Z.of_nat (length a))%Z.
Proof.
  unfold Field.index.
  set (j := if (i <? 0)%Z then (i + Z.of_nat (length a))%Z else i).
  assert (Hj : ((- Z.of_nat (length a) <= i < Z.of_nat (length a))
                <-> (0 <= j < Z.of_nat (length a)))%Z).
  { subst j. destruct (Z.ltb_spec i 0); lia. }
  rewrite Hj. clear Hj.
  destruct (Z.ltb_spec j 0) as [Hneg|Hpos].
  - split; [by intros [x Hx] | lia].
  - destruct (a !! Z.to_nat j) as [y|] eqn:Hy.
    + apply lookup_lt_Some in Hy. split; [lia | eauto].
    + apply lookup_ge_None in Hy. split; [by intros [x Hx] | lia].
Qed.

Lemma index_of_nat a (k : nat) x :
  Field.index a (Z.of_nat k) = inr x <-> a !! k = Some x.
Proof.
  unfold Field.index.
  destruct (Z.ltb_spec (Z.of_nat k) 0) as [Hneg|_]; [lia|].
  destruct (Z.ltb_spec (Z.of_nat k) 0) as [Hneg|_]; [lia|]. rewrite Nat2Z.id.
  destruct (a !! k); split; congruence.
Qed.

Lemma index_map {B} (f : A -> B) a i :
  Field.index (map f a) i
  = match Field.index a i with inl e => inl e | inr x => inr (f x) end.
Proof.
  unfold Field.index. rewrite length_map.
  case_match; [done|]. rewrite list_lookup_fmap. by destruct (a !! _).
Qed.
End FieldIndex.

Section FieldLoop.
Context {G : Field.Geometry}.
Implicit Types (start_points direction : list Field.vec)
  (labels : list Field.label_value) (st : Field.loop_state) (index_arr : list Z)
  (rows : list (Field.vec * Field.vec * Field.label_value)).

Lemma drawn_Some start_points direction labels ind p v l :
  Field.drawn start_points direction labels ind = Some (p, v, l) <->
  Field.index start_points ind = inr p /\ Field.index direction ind = inr v /\
  Field.index labels ind = inr l.
Proof.
  unfold Field.drawn.
  destruct (Field.index start_points ind), (Field.index direction ind),
    (Field.index labels ind); split; try (intros [= -> -> ->]; done);
    try (intros ([=] & [=] & [=]); congruence); try done.
Qed.

Lemma drawn_is_Some start_points direction labels ind :
  length direction = length start_points ->
  length labels = length start_points ->
  is_Some (Field.drawn start_points direction labels ind) <->
  (- Z.of_nat (length start_points) <= ind < Z.of_nat (length start_points))%Z.
Proof.
  intros Hd Hl. rewrite <- index_range. split.
  - intros [[[p v] l] Hr]. apply drawn_Some in Hr as (Hp & _). eauto.
  - intros [p Hp].
    destruct (proj2 (index_range direction ind)) as [v Hv].
    { rewrite Hd. apply index_range. eauto. }
    destruct (proj2 (index_range labels ind)) as [l Hl'].
    { rewrite Hl. apply index_range. eauto. }
    exists (p, v, l). by apply drawn_Some.
Qed.

(** One turn of the loop draws one row. *)
Lemma loop_body_drawn start_points direction labels st ind :
  Field.loop_body start_points direction labels st ind
  = match Field.drawn start_points direction labels ind with
    | Some r => inr (Field.extend st [r])
    | None => inl Field.IndexError
    end.
Proof.
  unfold Field.loop_body, Field.drawn.
  destruct (Field.index start_points ind) as [e|p] eqn:Hp.
  { by apply index_inl in Hp as ->. }
  destruct (Field.index direction ind) as [e|v] eqn:Hv.
  { by apply index_inl in Hv as ->. }
  destruct (Field.index labels ind) as [e|l] eqn:Hl.
  { by apply index_inl in Hl as ->. }
  unfold Field.from_end, Field.index, Field.extend, Field.segment, Field.tip. simpl.
  by rewrite Nat.add_0_r.
Qed.

Lemma extend_app st rows rows' :
  Field.extend (Field.extend st rows) rows' = Field.extend st (rows ++ rows').
Proof.
  unfold Field.extend. simpl.
  rewrite !map_app, imap_app, concat_app, length_app, <- !app_assoc.
  f_equal; [lia|]. do 2 f_equal. apply imap_ext. intros k r _. do 2 f_equal; lia.
Qed.

(** The loop draws the rows of its indices in order, and stops with
    [IndexError] at the first index that selects no row. *)
Lemma loop_drawn start_points direction labels index_arr st :
  Field.loop start_points direction labels index_arr st
  = match mapM (Field.drawn start_points direction labels) index_arr with
    | Some rows => inr (Field.extend st rows)
    | None => inl Field.IndexError
    end.
Proof.
  revert st. induction index_arr as [|ind index_arr IH]; intros st.
  - simpl. f_equal. unfold Field.extend. destruct st. simpl.
    by rewrite !app_nil_r, Nat.add_0_r.
  - simpl. rewrite loop_body_drawn.
    destruct (Field.drawn start_points direction labels ind) as [r|]; [|done].
    simpl. rewrite IH.
    destruct (mapM (Field.drawn start_points direction labels) index_arr) as [rows|];
      [|done].
    simpl. by rewrite extend_app.
Qed.

Lemma concat_pairs_length {X Y} (f g : X -> Y) (l : list X) :
  length (concat (map (fun r => [f r; g r]) l)) = 2 * length l.
Proof. induction l as [|x l IH]; simpl; [done|]. rewrite IH. lia. Qed.

Lemma concat_pairs_lookup {X Y} (f g : X -> Y) (l : list X) k x :
  l !! k = Some x ->
  concat (map (fun r => [f r; g r]) l) !! (2 * k) = Some (f x) /\
  concat (map (fun r => [f r; g r]) l) !! (2 * k + 1) = Some (g x).
Proof.
  revert k. induction l as [|y l IH]; intros k Hk; [done|].
  destruct k as [|k]; simpl in Hk.
  - injection Hk as ->. done.
  - replace (2 * S k) with (S (S (2 * k))) by lia.
    replace (S (S (2 * k)) + 1) with (S (S (2 * k + 1))) by lia.
    simpl. by apply IH.
Qed.

Lemma concat_imap_singletons {X Y} (f : nat -> X -> Y) (l : list X) :
  concat (imap (fun k x => [f k x]) l) = imap f l.
Proof.
  revert f. induction l as [|x l IH]; intros f; simpl; [done|].
  f_equal. apply (IH (f ∘ S)).
Qed.

Lemma mapM_drawn_length start_points direction labels index_arr rows :
  mapM (Field.drawn start_points direction labels) index_arr = Some rows ->
  length rows = length index_arr.
Proof. intros H. apply mapM_Some in H. symmetry. by eapply Forall2_length. Qed.

Lemma point_labels_length label n labels :
  Field.point_labels label n = inr labels -> length labels = n.
Proof.
  destruct label as [v| |l|]; simpl.
  - intros [= <-]. by rewrite length_replicate.
  - intros [= <-]. by rewrite length_replicate.
  - destruct (Nat.eqb_spec (length l) n); [|done]. by intros [= <-].
  - done.
Qed.

Lemma point_labels_inl label n e :
  Field.point_labels label n = inl e -> e = Field.ValueError "`label` value is wrong.".
Proof.
  destruct label as [v| |l|]; simpl.
  - done.
  - done.
  - destruct (Nat.eqb (length l) n); [done|]. by intros [= <-].
  - by intros [= <-].
Qed.
End FieldLoop.

Section FieldPlain.
Context {G : Field.Geometry} {B : Field.Backend}.
Implicit Types (model : Field.PolyData) (label : Field.label_arg)
  (n_sampling : Field.sampling_arg) (index_arr : list Z)
  (rows : list (Field.vec * Field.vec * Field.label_value)).

(** [plain_geometry] once its arguments are accepted: the outcome is that
    of reading the rows of the indices. *)
Lemma plain_geometry_rows model vf_key n_sampling sampling_method factor key_added label
    color alpha tip_factor tip_radius kwargs field labels warnings index_arr :
  Field.arrays model !! vf_key = Some field ->
  Field.point_labels label (Field.n_points model) = inr labels ->
  Field.drawn_indices n_sampling sampling_method (Field.points model)
    = (warnings, inr index_arr) ->
  exists R,
    Field.plain_geometry model vf_key n_sampling sampling_method factor key_added label
      color alpha tip_factor tip_radius kwargs = (warnings, R) /\
    match mapM (Field.drawn (Field.points model)
                  (map (fun v => Field.vscale v factor) field) labels) index_arr with
    | None => R = inl Field.IndexError
    | Some [] => R = inl Field.nothing_to_concatenate
    | Some rows => exists g, R = inr g /\ Field.drew g rows
    end.
Proof.
  intros Hf Hl Hi. unfold Field.plain_geometry, Field.get_array.
  rewrite Hf. unfold Field.n_points in Hl. rewrite Hl, Hi, loop_drawn.
  eexists. split; [reflexivity|].
  destruct (mapM _ index_arr) as [[|r rows]|]; [done| |done].
  eexists. split; [reflexivity|]. unfold Field.drew. simpl.
  rewrite (concat_imap_singletons (fun k _ => (2 * (S k), 2 * S k + 1))).
  repeat split; try done.
  by rewrite length_map.
Qed.

(** Conversely, a geometry comes from accepted arguments and from rows
    read for a non-empty list of indices. *)
Lemma plain_geometry_inv model vf_key n_sampling sampling_method factor key_added label
    color alpha tip_factor tip_radius kwargs warnings g :
  Field.plain_geometry model vf_key n_sampling sampling_method factor key_added label
    color alpha tip_factor tip_radius kwargs = (warnings, inr g) ->
  exists field labels index_arr rows,
    Field.arrays model !! vf_key = Some field /\
    Field.point_labels label (Field.n_points model) = inr labels /\
    Field.drawn_indices n_sampling sampling_method (Field.points model)
      = (warnings, inr index_arr) /\
    mapM (Field.drawn (Field.points model)
            (map (fun v => Field.vscale v factor) field) labels) index_arr = Some rows /\
    rows <> [] /\ Field.drew g rows.
Proof.
  intros Hrun.
  destruct (Field.arrays model !! vf_key) as [field|] eqn:Hf;
    [|by unfold Field.plain_geometry, Field.get_array in Hrun; rewrite Hf in Hrun].
  destruct (Field.point_labels label (Field.n_points model)) as [e|labels] eqn:Hl.
  { unfold Field.plain_geometry, Field.get_array in Hrun. rewrite Hf in Hrun.
    unfold Field.n_points in Hl. by rewrite Hl in Hrun. }
  destruct (Field.drawn_indices n_sampling sampling_method (Field.points model))
    as [ws [e|index_arr]] eqn:Hi.
  { unfold Field.plain_geometry, Field.get_array in Hrun. rewrite Hf in Hrun.
    unfold Field.n_points in Hl. by rewrite Hl, Hi in Hrun. }
  assert (ws = warnings) as ->.
  { unfold Field.plain_geometry, Field.get_array in Hrun. rewrite Hf in Hrun.
    unfold Field.n_points in Hl. rewrite Hl, Hi in Hrun. congruence. }
  destruct (plain_geometry_rows model vf_key n_sampling sampling_method factor key_added
              label color alpha tip_factor tip_radius kwargs field labels warnings
              index_arr Hf Hl Hi) as (R & HR & Hrows).
  rewrite Hrun in HR. injection HR as <-.
  exists field, labels, index_arr.
  destruct (mapM _ index_arr) as [[|r rows]|]; [done| |done].
  destruct Hrows as (g' & [= <-] & Hg). exists (r :: rows). done.
Qed.

Lemma drew_segments (g : Field.geometry) rows :
  Field.drew g rows ->
  Field.segments g (length rows) /\
  forall k p v l,
    rows !! k = Some (p, v, l) -> Field.segment_at g k p (Field.vadd p v) l.
Proof.
  intros (Hp & He & Hl & Hs & Hd & Hsc & Hlab). split.
  - unfold Field.segments. rewrite Hp, He, Hl, Hs, Hd, Hsc, Hlab.
    unfold Field.segment.
    rewrite !concat_pairs_length, length_imap, !length_map.
    repeat split; try done. eexists. split; [done|]. by rewrite length_map.
  - intros k p v l Hk. unfold Field.segment_at.
    rewrite Hp, He, Hl, Hs, Hd, Hlab. unfold Field.segment.
    destruct (concat_pairs_lookup (fun r => r.1.1) (fun r => Field.vadd r.1.1 r.1.2)
                rows k _ Hk) as [-> ->].
    destruct (concat_pairs_lookup (fun r : Field.vec * Field.vec * Field.label_value => r.2)
                (fun r => r.2) rows k _ Hk) as [-> ->].
    rewrite list_lookup_imap, !list_lookup_fmap, Hk. simpl.
    repeat split; try done. eexists. split; [done|].
    by rewrite list_lookup_fmap, Hk.
Qed.

Lemma construct_field_plain_inv model vf_key n_sampling sampling_method factor key_added
    label color alpha tip_factor tip_radius kwargs warnings res :
  Field.construct_field_plain model vf_key n_sampling sampling_method factor key_added
    label color alpha tip_factor tip_radius kwargs = (warnings, res) ->
  exists R,
    Field.plain_geometry model vf_key n_sampling sampling_method factor key_added label
      color alpha tip_factor tip_radius kwargs = (warnings, R) /\
    res = match R with
          | inl e => inl e
          | inr g =>
              match Field.construct_lines (Field.g_lines g) with
              | inl e => inl e
              | inr (streamlines, _) =>
                  match Field.construct_arrows (Field.g_arrows g) with
                  | inl e => inl e
                  | inr (arrows, plot_cmap) =>
                      match Field.merge_models [streamlines; arrows] with
                      | inl e => inl e
                      | inr lines_model => inr (lines_model, plot_cmap)
                      end
                  end
              end
          end.
Proof.
  unfold Field.construct_field_plain.
  destruct (Field.plain_geometry _ _ _ _ _ _ _ _ _ _ _ _) as [ws R].
  intros [= <- <-]. eauto.
Qed.

(** X21 (what the plain field draws).  When [construct_field_plain]
    returns, the model had an array under [vf_key], the labels were
    accepted and at least one index was drawn; the mesh returned is
    [merge_models] of the lines and the arrows, and the colormap is that of
    [construct_arrows], not that of [construct_lines].  The builders were
    given one segment per index, in the order of the indices: the segment
    of the index [ind] goes from the point [ind] to that point plus
    [factor] times the vector [ind], carries the label [ind] on both ends,
    and its arrow sits at the far end and points along the segment. *)
Theorem construct_field_plain_segments model vf_key n_sampling sampling_method factor
    key_added label color alpha tip_factor tip_radius kwargs warnings mesh cmap :
  Field.construct_field_plain model vf_key n_sampling sampling_method factor key_added
    label color alpha tip_factor tip_radius kwargs = (warnings, inr (mesh, cmap)) ->
  exists field labels index_arr g streamlines lines_cmap arrows,
    Field.arrays model !! vf_key = Some field /\
    Field.point_labels label (Field.n_points model) = inr labels /\
    Field.drawn_indices n_sampling sampling_method (Field.points model)
      = (warnings, inr index_arr) /\
    Field.plain_geometry model vf_key n_sampling sampling_method factor key_added label
      color alpha tip_factor tip_radius kwargs = (warnings, inr g) /\
    Field.construct_lines (Field.g_lines g) = inr (streamlines, lines_cmap) /\
    Field.construct_arrows (Field.g_arrows g) = inr (arrows, cmap) /\
    Field.merge_models [streamlines; arrows] = inr mesh /\
    index_arr <> [] /\
    Field.segments g (length index_arr) /\
    forall k ind,
      index_arr !! k = Some ind ->
      exists p v l,
        Field.index (Field.points model) ind = inr p /\
        Field.index field ind = inr v /\
        Field.index labels ind = inr l /\
        Field.segment_at g k p (Field.vadd p (Field.vscale v factor)) l.
Proof.
  intros Hrun. apply construct_field_plain_inv in Hrun as (R & Hgeo & Hres).
  destruct R as [e|g]; [done|].
  destruct (Field.construct_lines (Field.g_lines g)) as [e|[streamlines lines_cmap]] eqn:Hl;
    [done|].
  destruct (Field.construct_arrows (Field.g_arrows g)) as [e|[arrows cm]] eqn:Ha; [done|].
  destruct (Field.merge_models [streamlines; arrows]) as [e|lines_model] eqn:Hm; [done|].
  injection Hres as <- <-.
  destruct (plain_geometry_inv _ _ _ _ _ _ _ _ _ _ _ _ _ _ Hgeo)
    as (field & labels & index_arr & rows & Hf & Hlab & Hi & Hrows & Hne & Hdrew).
  exists field, labels, index_arr, g, streamlines, lines_cmap, arrows.
  pose proof (mapM_drawn_length _ _ _ _ _ Hrows) as Hlen.
  destruct (drew_segments g rows Hdrew) as [Hseg Hat].
  split_and!; try done.
  - intros ->. destruct rows; [done|discriminate Hlen].
  - by rewrite <- Hlen.
  - intros k ind Hk. apply mapM_Some in Hrows.
    destruct (Forall2_lookup_l _ _ _ _ _ Hrows Hk) as ([[p v'] l] & Hr & Hd).
    apply drawn_Some in Hd as (Hp & Hv & Hl').
    rewrite index_map in Hv.
    destruct (Field.index field ind) as [e|v] eqn:Hfv; [done|]. injection Hv as <-.
    exists p, v, l. split_and!; try done. by apply Hat.
Qed.

(** The rows of the indices [0 .. n-1] are the rows of the arrays. *)
Lemma mapM_drawn_all (start_points direction : list Field.vec)
    (labels : list Field.label_value) :
  length direction = length start_points ->
  length labels = length start_points ->
  mapM (Field.drawn start_points direction labels)
    (map Z.of_nat (seq 0 (length start_points)))
  = Some (zip (zip start_points direction) labels).
Proof.
  intros Hd Hl. apply mapM_Some, Forall2_same_length_lookup_2.
  - rewrite length_map, length_seq, !length_zip_with. lia.
  - intros i ind [[p v] l] Hi Hr.
    rewrite list_lookup_fmap in Hi.
    destruct (seq 0 (length start_points) !! i) as [j|] eqn:Hj; [|done].
    apply lookup_seq in Hj as [-> _]. injection Hi as <-.
    apply lookup_zip_with_Some in Hr as ([p1 v1] & l1 & [= -> -> ->] & Hpv & Hl').
    apply lookup_zip_with_Some in Hpv as (p2 & v2 & [= -> ->] & Hp & Hv).
    apply drawn_Some. by rewrite !index_of_nat.
Qed.

(** X22 (the whole field by default).  With an array of one vector per
    point under [vf_key], an accepted label, and [n_sampling] left at
    [None] (or given as something that is neither an [int] nor an array),
    [construct_field_plain] warns exactly when the model has more than 500
    points and then fails on a model without points, with the [ValueError]
    of [np.concatenate]; on any other model it reaches the builders with
    one segment per point, the [k]-th from the [k]-th point along [factor]
    times the [k]-th vector, under the [k]-th label. *)
Theorem construct_field_plain_whole_field model vf_key n_sampling sampling_method factor
    key_added label color alpha tip_factor tip_radius kwargs field labels :
  Field.arrays model !! vf_key = Some field ->
  length field = Field.n_points model ->
  Field.point_labels label (Field.n_points model) = inr labels ->
  n_sampling = Field.SamplingNone \/ n_sampling = Field.SamplingOther ->
  exists R,
    Field.plain_geometry model vf_key n_sampling sampling_method factor key_added label
      color alpha tip_factor tip_radius kwargs
      = (if 500 <? Field.n_points model then [Field.dense_warning] else [], R) /\
    (Field.n_points model = 0 -> R = inl Field.nothing_to_concatenate) /\
    (0 < Field.n_points model ->
     exists g,
       R = inr g /\
       Field.segments g (Field.n_points model) /\
       forall k p v l,
         Field.points model !! k = Some p ->
         field !! k = Some v ->
         labels !! k = Some l ->
         Field.segment_at g k p (Field.vadd p (Field.vscale v factor)) l).
Proof.
  intros Hf Hlen Hlab Hns.
  pose proof (point_labels_length _ _ _ Hlab) as Hll.
  assert (Hi : Field.drawn_indices n_sampling sampling_method (Field.points model)
               = (if 500 <? Field.n_points model then [Field.dense_warning] else [],
                  inr (map Z.of_nat (seq 0 (Field.n_points model))))).
  { unfold Field.drawn_indices, Field.n_points.
    rewrite length_map, length_seq. by destruct Hns as [-> | ->]. }
  destruct (plain_geometry_rows model vf_key n_sampling sampling_method factor key_added
              label color alpha tip_factor tip_radius kwargs field labels _ _ Hf Hlab Hi)
    as (R & HR & Hrows).
  exists R. split; [exact HR|].
  unfold Field.n_points in *.
  rewrite mapM_drawn_all in Hrows by (by rewrite ?length_map).
  split.
  - intros H0. destruct (Field.points model); [|done].
    destruct field; [|done]. by destruct labels.
  - intros Hpos.
    destruct (zip (zip (Field.points model) (map (fun v => Field.vscale v factor) field))
                labels) as [|r rows] eqn:Hz.
    { apply (f_equal length) in Hz. rewrite !length_zip_with, length_map in Hz.
      simpl in Hz. lia. }
    destruct Hrows as (g & -> & Hdrew). exists g. split; [done|].
    destruct (drew_segments g _ Hdrew) as [Hseg Hat]. rewrite <- Hz in Hseg, Hat.
    split.
    + rewrite !length_zip_with, length_map in Hseg.
      by replace ((length (Field.points model) `min` length field) `min` length labels)
        with (length (Field.points model)) in Hseg by lia.
    + intros k p v l Hp Hv Hl. apply Hat.
      apply lookup_zip_with_Some. exists (p, Field.vscale v factor), l.
      split; [done|]. split; [|done].
      apply lookup_zip_with_Some. exists p, (Field.vscale v factor).
      split; [done|]. split; [done|]. by rewrite list_lookup_fmap, Hv.
Qed.

(** X23 (indices out of range, and none).  Once the array under [vf_key]
    has one vector per point and the labels are accepted, the list of
    indices decides the outcome: [IndexError] exactly when one of them lies
    outside [-n, n) for the [n] points of the model (a negative index
    counts from the end), the [ValueError] of [np.concatenate] exactly
    when there is none, and the builders are reached exactly when there is
    at least one and all are in range. *)
Theorem plain_geometry_index_outcome model vf_key n_sampling sampling_method factor
    key_added label color alpha tip_factor tip_radius kwargs field labels warnings
    index_arr :
  Field.arrays model !! vf_key = Some field ->
  length field = Field.n_points model ->
  Field.point_labels label (Field.n_points model) = inr labels ->
  Field.drawn_indices n_sampling sampling_method (Field.points model)
    = (warnings, inr index_arr) ->
  let in_range (ind : Z) :=
    (- Z.of_nat (Field.n_points model) <= ind < Z.of_nat (Field.n_points model))%Z in
  exists R,
    Field.plain_geometry model vf_key n_sampling sampling_method factor key_added label
      color alpha tip_factor tip_radius kwargs = (warnings, R) /\
    (R = inl Field.IndexError <-> Exists (fun ind => ~ in_range ind) index_arr) /\
    (R = inl Field.nothing_to_concatenate <-> index_arr = []) /\
    ((exists g, R = inr g) <-> index_arr <> [] /\ Forall in_range index_arr).
Proof.
  intros Hf Hlen Hlab Hi in_range.
  pose proof (point_labels_length _ _ _ Hlab) as Hll.
  destruct (plain_geometry_rows model vf_key n_sampling sampling_method factor key_added
              label color alpha tip_factor tip_radius kwargs field labels _ _ Hf Hlab Hi)
    as (R & HR & Hrows).
  exists R. split; [exact HR|].
  set (f := Field.drawn (Field.points model)
              (map (fun v => Field.vscale v factor) field) labels) in *.
  assert (Hsome : forall ind, is_Some (f ind) <-> in_range ind).
  { intros ind. apply drawn_is_Some; [by rewrite length_map | done]. }
  assert (Hall : is_Some (mapM f index_arr) <-> Forall in_range index_arr).
  { rewrite mapM_is_Some. apply Forall_iff. intros ind. apply Hsome. }
  destruct (mapM f index_arr) as [rows|] eqn:Hm.
  - pose proof (mapM_drawn_length _ _ _ _ _ Hm) as Hl.
    assert (Hfa : Forall in_range index_arr) by (apply Hall; eauto).
    assert (Hnex : ~ Exists (fun ind => ~ in_range ind) index_arr).
    { intros Hex. apply Exists_exists in Hex as (ind & Hin & Hout).
      rewrite Forall_forall in Hfa. by apply Hout, Hfa. }
    destruct rows as [|r rows].
    + destruct index_arr; [|discriminate Hl]. subst R.
      split; [split; [done | by intros Hex; apply Exists_nil in Hex]|].
      split; [done|].
      split; [intros (g & Hg); discriminate Hg | by intros [Hne _]].
    + destruct Hrows as (g & -> & _).
      assert (index_arr <> []) by (intros ->; discriminate Hl).
      split; [split; [done | by intros Hex]|].
      split; [split; [done | by intros ->]|].
      split; [done | eauto].
  - subst R.
    assert (Hnfa : ~ Forall in_range index_arr).
    { intros Hfa. apply Hall in Hfa. by apply is_Some_None in Hfa. }
    assert (Hex : Exists (fun ind => ~ in_range ind) index_arr).
    { apply not_Forall_Exists in Hnfa; [done|].
      intros ind. unfold in_range. unfold Decision.
      destruct (decide (- Z.of_nat (Field.n_points model) <= ind
                        < Z.of_nat (Field.n_points model))%Z); eauto. }
    split; [done|].
    split; [split; [done | by intros ->; apply Exists_nil in Hex]|].
    split; [intros (g & Hg); discriminate Hg | by intros [_ Hfa]].
Qed.

(** X24 (what the field builders raise).  [construct_field] raises only
    [KeyError(vf_key)] on a model without that array, [KeyError] for the
    scale key when that is the missing one, or what [construct_arrows]
    raises.  [construct_field_plain] raises, in this order of precedence
    and without any warning for the first two: [KeyError(vf_key)]; the
    [ValueError] for a label that is neither a value, [None] nor a
    sequence with one entry per point; what the sampler raises, which is
    only called for an [int]; [IndexError] for an index that selects no
    point or no vector; the [ValueError] of [np.concatenate] for an empty
    list of indices; and what [construct_lines], then [construct_arrows],
    then [merge_models] raise on the segments. *)
Theorem field_raised_exceptions model vf_key arrows_scale_key n_sampling sampling_method
    factor key_added label color alpha tip_factor tip_radius kwargs :
  (forall e,
      Field.construct_field model vf_key arrows_scale_key n_sampling sampling_method
        factor key_added label color alpha kwargs = inl e ->
      (Field.arrays model !! vf_key = None /\ e = Field.KeyError vf_key) \/
      (exists key, arrows_scale_key = Some key /\ is_Some (Field.arrays model !! vf_key) /\
                   Field.arrays model !! key = None /\ e = Field.KeyError key) \/
      (exists args, Field.construct_arrows args = inl e)) /\
  (forall warnings e,
      Field.construct_field_plain model vf_key n_sampling sampling_method factor
        key_added label color alpha tip_factor tip_radius kwargs = (warnings, inl e) ->
      (Field.arrays model !! vf_key = None /\ e = Field.KeyError vf_key /\
       warnings = []) \/
      (is_Some (Field.arrays model !! vf_key) /\
       Field.point_labels label (Field.n_points model) = inl e /\
       e = Field.ValueError "`label` value is wrong." /\ warnings = []) \/
      (exists n arr,
          n_sampling = Field.SamplingInt n /\
          Field.sample arr n sampling_method (Field.points model) = inl e) \/
      (exists field index_arr ind,
          Field.arrays model !! vf_key = Some field /\
          Field.drawn_indices n_sampling sampling_method (Field.points model)
            = (warnings, inr index_arr) /\
          ind ∈ index_arr /\ e = Field.IndexError /\
          (Field.index (Field.points model) ind = inl Field.IndexError \/
           Field.index field ind = inl Field.IndexError)) \/
      (Field.drawn_indices n_sampling sampling_method (Field.points model)
         = (warnings, inr []) /\ e = Field.nothing_to_concatenate) \/
      (exists g,
          Field.plain_geometry model vf_key n_sampling sampling_method factor key_added
            label color alpha tip_factor tip_radius kwargs = (warnings, inr g) /\
          (Field.construct_lines (Field.g_lines g) = inl e \/
           ((exists lines, Field.construct_lines (Field.g_lines g) = inr lines) /\
            Field.construct_arrows (Field.g_arrows g) = inl e) \/
           (exists streamlines lines_cmap arrows cmap,
               Field.construct_lines (Field.g_lines g) = inr (streamlines, lines_cmap) /\
               Field.construct_arrows (Field.g_arrows g) = inr (arrows, cmap) /\
               Field.merge_models [streamlines; arrows] = inl e)))).
Proof.
  split.
  - intros e. unfold Field.construct_field, Field.get_array.
    destruct (Field.arrays model !! vf_key) as [direction|] eqn:Hf;
      [|intros [= <-]; by left].
    destruct arrows_scale_key as [key|].
    + destruct (Field.arrays model !! key) eqn:Hk.
      * intros He. right. right. eauto.
      * intros [= <-]. right. left. exists key. eauto.
    + intros He. right. right. eauto.
  - intros warnings e Hrun.
    apply construct_field_plain_inv in Hrun as (R & Hgeo & Hres).
    destruct R as [e'|g].
    + injection Hres as <-.
      destruct (Field.arrays model !! vf_key) as [field|] eqn:Hf.
      2:{ left. unfold Field.plain_geometry, Field.get_array in Hgeo.
          rewrite Hf in Hgeo. by injection Hgeo as <- <-. }
      right.
      destruct (Field.point_labels label (Field.n_points model)) as [e''|labels] eqn:Hl.
      { left. unfold Field.plain_geometry, Field.get_array in Hgeo.
        rewrite Hf in Hgeo. unfold Field.n_points in Hl. rewrite Hl in Hgeo.
        injection Hgeo as <- <-.
        pose proof (point_labels_inl _ _ _ Hl) as ->. eauto. }
      right.
      destruct (Field.drawn_indices n_sampling sampling_method (Field.points model))
        as [ws [e''|index_arr]] eqn:Hi.
      { left. unfold Field.plain_geometry, Field.get_array in Hgeo.
        rewrite Hf in Hgeo. unfold Field.n_points in Hl. rewrite Hl, Hi in Hgeo.
        injection Hgeo as <- <-.
        unfold Field.drawn_indices in Hi.
        destruct n_sampling as [|n|indices|]; try done.
        injection Hi as <- Hs. eauto. }
      right.
      assert (ws = warnings) as ->.
      { unfold Field.plain_geometry, Field.get_array in Hgeo. rewrite Hf in Hgeo.
        unfold Field.n_points in Hl. rewrite Hl, Hi in Hgeo. congruence. }
      destruct (plain_geometry_rows model vf_key n_sampling sampling_method factor
                  key_added label color alpha tip_factor tip_radius kwargs field labels
                  warnings index_arr Hf Hl Hi) as (R & HR & Hrows).
      rewrite Hgeo in HR. injection HR as <-.
      destruct (mapM _ index_arr) as [[|r rows]|] eqn:Hm.
      * right. left. apply mapM_drawn_length in Hm.
        destruct index_arr; [|discriminate Hm]. by injection Hrows as ->.
      * by destruct Hrows as (g & Hg & _).
      * left. injection Hrows as ->.
        apply eq_None_not_Some in Hm. rewrite mapM_is_Some in Hm.
        apply not_Forall_Exists in Hm.
        2:{ intros ind. unfold Decision, compose.
            destruct (Field.drawn _ _ labels ind); [left; eauto | right; by intros [? ?]]. }
        apply Exists_exists in Hm as (ind & Hin & Hnone).
        exists field, index_arr, ind.
        split_and!; try done.
        unfold compose in Hnone.
        destruct (Field.index (Field.points model) ind) as [e|p] eqn:Hp.
        { left. by rewrite (index_inl _ _ _ Hp). }
        right.
        destruct (Field.index field ind) as [e|v] eqn:Hv.
        { by rewrite (index_inl _ _ _ Hv). }
        exfalso. apply Hnone.
        destruct (proj2 (index_range labels ind)) as [l Hl'].
        { rewrite (point_labels_length _ _ _ Hl). apply index_range. eauto. }
        exists (p, Field.vscale v factor, l). apply drawn_Some.
        by rewrite index_map, Hv.
    + do 5 right. exists g. split; [done|].
      destruct (Field.construct_lines (Field.g_lines g)) as [e'|[streamlines lines_cmap]];
        [left; congruence|].
      right.
      destruct (Field.construct_arrows (Field.g_arrows g)) as [e'|[arrows cm]];
        [left; split; [eauto | congruence]|].
      right. exists streamlines, lines_cmap, arrows, cm.
      destruct (Field.merge_models [streamlines; arrows]); [|done].
      split; [done|]. split; [done|]. congruence.
Qed.
End FieldPlain.

(** * The further properties on the small instances *)

Lemma toy_one_resolves : @resolves toy_data toy_state [1] [toy_sample 1 200].
Proof. by repeat constructor. Qed.

Lemma toy_one_spatial :
  Forall (fun a => is_Some (@obsm toy_data a !! "spatial")) [toy_sample 1 200].
Proof. repeat constructor; eexists; reflexivity. Qed.

Lemma fewer_than_two_samples_witness :
  exists st' out,
    @morpho_align toy_data toy_backend [1] (default_params "SN-S") toy_state
      = (st', inr (out, [])) /\
    length out = 1 /\
    @new_events toy_data toy_state st' = [].
Proof.
  exact (proj1 (@fewer_than_two_samples toy_data toy_backend (default_params "SN-S")
                  [1] [toy_sample 1 200] toy_state toy_one_resolves (le_n 1)
                  toy_one_spatial)).
Defined.

Lemma bare_resolves :
  @resolves toy_data bare_state [0; 1] [toy_sample 2 100; bare_sample].
Proof. by repeat constructor. Qed.

Lemma bare_missing :
  Exists (fun a => @obsm toy_data a !! "spatial" = None) [toy_sample 2 100; bare_sample].
Proof. apply Exists_cons_tl, Exists_cons_hd. reflexivity. Qed.

Lemma missing_raw_coordinates_witness :
  exists st',
    @morpho_align toy_data toy_backend [0; 1] (default_params "SN-S") bare_state
      = (st', inl (KeyError "spatial")) /\
    @new_events toy_data bare_state st' = [].
Proof.
  exact (proj1 (@missing_raw_coordinates toy_data toy_backend (default_params "SN-S")
                  [0; 1] [toy_sample 2 100; bare_sample] bare_state bare_resolves
                  bare_missing)).
Defined.

Lemma other_slots_preserved_witness :
  exists st' out pis,
    @morpho_align toy_data toy_backend toy_models (default_params "SN-S") toy_state
      = (st', inr (out, pis)) /\
    forall l, out !! 1 = Some l ->
      exists b, @heap toy_data st' !! l = Some b /\
        @same_outside_coords toy_data (default_params "SN-S") (toy_sample 1 200) b.
Proof.
  assert (returned (@morpho_align toy_data toy_backend toy_models
                      (default_params "SN-S") toy_state).2 = true) as Hret
    by (vm_compute; reflexivity).
  destruct (@morpho_align toy_data toy_backend toy_models (default_params "SN-S") toy_state)
    as [st' [e|[out pis]]] eqn:Hrun; [discriminate Hret|].
  exists st', out, pis. split; [reflexivity|]. intros l Hl.
  exact (proj1 (@other_slots_preserved toy_data toy_backend (default_params "SN-S")
                  toy_models toy_heap toy_state toy_resolves)
           st' out pis Hrun 1 l (toy_sample 1 200) Hl eq_refl).
Defined.

Lemma reference_on_same_samples_witness :
  exists st1 out1 pis1 st2 out2 out_ref2 pis2 pis_ref2,
    @morpho_align toy_data toy_backend toy_models (default_params "SN-S") toy_state
      = (st1, inr (out1, pis1)) /\
    @morpho_align_ref toy_data toy_backend toy_models (Some toy_models) None "trn"
      (default_params "SN-S") toy_state = (st2, inr (out2, out_ref2, pis2, pis_ref2)) /\
    pis1 = map (@transpose toy_data) pis_ref2.
Proof.
  assert (returned (@morpho_align toy_data toy_backend toy_models
                      (default_params "SN-S") toy_state).2 = true) as Hret1
    by (vm_compute; reflexivity).
  assert (returned (@morpho_align_ref toy_data toy_backend toy_models (Some toy_models)
                      None "trn" (default_params "SN-S") toy_state).2 = true) as Hret2
    by (vm_compute; reflexivity).
  destruct (@morpho_align toy_data toy_backend toy_models (default_params "SN-S") toy_state)
    as [st1 [e|[out1 pis1]]] eqn:Hrun1; [discriminate Hret1|].
  destruct (@morpho_align_ref toy_data toy_backend toy_models (Some toy_models) None "trn"
              (default_params "SN-S") toy_state)
    as [st2 [e|[[[out2 out_ref2] pis2] pis_ref2]]] eqn:Hrun2; [discriminate Hret2|].
  exists st1, out1, pis1, st2, out2, out_ref2, pis2, pis_ref2.
  split; [reflexivity|]. split; [reflexivity|].
  exact (proj1 (@reference_on_same_samples toy_data toy_backend (default_params "SN-S")
                  toy_models toy_heap None "trn" toy_state st1 out1 pis1 st2 out2 out_ref2
                  pis2 pis_ref2 toy_resolves Hrun1 Hrun2)).
Defined.

Lemma toy_twice_resolves :
  @resolves toy_data toy_state [0; 0] [toy_sample 2 100; toy_sample 2 100].
Proof. by repeat constructor. Qed.

Lemma one_copy_per_position_witness :
  exists st' out pis,
    @morpho_align toy_data toy_backend [0; 0] (default_params "SN-S") toy_state
      = (st', inr (out, pis)) /\
    NoDup out /\ length out = 2.
Proof.
  assert (returned (@morpho_align toy_data toy_backend [0; 0]
                      (default_params "SN-S") toy_state).2 = true) as Hret
    by (vm_compute; reflexivity).
  destruct (@morpho_align toy_data toy_backend [0; 0] (default_params "SN-S") toy_state)
    as [st' [e|[out pis]]] eqn:Hrun; [discriminate Hret|].
  exists st', out, pis. split; [reflexivity|].
  exact (proj1 (@one_copy_per_position toy_data toy_backend (default_params "SN-S")
                  [0; 0] [toy_sample 2 100; toy_sample 2 100] toy_state
                  toy_twice_resolves)
           st' out pis Hrun).
Defined.

Lemma morpho_align_ref_event_order_witness :
  exists st' out out_ref pis pis_ref evs,
    @morpho_align_ref toy_data toy_backend toy_models None (Some 2%Z) "trn"
      (default_params "SN-S") toy_state = (st', inr (out, out_ref, pis, pis_ref)) /\
    @new_events toy_data toy_state st'
      = [@EvDownsampling toy_data toy_heap (Some 2%Z) "trn" "spatial"] ++ evs /\
    length evs = 4.
Proof.
  assert (returned (@morpho_align_ref toy_data toy_backend toy_models None (Some 2%Z) "trn"
                      (default_params "SN-S") toy_state).2 = true) as Hret
    by (vm_compute; reflexivity).
  destruct (@morpho_align_ref toy_data toy_backend toy_models None (Some 2%Z) "trn"
              (default_params "SN-S") toy_state)
    as [st' [e|[[[out out_ref] pis] pis_ref]]] eqn:Hrun; [discriminate Hret|].
  destruct (@morpho_align_ref_event_order toy_data toy_backend (default_params "SN-S")
              toy_models toy_heap None (Some 2%Z) "trn" toy_state st' out out_ref pis
              pis_ref toy_resolves I Hrun)
    as (evs & Hevs & Hlen & _).
  exists st', out, out_ref, pis, pis_ref, evs.
  split; [reflexivity|]. split; [exact Hevs | exact Hlen].
Defined.

Lemma toy_first_resolves : @resolves toy_data toy_state [0] [toy_sample 2 100].
Proof. by repeat constructor. Qed.

Lemma toy_first_spatial :
  Forall (fun a => is_Some (@obsm toy_data a !! "spatial")) [toy_sample 2 100].
Proof. repeat constructor; eexists; reflexivity. Qed.

Lemma too_few_reference_samples_witness :
  exists st',
    @morpho_align_ref toy_data toy_backend toy_models (Some [0]) None "trn"
      (default_params "SN-S") toy_state = (st', inl IndexError).
Proof.
  exact (@too_few_reference_samples toy_data toy_backend (default_params "SN-S")
           toy_models toy_heap [0] [toy_sample 2 100] None "trn" toy_state
           toy_resolves toy_first_resolves (le_S 2 2 (le_n 2)) (le_S 2 2 (le_n 2))
           toy_spatial toy_first_spatial
           (fun a b args => ex_intro _ (toy_model a b args) eq_refl)
           (fun vf q dev dt => ex_intro _ _ eq_refl)).
Defined.

Lemma raised_exceptions_witness :
  exists st' e,
    @morpho_align toy_data strict_backend toy_models (default_params "SN-S") empty_tail_state
      = (st', inl e) /\
    exists evs la lb a b,
      @new_events toy_data empty_tail_state st'
        = evs ++ [@EvMorpho toy_data la lb b a (morpho_args (default_params "SN-S"))] /\
      @Morpho_pairwise toy_data strict_backend b a (morpho_args (default_params "SN-S"))
        = inl e.
Proof.
  assert (raised (@morpho_align toy_data strict_backend toy_models
                    (default_params "SN-S") empty_tail_state).2 = true) as Hret
    by (vm_compute; reflexivity).
  destruct (@morpho_align toy_data strict_backend toy_models (default_params "SN-S")
              empty_tail_state) as [st' [e|res]] eqn:Hrun; [|discriminate Hret].
  exists st', e. split; [reflexivity|].
  destruct (proj1 (@raised_exceptions toy_data strict_backend (default_params "SN-S")
                     toy_models _ None None "trn" empty_tail_state
                     empty_tail_resolves I) st' e Hrun)
    as [(_ & Hex & _)|(evs & la & lb & a & b & Hev & _ & Hfail)].
  - exfalso. clear -Hex.
    repeat (apply Exists_cons in Hex as [Hex|Hex]; [discriminate Hex|]).
    by apply Exists_nil in Hex.
  - exists evs, la, lb, a, b. split; [exact Hev | exact Hfail].
Defined.

Lemma format_logging_message_decodes_witness :
  level_marker _logging.INFO = level_marker _logging.INFO /\ "pair 1" = "pair 1".
Proof.
  exact (format_logging_message_decodes "pair 1" "pair 1" _logging.INFO _logging.INFO 1 6
           eq_refl).
Defined.

Lemma finish_progress_unknown_time_unit_witness :
  exists self' w',
    Logger.finish_progress "pairs" "min" 1
      (Logger.set_level _logging.NOTSET (LoggerManager.main_logger toy_manager),
       toy_manager_world)
      = ((self', w'), inl NotImplementedError) /\
    readings toy_manager_world w' = 1 /\
    written toy_manager_world w' = [].
Proof.
  destruct (finish_progress_unknown_time_unit "pairs" "min" 1
              (Logger.set_level _logging.NOTSET (LoggerManager.main_logger toy_manager))
              toy_manager_world ltac:(discriminate) ltac:(discriminate))
    as (self' & w' & Hrun & Hread & _ & _ & Hw).
  exists self', w'. split; [exact Hrun|]. split; [exact Hread | exact Hw].
Defined.

Lemma namespace_restored_or_left_witness :
  Logger.namespace
    (Logger.namespaced_context "align"
       (Logger.report_progress None None None "" 1)
       (LoggerManager.main_logger toy_manager, toy_manager_world)).1.1
  = match (Logger.report_progress None None None "" 1
             (Logger.set_namespace "align" (LoggerManager.main_logger toy_manager),
              toy_manager_world)).2 with
    | inr _ => Logger.namespace (LoggerManager.main_logger toy_manager)
    | inl _ => "align"
    end.
Proof.
  exact (proj2 (proj2 (proj2
           (namespace_restored_or_left "align" (Logger.report_progress None None None "" 1)
              (LoggerManager.main_logger toy_manager) toy_manager_world
              (fun sw => eq_refl))))).
Defined.

Lemma progress_logger_yields_all_witness :
  exists mgr' w',
    LoggerManager.collect 4 (LoggerManager.progress_logger [0; 1; 2] None "pairs" 1)
      (toy_manager, toy_manager_world)
    = ((mgr', w'), inr (Some (progress_logger [0; 1; 2]))).
Proof.
  exact (progress_logger_yields_all [0; 1; 2] None "pairs" 1 toy_manager toy_manager_world 4
           (le_n 4)).
Defined.

Lemma progress_logger_times_the_loop_witness :
  exists mgr' w' res,
    LoggerManager.collect 4 (LoggerManager.progress_logger [0; 1; 2] None "pairs" 1)
      (toy_manager, toy_manager_world) = ((mgr', w'), res) /\
    readings toy_manager_world w' = 2 /\
    LoggerManager.main_logger mgr' = LoggerManager.main_logger toy_manager.
Proof.
  destruct (LoggerManager.collect 4 (LoggerManager.progress_logger [0; 1; 2] None "pairs" 1)
              (toy_manager, toy_manager_world)) as [[mgr' w'] res] eqn:Hrun.
  exists mgr', w', res. split; [reflexivity|].
  destruct (progress_logger_times_the_loop [0; 1; 2] None "pairs" 1 toy_manager
              toy_manager_world 4 mgr' w' res (le_n 4) Hrun)
    as (Hread & Hother & _).
  split; [exact Hread|].
  exact (Hother LoggerManager.MainLogger ltac:(discriminate)).
Defined.

Lemma progress_logger_output_witness :
  exists mgr' w' res lines,
    LoggerManager.collect 4 (LoggerManager.progress_logger [0; 1; 2] None "pairs" 1)
      (toy_manager, toy_manager_world) = ((mgr', w'), res) /\
    written toy_manager_world w'
      = lines ++
        [progress_line 100%float "pairs" 1; LF;
         finished_line "pairs"
           (PrimFloat.sub (clock toy_manager_world (S (ticks toy_manager_world)))
              (clock toy_manager_world (ticks toy_manager_world)))
           1 LF] /\
    length lines <= 3 /\ Forall is_progress_line lines.
Proof.
  destruct (LoggerManager.collect 4 (LoggerManager.progress_logger [0; 1; 2] None "pairs" 1)
              (toy_manager, toy_manager_world)) as [[mgr' w'] res] eqn:Hrun.
  destruct (progress_logger_output [0; 1; 2] None "pairs" 1 toy_manager
              toy_manager_world 4 mgr' w' res (le_n 4) Hrun)
    as (lines & Hw & Hlen & Hlines).
  exists mgr', w', res, lines. split; [reflexivity|].
  split; [exact Hw|]. split; [exact Hlen | exact Hlines].
Defined.

Lemma progress_logger_left_early_witness :
  exists mgr' w' lr prev,
    LoggerManager.advance 2 (LoggerManager.progress_logger [0; 1; 2] None "pairs" 1)
      (toy_manager, toy_manager_world)
    = ((mgr', w'),
       inr ([0; 1],
            LoggerManager.mk_gen [0; 1; 2] None "pairs" 1
              (LoggerManager.Suspended lr [2] 2 prev))) /\
    readings toy_manager_world w' = 1.
Proof.
  destruct (progress_logger_left_early [0; 1; 2] None "pairs" 1 toy_manager
              toy_manager_world 2 (conj (le_S 1 1 (le_n 1)) (le_S 2 2 (le_n 2))))
    as (mgr' & w' & lr & prev & Hrun & Hread & _).
  exists mgr', w', lr, prev. split; [exact Hrun | exact Hread].
Defined.

Lemma silenced_main_logger_is_silent_witness :
  exists mgr0 mgr' w',
    LoggerManager.main_silence (toy_manager, toy_manager_world)
      = ((mgr0, toy_manager_world), inr tt) /\
    LoggerManager.collect 4 (LoggerManager.main_tqdm [0; 1; 2] "pairs" 1 None)
      (mgr0, toy_manager_world) = ((mgr', w'), inr (Some [0; 1; 2])) /\
    stdout w' = stdout toy_manager_world.
Proof.
  destruct (silenced_main_logger_is_silent [0; 1; 2] "pairs" 1 toy_manager
              toy_manager_world 4 (le_n 4))
    as (mgr0 & Hsil & (mgr' & w' & Hrun & Hout) & _).
  exists mgr0, mgr', w'. split; [exact Hsil|]. split; [exact Hrun | exact Hout].
Defined.

(** ** The field on a line *)

Lemma line_model_field :
  @Field.arrays line_geometry line_model !! "VecFld_morpho" = Some [1; 2; 3]%Z.
Proof. vm_compute. reflexivity. Qed.

Lemma line_field_from_end :
  line_field (Field.SamplingArray [-1; 0]%Z) Field.LabelNone
  = ([], inr ([20; 26; 0; 2; 26; 2]%Z, "arrows")).
Proof. vm_compute. reflexivity. Qed.

Lemma construct_field_plain_segments_witness :
  exists g,
    line_segments (Field.SamplingArray [-1; 0]%Z) Field.LabelNone = ([], inr g) /\
    @Field.segments line_geometry g 2.
Proof.
  destruct (@construct_field_plain_segments line_geometry line_backend line_model
              "VecFld_morpho" (Field.SamplingArray [-1; 0]%Z) "trn" 2%Z "v_arrows"
              Field.LabelNone "gainsboro" 1%Z 5%Z 1%Z [] [] _ _ line_field_from_end)
    as (field & labels & index_arr & g & streamlines & lines_cmap & arrows
        & _ & _ & Hi & Hg & _ & _ & _ & _ & Hseg & _).
  exists g. split; [exact Hg|].
  injection Hi as <-. exact Hseg.
Defined.

Lemma construct_field_plain_whole_field_witness :
  exists g,
    line_segments Field.SamplingNone Field.LabelNone = ([], inr g) /\
    @Field.segments line_geometry g 3 /\
    @Field.segment_at line_geometry g 1 10%Z 14%Z Field.vector_field.
Proof.
  destruct (@construct_field_plain_whole_field line_geometry line_backend line_model
              "VecFld_morpho" Field.SamplingNone "trn" 2%Z "v_arrows" Field.LabelNone
              "gainsboro" 1%Z 5%Z 1%Z [] [1; 2; 3]%Z
              (replicate 3 Field.vector_field)
              line_model_field eq_refl eq_refl (or_introl eq_refl))
    as (R & HR & _ & Hpos).
  destruct (Hpos (Nat.lt_0_succ 2)) as (g & -> & Hseg & Hat).
  exists g. split; [exact HR|]. split; [exact Hseg|].
  exact (Hat 1 10%Z 2%Z Field.vector_field eq_refl eq_refl eq_refl).
Defined.

Lemma plain_geometry_index_outcome_witness :
  line_segments (Field.SamplingArray [-1; 3]%Z) Field.LabelNone
  = ([], inl Field.IndexError).
Proof.
  destruct (@plain_geometry_index_outcome line_geometry line_backend line_model
              "VecFld_morpho" (Field.SamplingArray [-1; 3]%Z) "trn" 2%Z "v_arrows"
              Field.LabelNone "gainsboro" 1%Z 5%Z 1%Z [] [1; 2; 3]%Z
              (replicate 3 Field.vector_field) [] [-1; 3]%Z
              line_model_field eq_refl eq_refl eq_refl)
    as (R & HR & [_ Hout] & _).
  rewrite Hout in HR; [exact HR|].
  apply Exists_cons_tl, Exists_cons_hd. unfold Field.n_points. simpl. lia.
Defined.

Lemma line_field_wrong_label :
  line_field Field.SamplingNone (Field.LabelSeq [Field.LabelInt 1])
  = ([], inl (Field.ValueError "`label` value is wrong.")).
Proof. vm_compute. reflexivity. Qed.

Lemma field_raised_exceptions_witness :
  @Field.point_labels (Field.LabelSeq [Field.LabelInt 1]) 3
  = inl (Field.ValueError "`label` value is wrong.").
Proof.
  destruct (proj2 (@field_raised_exceptions line_geometry line_backend line_model
                     "VecFld_morpho" None Field.SamplingNone "trn" 2%Z "v_arrows"
                     (Field.LabelSeq [Field.LabelInt 1]) "gainsboro" 1%Z 5%Z 1%Z [])
              [] _ line_field_wrong_label)
    as [(Hnone & _)|[(_ & Hlab & _)|[(n & arr & Hint & _)|[(field & index_arr & ind & _ & _
        & _ & He & _)|[(_ & He)|(g & Hg & _)]]]]].
  - discriminate (eq_trans (eq_sym Hnone) line_model_field).
  - exact Hlab.
  - discriminate Hint.
  - discriminate He.
  - discriminate He.
  - discriminate Hg.
Defined.
